(** * Archive access layer of muos_frontend: handler registry, listing
    projector and the SSMC (content-addressed, chunk-deduplicated) handler.

    Shallow embedding of [src/common/archive.c] and
    [src/common/archive_ssmc.c].  C strings are [string]s (the characters
    before the terminator), byte buffers are [list byte], fixed-width
    integers are [Z] with their conversions written out, nullable pointers
    are [option]s, and the file system together with the outcome of every
    fallible C library call is threaded explicitly as a [World]. *)

From Stdlib Require Import ZArith Strings.Byte Strings.Ascii Strings.String.
From stdpp Require Import base gmap strings list fin_maps.

Local Open Scope Z_scope.

(** ** The C library, as far as the sources use it *)

Module CLib.

(** Code of a character, as [unsigned char]. *)
Definition code (c : ascii) : Z := Z.of_N (N_of_ascii c).

(** Only the sign of the result of the comparison functions is fixed by the
    C standard; the models return [-1], [0] or [1]. *)
Definition sign_of (x y : Z) : Z := if x <? y then -1 else 1.

Fixpoint strcmp (a b : string) : Z :=
  match a, b with
  | EmptyString, EmptyString => 0
  | EmptyString, String _ _ => -1
  | String _ _, EmptyString => 1
  | String x a', String y b' =>
      if Ascii.eqb x y then strcmp a' b' else sign_of (code x) (code y)
  end.

(** [tolower] in the "C" locale: only 'A'..'Z' are mapped. *)
Definition tolower (c : ascii) : ascii :=
  let n := N_of_ascii c in
  if ((65 <=? n) && (n <=? 90))%N then ascii_of_N (n + 32) else c.

Fixpoint strcasecmp (a b : string) : Z :=
  match a, b with
  | EmptyString, EmptyString => 0
  | EmptyString, String _ _ => -1
  | String _ _, EmptyString => 1
  | String x a', String y b' =>
      if Ascii.eqb (tolower x) (tolower y) then strcasecmp a' b'
      else sign_of (code (tolower x)) (code (tolower y))
  end.

(** A pointer into a C string is the offset it points at; the string seen
    through the pointer is the suffix from that offset. *)
Fixpoint str_at (s : string) (off : nat) : string :=
  match off, s with
  | O, _ => s
  | S off', String _ s' => str_at s' off'
  | S _, EmptyString => EmptyString
  end.

(** [strchr s c]: offset of the first occurrence of [c], [None] for NULL. *)
Fixpoint strchr (s : string) (c : ascii) : option nat :=
  match s with
  | EmptyString => None
  | String x s' =>
      if Ascii.eqb x c then Some O
      else match strchr s' c with
           | Some off => Some (S off)
           | None => None
           end
  end.

(** [strrchr s c]: offset of the last occurrence of [c], [None] for NULL. *)
Fixpoint strrchr (s : string) (c : ascii) : option nat :=
  match s with
  | EmptyString => None
  | String x s' =>
      match strrchr s' c with
      | Some off => Some (S off)
      | None => if Ascii.eqb x c then Some O else None
      end
  end.

Fixpoint memcmp (a b : list byte) (n : nat) : Z :=
  match n, a, b with
  | S n', x :: a', y :: b' =>
      if Byte.eqb x y then memcmp a' b' n'
      else sign_of (Z.of_N (Byte.to_N x)) (Z.of_N (Byte.to_N y))
  | _, _, _ => 0
  end.

(** Integer conversions of an LP64 platform. *)
Definition to_int (z : Z) : Z := (z + 2 ^ 31) mod 2 ^ 32 - 2 ^ 31.
Definition to_long (z : Z) : Z := (z + 2 ^ 63) mod 2 ^ 64 - 2 ^ 63.
Definition to_u64 (z : Z) : Z := z mod 2 ^ 64.
Definition INT_MAX : Z := 2 ^ 31 - 1.

End CLib.

Import CLib.

(** ** The world: files on disk and the environment's schedules *)

(** The outcome the environment has in store for a fallible library call:
    the call goes through, or it fails after transferring so many bytes
    (a number that only matters to [fwrite] and [fclose]). *)
Inductive outcome := Pass | Fault (transferred : nat).

(** [fs] maps a file to its content and [file_of] a path to the file it
    names.  Paths that differ as strings may name one file (["x"] and
    ["./x"], ["d//x"], a name in another case on a case-insensitive volume,
    a path through a linked directory); a file is identified by the
    canonical name of its directory entry, and that is the key of [fs].
    Every regular file is taken to have one directory entry, so that
    removing it under any of its names removes the file: hard links and
    symbolic links to regular files are outside the model, and so are other
    processes.

    [faults] schedules the coming calls of the allocator and of stdio
    ([malloc], [strdup], [realloc], [fopen], [fseek], [fread], [fwrite],
    and [fclose] on a stream opened for writing): each such call consumes
    the head; an exhausted schedule means no further fault.  [unlinks]
    does the same for the calls of [remove], [true] meaning the call
    fails. *)
Record World := mkWorld {
  fs : gmap string (list byte);
  file_of : string → string;
  faults : list outcome;
  unlinks : list bool
}.

Definition set_fs (files : gmap string (list byte)) (w : World) : World :=
  mkWorld files (file_of w) (faults w) (unlinks w).

(** Computations that may jump to their function's cleanup label: the
    result is [None] after such a jump, and the world keeps the effects
    performed before it. *)
Definition io (A : Type) : Type := World → option A * World.

Definition io_ret {A} (a : A) : io A := λ w, (Some a, w).
Definition io_fail {A} : io A := λ w, (None, w).
Definition io_bind {A B} (c : io A) (k : A → io B) : io B :=
  λ w, match c w with
       | (Some a, w') => k a w'
       | (None, w') => (None, w')
       end.

Notation "'do' x <- c ; k" := (io_bind c (λ x, k))
  (at level 10, x pattern, c at level 100, k at level 200).
Notation "'check' b ; k" := (if b then k else io_fail)
  (at level 10, b at level 100, k at level 200).

(** Consume one scheduled outcome. *)
Definition next_outcome : World → outcome * World := λ w,
  match faults w with
  | [] => (Pass, w)
  | o :: rest => (o, mkWorld (fs w) (file_of w) rest (unlinks w))
  end.

Definition passes (o : outcome) : bool :=
  match o with
  | Pass => true
  | Fault _ => false
  end.

(** The same for a call of which only success or failure matters; the
    result is [true] when the call at hand goes through. *)
Definition next_ok : World → bool * World := λ w,
  let '(o, w') := next_outcome w in (passes o, w').

(** [malloc], [strdup] and [realloc] only matter by whether they return
    NULL. *)
Definition alloc : io unit := λ w,
  let '(ok, w') := next_ok w in
  if ok then (Some tt, w') else (None, w').

(** An open stream: the file it was opened on and its position.  A
    stream opened for reading has no buffer of its own here: a read sees the
    file as it is.  This differs from stdio only when the file is written
    while it is being read, that is, when the output of an extraction names
    the archive itself. *)
Record FILE := mkFILE {
  f_file : string;
  f_pos : Z
}.

Definition fopen_rb (path : string) : io FILE := λ w,
  let '(ok, w') := next_ok w in
  match fs w' !! file_of w' path with
  | Some _ => if ok then (Some (mkFILE (file_of w' path) 0), w') else (None, w')
  | None => (None, w')
  end.

(** ["wb"] creates the file or truncates it to length zero. *)
Definition fopen_wb (path : string) : io FILE := λ w,
  let '(ok, w') := next_ok w in
  if ok then (Some (mkFILE (file_of w' path) 0),
              set_fs (<[file_of w' path := []]> (fs w')) w')
  else (None, w').

(** [fseek(f, off, SEEK_SET)] with [off] already converted to [long];
    a negative offset is refused. *)
Definition fseek (f : FILE) (off : Z) : io FILE := λ w,
  let '(ok, w') := next_ok w in
  if ok && (0 <=? off) then (Some (mkFILE (f_file f) off), w') else (None, w').

Definition read_at (data : list byte) (pos n : Z) : list byte :=
  take (Z.to_nat n) (drop (Z.to_nat pos) data).

(** [fread(buf, 1, n, f)]: the bytes transferred (fewer than [n] at end of
    file, none on a fault) and the advanced stream.  The caller compares the
    number of bytes with [n]. *)
Definition fread (f : FILE) (n : Z) : World → (list byte * FILE) * World := λ w,
  let '(ok, w') := next_ok w in
  let data := default [] (fs w' !! f_file f) in
  let got := if ok then read_at data (f_pos f) n else [] in
  ((got, mkFILE (f_file f) (f_pos f + Z.of_nat (length got))), w').

(** [fread] followed by the callers' test that all [n] bytes arrived. *)
Definition fread_exact (f : FILE) (n : Z) : io (list byte * FILE) := λ w,
  let '((got, f'), w') := fread f n w in
  if Z.of_nat (length got) =? n then (Some (got, f'), w') else (None, w').

(** [fwrite(buf, 1, n, f)] appends to the file; on a fault it transfers
    at most [transferred] bytes, and fewer than asked for.  The result is
    the number of bytes written.  The stream's buffer is not kept apart
    from the file: when the bytes reach the file cannot be observed before
    the stream is closed, since nothing else reads the output during the
    call, so they count as written at once and [fclose] decides how many
    of them stay. *)
Definition fwrite (buf : list byte) (f : FILE) : World → Z * World := λ w,
  let '(o, w') := next_outcome w in
  let sent :=
    match o with
    | Pass => buf
    | Fault transferred => take (transferred `min` pred (length buf)) buf
    end in
  (Z.of_nat (length sent),
   set_fs (<[f_file f := default [] (fs w' !! f_file f) ++ sent]> (fs w')) w').

(** [fclose(f)] on a stream opened for writing flushes the buffer.  When
    the flush fails, only the first [transferred] bytes written through the
    stream have reached the file (all of them, if the flush got that far).
    The callers discard the result.  Closing a stream opened for reading
    changes no file, and no caller looks at its result either: it is left
    out. *)
Definition fclose (f : FILE) (w : World) : World :=
  let '(o, w') := next_outcome w in
  match o with
  | Pass => w'
  | Fault transferred => set_fs (alter (take transferred) (f_file f) (fs w')) w'
  end.

(** [remove(path)] unlinks the file, if there is one, unless the call
    fails.  The callers discard the result. *)
Definition remove (path : string) (w : World) : World :=
  match unlinks w with
  | [] => set_fs (delete (file_of w path) (fs w)) w
  | failed :: rest =>
      mkWorld (if failed then fs w else delete (file_of w path) (fs w))
              (file_of w) (faults w) rest
  end.

(** ** archive.h: entries and the handler interface

    [archive.c] and [archive_ssmc.c] use [ArchiveEntry] and
    [ARCHIVE_ENTRY_FILE], which none of the sources declares; the entry is
    modelled by the three members the code accesses ([path], [type],
    [index]) and the kind by its two values, file and directory. *)

Inductive ArchiveEntryType := ARCHIVE_ENTRY_FILE | ARCHIVE_ENTRY_DIRECTORY.

(** [entry_path] is a [char*] and may be NULL; [entry_index] receives the
    loop counter of the lister. *)
Record ArchiveEntry := mkEntry {
  entry_path : option string;
  entry_type : ArchiveEntryType;
  entry_index : Z
}.

(** The function-pointer table of a format handler.  A lister receives the
    value [*count] holds on entry and returns the array (or NULL) together
    with the value [*count] holds on return.  The members the callers test
    against NULL are [option]s. *)
Record ArchiveVTable := mkVTable {
  is_supported : string → bool;
  list_contents :
    option (string → Z → World → (option (list ArchiveEntry) * Z) * World);
  extract_file : option (string → option string → Z → string → io string);
  get_handler_name : option string;
  get_supported_extensions : option (list string)
}.

(** Handlers are compared by address; [vt] below reads the table stored at
    an address. *)
Abbreviation ptr := N (only parsing).
Definition NULL : ptr := 0%N.

(** ** archive.c *)

Definition MAX_HANDLERS : nat := 50.
Definition MAX_ARCHIVE_DISPLAY_ITEMS : nat := 255.

(** The two file-scope variables: the slot array and the number of slots in
    use. *)
Record Registry := mkRegistry {
  archive_handlers : list ptr;
  handler_count : nat
}.

Definition registry_init : Registry :=
  mkRegistry (replicate MAX_HANDLERS NULL) 0.

(** The registered handlers, in registration order. *)
Definition registered (r : Registry) : list ptr :=
  take (handler_count r) (archive_handlers r).

(** [for (i = 0; i < handler_count; i++) if (archive_handlers[i] == handler)
    return;] started at slot [i] with [remaining] iterations to go. *)
Fixpoint handler_listed (slots : list ptr) (handler : ptr) (i remaining : nat) : bool :=
  match remaining with
  | O => false
  | S r =>
      match slots !! i with
      | Some p => if N.eqb p handler then true else handler_listed slots handler (S i) r
      | None => false
      end
  end.

Definition register_archive_handler (handler : ptr) (r : Registry) : Registry :=
  if N.eqb handler NULL then r
  else if (MAX_HANDLERS <=? handler_count r)%nat then r
  else if handler_listed (archive_handlers r) handler 0 (handler_count r) then r
  else mkRegistry (<[handler_count r := handler]> (archive_handlers r))
                  (S (handler_count r)).

Fixpoint first_supported (vt : ptr → ArchiveVTable) (slots : list ptr)
    (filename : string) (i remaining : nat) : ptr :=
  match remaining with
  | O => NULL
  | S r =>
      match slots !! i with
      | Some p =>
          if is_supported (vt p) filename then p
          else first_supported vt slots filename (S i) r
      | None => NULL
      end
  end.

Definition get_handler_for_file (vt : ptr → ArchiveVTable) (r : Registry)
    (filename : option string) : ptr :=
  match filename with
  | None => NULL
  | Some name => first_supported vt (archive_handlers r) name 0 (handler_count r)
  end.

Definition archive_system_shutdown (r : Registry) : Registry :=
  mkRegistry (replicate (handler_count r) NULL ++ drop (handler_count r) (archive_handlers r)) 0.

(** The loop over the NULL-terminated extension array. *)
Fixpoint ext_listed (file_ext : string) (extensions : list string) : bool :=
  match extensions with
  | [] => false
  | e :: rest =>
      if strcasecmp file_ext e =? 0 then true else ext_listed file_ext rest
  end.

Definition archive_helper_is_ext_supported (filename : string)
    (extensions : list string) : bool :=
  match strrchr filename "." with
  | None => false
  | Some off =>
      if (off =? 0)%nat then false
      else ext_listed (str_at filename off) extensions
  end.

(** What a call does: it returns, or it runs into undefined behaviour (an
    access outside an array, a NULL string handed to the C library). *)
Inductive behaviour (A : Type) :=
  | Returns (a : A)
  | Undefined.
Arguments Returns {A} a.
Arguments Undefined {A}.

(** How the projection loop of [archive_list_contents] ends: normally with
    the filled prefix of [working_list], by [goto cleanup] after a failed
    [strdup], or in undefined behaviour. *)
Inductive scan :=
  | ScanDone (working_list : list string)
  | ScanNoMem
  | ScanUndefined.

(** The loop [for (i = 0; i < handler_raw_count; i++)], at index [i] with
    [remaining] iterations to go; [valid_item_count] is the length of
    [working_list]. *)
Fixpoint collect_entries (entries : list ArchiveEntry) (i remaining : nat)
    (working_list : list string) (w : World) : scan * World :=
  match remaining with
  | O => (ScanDone working_list, w)
  | S r =>
      if (MAX_ARCHIVE_DISPLAY_ITEMS <=? length working_list)%nat
      then (ScanDone working_list, w)
      else
        match entries !! i with
        | None => (ScanUndefined, w)
        | Some e =>
            match entry_path e with
            | None => (ScanUndefined, w)
            | Some p =>
                let is_file :=
                  match entry_type e with
                  | ARCHIVE_ENTRY_FILE => true
                  | _ => false
                  end in
                let is_root :=
                  match strchr p "/" with
                  | None => true
                  | Some _ => false
                  end in
                if is_file && is_root then
                  match alloc w with
                  | (Some _, w') =>
                      collect_entries entries (S i) r (working_list ++ [p]) w'
                  | (None, w') => (ScanNoMem, w')
                  end
                else collect_entries entries (S i) r working_list w
            end
        end
  end.

(** [archive_list_contents(archive_path, count)]: the returned list (NULL is
    [None]) and the value of [*count] afterwards, [count_in] being its value
    before the call. *)
Definition archive_list_contents (vt : ptr → ArchiveVTable) (r : Registry)
    (archive_path : option string) (count_in : Z) (w : World)
    : behaviour (option (list string) * Z) * World :=
  let handler := get_handler_for_file vt r archive_path in
  match archive_path, N.eqb handler NULL, list_contents (vt handler) with
  | Some path, false, Some lister =>
      match lister path 0 w with
      | ((None, _), w1) => (Returns (None, count_in), w1)
      | ((Some entries, handler_raw_count), w1) =>
          match alloc w1 with
          | (None, w2) => (Returns (None, count_in), w2)
          | (Some _, w2) =>
              match collect_entries entries 0 (Z.to_nat handler_raw_count) [] w2 with
              | (ScanUndefined, w3) => (Undefined, w3)
              | (ScanNoMem, w3) => (Returns (None, count_in), w3)
              | (ScanDone working_list, w3) =>
                  let valid_item_count := Z.of_nat (length working_list) in
                  if 0 <? valid_item_count then
                    match alloc w3 with
                    | (Some _, w4) => (Returns (Some working_list, valid_item_count), w4)
                    | (None, w4) => (Returns (None, valid_item_count), w4)
                    end
                  else (Returns (None, valid_item_count), w3)
              end
          end
      end
  | _, _, _ => (Returns (None, count_in), w)
  end.

Definition archive_extract_file (vt : ptr → ArchiveVTable) (r : Registry)
    (archive_path : option string) (file_inside_archive : option string)
    (file_index : Z) (temp_dir : string) : io string :=
  let handler := get_handler_for_file vt r archive_path in
  match archive_path, N.eqb handler NULL, extract_file (vt handler) with
  | Some path, false, Some extractor =>
      extractor path file_inside_archive file_index temp_dir
  | _, _, _ => io_fail
  end.

(** ** sprite_shrink.h: the interface of the chunk store library

    The header of the external library is not among the sources.  Its
    types are modelled by the members the sources access, and its functions
    and constants are the fields of [SpriteShrink], over which everything
    below is parameterised. *)

Record FileHeader := mkHeader {
  magic_num : list byte;
  hash_type : Z;
  man_offset : Z;
  man_length : Z;
  chunk_index_offset : Z;
  chunk_index_length : Z;
  dict_offset : Z;
  dict_length : Z;
  data_offset : Z
}.

Record FFIChunkLocation := mkLocation {
  loc_offset : Z;
  loc_length : Z
}.

(** One chunk descriptor: the digest ([hash]) and the decompressed length
    ([length]). *)
Record FFISSAChunkMeta (H : Type) := mkChunkMeta {
  chunk_hash : H;
  chunk_length : Z
}.
Arguments mkChunkMeta {H} _ _.
Arguments chunk_hash {H} _.
Arguments chunk_length {H} _.

(** One manifest record; [chunk_metadata_len] is the length of
    [chunk_metadata]. *)
Record FFIFileManifestParent (H : Type) := mkManifest {
  filename : string;
  chunk_metadata : list (FFISSAChunkMeta H)
}.
Arguments mkManifest {H} _ _.
Arguments filename {H} _.
Arguments chunk_metadata {H} _.

(** The width-specific functions of the library.  A result other than
    [StatusOk] is [None]; the decoded array ([manifests], of length
    [manifests_len]) is a list. *)
Record ChunkStore (H : Type) := mkChunkStore {
  ChunkIndexHandle : Type;
  parse_file_metadata : list byte → Z → option (list (FFIFileManifestParent H));
  prepare_chunk_index : list byte → Z → option ChunkIndexHandle;
  lookup_chunk_location : ChunkIndexHandle → H → option FFIChunkLocation
}.
Arguments ChunkIndexHandle {H} _.
Arguments parse_file_metadata {H} _ _ _.
Arguments prepare_chunk_index {H} _ _ _.
Arguments lookup_chunk_location {H} _ _ _.

(** 64-bit digests are integers, 128-bit digests are byte arrays. *)
Definition u64 : Type := Z.
Definition U128Bytes : Type := list byte.

(** [decompress_chunk_c comp comp_len dict dict_len out_len] is what the
    library stored into the output buffer, when it reports [StatusOk].
    [header_of_bytes] reads a [FileHeader] out of the [sizeof_FileHeader]
    bytes that [fread] delivered; offsets and lengths are 64-bit unsigned
    fields. *)
Record SpriteShrink := mkSpriteShrink {
  sizeof_FileHeader : nat;
  MAGIC_NUMBER : list byte;
  header_of_bytes : list byte → FileHeader;
  store_u64 : ChunkStore u64;
  store_u128 : ChunkStore U128Bytes;
  decompress_chunk_c : list byte → Z → list byte → Z → Z → option (list byte)
}.

(** ** archive_ssmc.c *)

Definition ssmc_extensions : list string := [".ssmc"].

Definition ssmc_is_supported (filename : string) : bool :=
  archive_helper_is_ext_supported filename ssmc_extensions.

(** The entry array right after [memset(item_list, 0, ...)]. *)
Definition zero_entry : ArchiveEntry := mkEntry None ARCHIVE_ENTRY_FILE 0.

(** The filling loop of [ssmc_list_contents], at index [i] with [remaining]
    iterations to go.  [source_filename i] reads [manifests[i].filename] of
    the decoded array in use. *)
Fixpoint fill_item_list (source_filename : nat → option string)
    (i remaining : nat) (item_list : list ArchiveEntry) : io (list ArchiveEntry) :=
  match remaining with
  | O => io_ret item_list
  | S r =>
      match source_filename i with
      | None => io_fail
      | Some name =>
          do _ <- alloc;
          fill_item_list source_filename (S i) r
            (<[i := mkEntry (Some name) ARCHIVE_ENTRY_FILE (Z.of_nat i)]> item_list)
      end
  end.

(** The header check shared by the lister and the extractor. *)
Definition magic_ok (lib : SpriteShrink) (header : FileHeader) : bool :=
  memcmp (magic_num header) (MAGIC_NUMBER lib) (length (magic_num header)) =? 0.

(** [ssmc_list_contents] up to its cleanup label: the filled entry array
    together with [manifest_len].  [parsed_manifest64] and
    [parsed_manifest128] start out NULL and only the one the header selects
    is assigned; the filling loop tests the selector again to pick the
    array it reads. *)
Definition ssmc_list_body (lib : SpriteShrink) (archive_path : string)
    : io (list ArchiveEntry * nat) :=
  do archive_file <- fopen_rb archive_path;
  do (raw, archive_file) <- fread_exact archive_file (Z.of_nat (sizeof_FileHeader lib));
  let header := header_of_bytes lib raw in
  check magic_ok lib header;
  do _ <- alloc;
  do archive_file <- fseek archive_file (to_long (man_offset header));
  do (manifest_buffer, archive_file) <- fread_exact archive_file (man_length header);
  let parsed_manifest64 :=
    if hash_type header =? 1
    then parse_file_metadata (store_u64 lib) manifest_buffer (man_length header)
    else None in
  let parsed_manifest128 :=
    if hash_type header =? 1 then None
    else if hash_type header =? 2
    then parse_file_metadata (store_u128 lib) manifest_buffer (man_length header)
    else None in
  do manifest_len <-
    (if hash_type header =? 1
     then match parsed_manifest64 with
          | Some m => io_ret (length m)
          | None => io_fail
          end
     else if hash_type header =? 2
     then match parsed_manifest128 with
          | Some m => io_ret (length m)
          | None => io_fail
          end
     else io_fail);
  check negb (manifest_len =? 0)%nat;
  do _ <- alloc;
  let source_filename (i : nat) : option string :=
    if hash_type header =? 1
    then filename <$> (default [] parsed_manifest64 !! i)
    else filename <$> (default [] parsed_manifest128 !! i) in
  do item_list <-
    fill_item_list source_filename 0 manifest_len (replicate manifest_len zero_entry);
  io_ret (item_list, manifest_len).

(** [ssmc_list_contents(archive_path, count)]: [*count] is zeroed first, set
    to [(int)manifest_len] once the array is filled, and the cleanup code
    gives the array up when [*count] is zero. *)
Definition ssmc_list_contents (lib : SpriteShrink) (archive_path : string)
    (count_in : Z) (w : World) : (option (list ArchiveEntry) * Z) * World :=
  match ssmc_list_body lib archive_path w with
  | (Some (item_list, manifest_len), w') =>
      let count := to_int (Z.of_nat manifest_len) in
      ((if count =? 0 then None else Some item_list, count), w')
  | (None, w') => ((None, 0), w')
  end.

Section Extract.

(** [extract_u64] and [extract_u128] are the same text up to the digest
    type and the library functions called; the common body is written once
    over a [ChunkStore]. *)
Context {H : Type} (store : ChunkStore H).
Context (decompress : list byte → Z → list byte → Z → Z → option (list byte)).

(** The exhaustive fallback: the first record whose name [strcmp]s equal. *)
Fixpoint find_by_name (manifests : list (FFIFileManifestParent H))
    (file_inside_archive : string) : option (FFIFileManifestParent H) :=
  match manifests with
  | [] => None
  | m :: rest =>
      if strcmp (filename m) file_inside_archive =? 0 then Some m
      else find_by_name rest file_inside_archive
  end.

(** Selection of [target_manifest].  In [file_index < manifests_len] the
    [int] is converted to the unsigned type of the length. *)
Definition resolve_target (manifests : list (FFIFileManifestParent H))
    (file_inside_archive : option string) (file_index : Z)
    : option (FFIFileManifestParent H) :=
  if (0 <=? file_index) && (to_u64 file_index <? Z.of_nat (length manifests))
  then manifests !! Z.to_nat file_index
  else match file_inside_archive with
       | Some name => find_by_name manifests name
       | None => None
       end.

(** One iteration of the chunk loop; the result is the archive stream
    after the read.  [decomp_buf] has [chunk_meta->length] bytes, all of
    which are written to the output; bytes the library left unset are
    indeterminate in C and zero here. *)
Definition write_chunk (archive_file : FILE) (header : FileHeader)
    (handle : ChunkIndexHandle store) (dictionary_buf : list byte)
    (out_file : FILE) (chunk_meta : FFISSAChunkMeta H) : io FILE :=
  match lookup_chunk_location store handle (chunk_hash chunk_meta) with
  | None => io_fail
  | Some location =>
      do _ <- alloc;
      do _ <- alloc;
      do archive_file <-
        fseek archive_file (to_long (to_u64 (data_offset header + loc_offset location)));
      do (comp_buf, archive_file) <- fread_exact archive_file (loc_length location);
      match decompress comp_buf (loc_length location) dictionary_buf
              (dict_length header) (chunk_length chunk_meta) with
      | None => io_fail
      | Some stored =>
          let decomp_buf := resize (Z.to_nat (chunk_length chunk_meta)) "000"%byte stored in
          λ w,
            let '(written, w') := fwrite decomp_buf out_file w in
            if written =? chunk_length chunk_meta then (Some archive_file, w')
            else (None, w')
      end
  end.

Fixpoint write_chunks (archive_file : FILE) (header : FileHeader)
    (handle : ChunkIndexHandle store) (dictionary_buf : list byte)
    (out_file : FILE) (chunks : list (FFISSAChunkMeta H)) : io unit :=
  match chunks with
  | [] => io_ret tt
  | chunk_meta :: rest =>
      do archive_file <-
        write_chunk archive_file header handle dictionary_buf out_file chunk_meta;
      write_chunks archive_file header handle dictionary_buf out_file rest
  end.

Definition output_path_of (target_dir : string) (target : FFIFileManifestParent H) : string :=
  target_dir +:+ "/" +:+ filename target.

(** The body shared by [extract_u64] and [extract_u128].  The cleanup
    code closes [out_file] if it was opened, and, once [output_path] is
    set, a failed call calls [remove] on that path.  The results of
    [fclose] and [remove] are not looked at. *)
Definition extract_generic (archive_file : FILE) (header : FileHeader)
    (manifest_buf chunk_index_buf dictionary_buf : list byte)
    (file_inside_archive : option string) (file_index : Z)
    (target_dir : string) : io string := λ w,
  match parse_file_metadata store manifest_buf (man_length header) with
  | None => (None, w)
  | Some p_manifest =>
      match prepare_chunk_index store chunk_index_buf (chunk_index_length header) with
      | None => (None, w)
      | Some handle =>
          match resolve_target p_manifest file_inside_archive file_index with
          | None => (None, w)
          | Some target_manifest =>
              match alloc w with
              | (None, w1) => (None, w1)
              | (Some _, w1) =>
                  let output_path := output_path_of target_dir target_manifest in
                  match fopen_wb output_path w1 with
                  | (None, w2) => (None, remove output_path w2)
                  | (Some out_file, w2) =>
                      match write_chunks archive_file header handle dictionary_buf
                              out_file (chunk_metadata target_manifest) w2 with
                      | (Some _, w3) => (Some output_path, fclose out_file w3)
                      | (None, w3) => (None, remove output_path (fclose out_file w3))
                      end
                  end
              end
          end
      end
  end.

End Extract.

Definition extract_u64 (lib : SpriteShrink) :=
  extract_generic (store_u64 lib) (decompress_chunk_c lib).

Definition extract_u128 (lib : SpriteShrink) :=
  extract_generic (store_u128 lib) (decompress_chunk_c lib).

(** What [ssmc_extract_file] holds once the header and the three sections
    are in memory. *)
Record Sections := mkSections {
  s_file : FILE;
  s_header : FileHeader;
  s_manifest : list byte;
  s_chunk_index : list byte;
  s_dictionary : list byte
}.

(** The section loader: header, magic check, then manifest, chunk index and
    dictionary, each by [malloc], [fseek] and [fread]. *)
Definition load_sections (lib : SpriteShrink) (archive_path : string) : io Sections :=
  do archive_file <- fopen_rb archive_path;
  do (raw, archive_file) <- fread_exact archive_file (Z.of_nat (sizeof_FileHeader lib));
  let header := header_of_bytes lib raw in
  check magic_ok lib header;
  do _ <- alloc;
  do archive_file <- fseek archive_file (to_long (man_offset header));
  do (manifest_buf, archive_file) <- fread_exact archive_file (man_length header);
  do _ <- alloc;
  do archive_file <- fseek archive_file (to_long (chunk_index_offset header));
  do (chunk_index_buf, archive_file) <-
    fread_exact archive_file (chunk_index_length header);
  do _ <- alloc;
  do archive_file <- fseek archive_file (to_long (dict_offset header));
  do (dictionary_buf, archive_file) <- fread_exact archive_file (dict_length header);
  io_ret (mkSections archive_file header manifest_buf chunk_index_buf dictionary_buf).

Definition ssmc_extract_file (lib : SpriteShrink) (archive_path : string)
    (file_inside_archive : option string) (file_index : Z)
    (target_dir : string) : io string :=
  do s <- load_sections lib archive_path;
  if hash_type (s_header s) =? 1 then
    extract_u64 lib (s_file s) (s_header s) (s_manifest s) (s_chunk_index s)
      (s_dictionary s) file_inside_archive file_index target_dir
  else if hash_type (s_header s) =? 2 then
    extract_u128 lib (s_file s) (s_header s) (s_manifest s) (s_chunk_index s)
      (s_dictionary s) file_inside_archive file_index target_dir
  else io_fail.

Definition ssmc_get_handler_name : string := "SSMC Archive Handler".

Definition arc_ssmc_vtable (lib : SpriteShrink) : ArchiveVTable :=
  mkVTable ssmc_is_supported
           (Some (ssmc_list_contents lib))
           (Some (ssmc_extract_file lib))
           (Some ssmc_get_handler_name)
           (Some ssmc_extensions).


(** ** archive.c and archive_ssmc.c: the remaining entry points *)

(** [register_all_archive_handlers] registers the one handler there is;
    [ssmc_handler] stands for the value of [get_ssmc_archive_handler()],
    the address of the static table [arc_ssmc_vtable]. *)
Definition register_all_archive_handlers (ssmc_handler : ptr) (r : Registry) : Registry :=
  register_archive_handler ssmc_handler r.

Record SupportedExtensionInfo := mkInfo {
  extension : string;
  handler_name : string
}.

(** How the collecting loops of [archive_get_all_supported_info] end:
    normally, with the pairs collected and the current capacity; by the
    clean-up that follows a failed [realloc] or [strdup]; or in undefined
    behaviour. *)
Inductive info_scan :=
  | InfoDone (info_list : list SupportedExtensionInfo) (capacity : Z)
  | InfoNoMem
  | InfoUndefined.

(** [if ( *count >= capacity) { capacity *= 2; realloc ... }]: the capacity to
    go on with, [None] when [realloc] fails.  Doubling an [int] beyond
    [INT_MAX] is undefined. *)
Definition grow_info_list (count capacity : Z) (w : World) : behaviour (option Z) * World :=
  if capacity <=? count then
    if INT_MAX <? capacity * 2 then (Undefined, w)
    else match alloc w with
         | (Some _, w') => (Returns (Some (capacity * 2)), w')
         | (None, w') => (Returns None, w')
         end
  else (Returns (Some capacity), w).

(** The inner loop over the extensions of one handler; [*count] is the
    length of [info_list].  Both [strdup] calls are made before either
    result is tested.  [( *count)++] cannot overflow, as the count stays
    below the capacity. *)
Fixpoint collect_extensions (name : string) (exts : list string)
    (info_list : list SupportedExtensionInfo) (capacity : Z) (w : World)
    : info_scan * World :=
  match exts with
  | [] => (InfoDone info_list capacity, w)
  | e :: rest =>
      match grow_info_list (Z.of_nat (length info_list)) capacity w with
      | (Undefined, w1) => (InfoUndefined, w1)
      | (Returns None, w1) => (InfoNoMem, w1)
      | (Returns (Some capacity'), w1) =>
          let '(ok_extension, w2) := next_ok w1 in
          let '(ok_name, w3) := next_ok w2 in
          if ok_extension && ok_name
          then collect_extensions name rest (info_list ++ [mkInfo e name]) capacity' w3
          else (InfoNoMem, w3)
      end
  end.

(** The outer loop over the registered handlers, at slot [i] with
    [remaining] iterations to go. *)
Fixpoint collect_handlers (vt : ptr → ArchiveVTable) (slots : list ptr)
    (i remaining : nat) (info_list : list SupportedExtensionInfo) (capacity : Z)
    (w : World) : info_scan * World :=
  match remaining with
  | O => (InfoDone info_list capacity, w)
  | S r =>
      match slots !! i with
      | None => (InfoUndefined, w)
      | Some handler =>
          if N.eqb handler NULL then collect_handlers vt slots (S i) r info_list capacity w
          else
            match get_handler_name (vt handler), get_supported_extensions (vt handler) with
            | Some name, Some exts =>
                match collect_extensions name exts info_list capacity w with
                | (InfoDone info_list' capacity', w') =>
                    collect_handlers vt slots (S i) r info_list' capacity' w'
                | stop => stop
                end
            | _, _ => collect_handlers vt slots (S i) r info_list capacity w
            end
      end
  end.

(** [archive_get_all_supported_info(count)].  [count] is [None] for a NULL
    pointer and otherwise the value stored there; the result is the
    returned array (NULL is [None]) and what [count] points to afterwards. *)
Definition archive_get_all_supported_info (vt : ptr → ArchiveVTable) (r : Registry)
    (count : option Z) (w : World)
    : behaviour (option (list SupportedExtensionInfo) * option Z) * World :=
  match count with
  | None => (Returns (None, None), w)
  | Some _ =>
      if (handler_count r =? 0)%nat then (Returns (None, Some 0), w)
      else
        match alloc w with
        | (None, w1) => (Returns (None, Some 0), w1)
        | (Some _, w1) =>
            match collect_handlers vt (archive_handlers r) 0 (handler_count r) [] 8 w1 with
            | (InfoUndefined, w2) => (Undefined, w2)
            | (InfoNoMem, w2) => (Returns (None, Some 0), w2)
            | (InfoDone info_list _, w2) =>
                if (length info_list =? 0)%nat then (Returns (None, Some 0), w2)
                else
                  match alloc w2 with
                  | (Some _, w3) =>
                      (Returns (Some info_list, Some (Z.of_nat (length info_list))), w3)
                  | (None, w3) => (Returns (None, Some 0), w3)
                  end
            end
        end
  end.
(** ** Reference notions the statements are phrased with *)

(** Lower-casing of a whole string: two strings are equal up to case when
    their images are equal. *)
Fixpoint string_lower (s : string) : string :=
  match s with
  | EmptyString => EmptyString
  | String c s' => String (tolower c) (string_lower s')
  end.

(** [c] occurs in [s]. *)
Fixpoint occurs (c : ascii) (s : string) : bool :=
  match s with
  | EmptyString => false
  | String x s' => Ascii.eqb x c || occurs c s'
  end.

(** The header of an archive with content [data], as [fread] delivers it. *)
Definition archive_header (lib : SpriteShrink) (data : list byte) : FileHeader :=
  header_of_bytes lib (read_at data 0 (Z.of_nat (sizeof_FileHeader lib))).

(** The bytes of a section declared at offset [off] with length [len]. *)
Definition section_bytes (data : list byte) (off len : Z) : list byte :=
  read_at data (to_long off) len.

Definition manifest_bytes (lib : SpriteShrink) (data : list byte) : list byte :=
  let h := archive_header lib data in
  section_bytes data (man_offset h) (man_length h).

(** The file names of the manifest an archive decodes to, in manifest
    order, by the decoder its digest width selects. *)
Definition manifest_names (lib : SpriteShrink) (data : list byte) : option (list string) :=
  let h := archive_header lib data in
  if hash_type h =? 1 then
    match parse_file_metadata (store_u64 lib) (manifest_bytes lib data) (man_length h) with
    | Some m => Some (filename <$> m)
    | None => None
    end
  else if hash_type h =? 2 then
    match parse_file_metadata (store_u128 lib) (manifest_bytes lib data) (man_length h) with
    | Some m => Some (filename <$> m)
    | None => None
    end
  else None.

(** The entry array a successful listing holds for the names [names]. *)
Definition entries_of (names : list string) : list ArchiveEntry :=
  imap (λ i name, mkEntry (Some name) ARCHIVE_ENTRY_FILE (Z.of_nat i)) names.

(** The path of an entry the listing projector keeps: the entry is a file
    and its path has no ['/']. *)
Definition root_file (e : ArchiveEntry) : option string :=
  match entry_type e, entry_path e with
  | ARCHIVE_ENTRY_FILE, Some p => if occurs "/" p then None else Some p
  | _, _ => None
  end.

Definition root_files (entries : list ArchiveEntry) : list string :=
  omap root_file entries.

Definition is_int (z : Z) : Prop := - 2 ^ 31 ≤ z ≤ INT_MAX.




(** The compressed bytes of the chunk at [loc] in the data section. *)
Definition chunk_bytes (data : list byte) (h : FileHeader) (loc : FFIChunkLocation) : list byte :=
  read_at data (to_long (to_u64 (data_offset h + loc_offset loc))) (loc_length loc).

Definition chunk_present (data : list byte) (h : FileHeader) (loc : FFIChunkLocation) : Prop :=
  0 ≤ to_long (to_u64 (data_offset h + loc_offset loc)) ∧
  Z.of_nat (length (chunk_bytes data h loc)) = loc_length loc.

(** The words of the matcher's description, read literally: the extension
    is the substring after the last ['.'], and it is that substring which
    is compared, up to case, with the entries of the list. *)
Definition ext_match_as_worded (filename : string) (extensions : list string) : Prop :=
  ∃ stem ext e,
    filename = stem +:+ String "." ext ∧ occurs "." ext = false ∧
    stem ≠ EmptyString ∧ e ∈ extensions ∧ string_lower ext = string_lower e.

(** The invariant of the two registry variables: fifty slots, at most fifty
    in use, and the slots in use hold distinct non-NULL handlers. *)
Definition registry_wf (r : Registry) : Prop :=
  length (archive_handlers r) = MAX_HANDLERS ∧
  (handler_count r ≤ MAX_HANDLERS)%nat ∧
  NoDup (registered r) ∧
  NULL ∉ registered r.

(** A computation that leaves the files as they are, whatever its result. *)
Definition read_only {A} (c : io A) : Prop := ∀ w, fs (c w).2 = fs w.

(** A computation that leaves the whole world as it is when no fault is
    scheduled. *)
Definition idle {A} (c : io A) : Prop := ∀ w, faults w = [] → (c w).2 = w.

(** A computation that changes no file other than [file]. *)
Definition writes_only (file : string) {A} (c : io A) : Prop :=
  ∀ w q, q ≠ file → fs (c w).2 !! q = fs w !! q.

(** Two worlds with the same naming of files and the same schedule for
    [remove]; every computation but [remove] keeps both. *)
Definition same_env (w w' : World) : Prop :=
  file_of w' = file_of w ∧ unlinks w' = unlinks w.

Definition env_kept {A} (c : io A) : Prop := ∀ w, same_env w (c w).2.

(** The coming call of [remove] is not made to fail. *)
Definition remove_works (w : World) : Prop := head (unlinks w) ≠ Some true.

(** The entry the lister stores for the record at position [i]. *)
Definition entry_at (i : nat) (name : string) : ArchiveEntry :=
  mkEntry (Some name) ARCHIVE_ENTRY_FILE (Z.of_nat i).

(** The conditions under which an archive with content [data] loads: the
    header is there with the right magic bytes, and each of the three
    sections lies within the file at an offset [fseek] accepts. *)
Definition section_present (data : list byte) (off len : Z) : Prop :=
  0 ≤ to_long off ∧ Z.of_nat (length (section_bytes data off len)) = len.

Definition loadable (lib : SpriteShrink) (data : list byte) : Prop :=
  let h := archive_header lib data in
  (sizeof_FileHeader lib ≤ length data)%nat ∧
  magic_ok lib h = true ∧
  section_present data (man_offset h) (man_length h) ∧
  section_present data (chunk_index_offset h) (chunk_index_length h) ∧
  section_present data (dict_offset h) (dict_length h).

(** What the loader then holds, [file] being the archive. *)
Definition loaded (lib : SpriteShrink) (file : string) (data : list byte) : Sections :=
  let h := archive_header lib data in
  mkSections (mkFILE file (to_long (dict_offset h) + dict_length h)) h
    (manifest_bytes lib data)
    (section_bytes data (chunk_index_offset h) (chunk_index_length h))
    (section_bytes data (dict_offset h) (dict_length h)).

(** ** A small instance of the library, for concrete scenarios

    A twelve-byte header (four magic bytes, the digest width, then seven
    one-byte fields), table-driven chunk stores, and chunks that are kept
    uncompressed. *)

Module Toy.

Definition byte_at (raw : list byte) (i : nat) : Z :=
  Z.of_N (Byte.to_N (default "000"%byte (raw !! i))).

Definition header_of_bytes (raw : list byte) : FileHeader :=
  mkHeader (take 4 raw) (byte_at raw 4) (byte_at raw 5) (byte_at raw 6)
           (byte_at raw 7) (byte_at raw 8) (byte_at raw 9) (byte_at raw 10)
           (byte_at raw 11).

Definition MAGIC : list byte := ["S"; "S"; "M"; "C"]%byte.

Definition table_store {H : Type}
    (records : option (list (FFIFileManifestParent H)))
    (index : option (H → option FFIChunkLocation)) : ChunkStore H :=
  mkChunkStore H (H → option FFIChunkLocation)
    (λ _ _, records) (λ _ _, index) (λ handle digest, handle digest).

Definition stored (comp : list byte) (comp_len : Z) (dict : list byte)
    (dict_len out_len : Z) : option (list byte) :=
  if Z.of_nat (length comp) =? out_len then Some comp else None.

Definition lib (s64 : ChunkStore u64) (s128 : ChunkStore U128Bytes) : SpriteShrink :=
  mkSpriteShrink 12 MAGIC header_of_bytes s64 s128 stored.

Definition no_store {H : Type} : ChunkStore H := table_store None None.

(** One file ["a.txt"] of two chunks, of decompressed lengths 4 and 6. *)
Definition records : list (FFIFileManifestParent u64) :=
  [mkManifest "a.txt" [mkChunkMeta 1 4; mkChunkMeta 2 6]].

Definition index (digest : u64) : option FFIChunkLocation :=
  if digest =? 1 then Some (mkLocation 0 4)
  else if digest =? 2 then Some (mkLocation 4 6)
  else None.

(** An index that lacks the second chunk. *)
Definition index_without_second (digest : u64) : option FFIChunkLocation :=
  if digest =? 1 then Some (mkLocation 0 4) else None.

Definition payload : list byte := ["0"; "1"; "2"; "3"; "4"; "5"; "6"; "7"; "8"; "9"]%byte.

(** Header, one byte each of manifest, chunk index and dictionary, then
    the data section. *)
Definition archive (magic : list byte) (width : byte) : list byte :=
  magic ++ [width; "012"; "001"; "013"; "001"; "014"; "001"; "015"]%byte
        ++ ["m"; "i"; "d"]%byte ++ payload.

Definition good_lib : SpriteShrink :=
  lib (table_store (Some records) (Some index)) no_store.

(** Worlds in which every path names a file of its own and [remove]
    works. *)
Definition world (files : list (string * list byte)) (schedule : list outcome) : World :=
  mkWorld (list_to_map files) (λ path, path) schedule [].

(** The archive ["game.ssmc"] alone on disk, no fault scheduled. *)
Definition game : list byte := archive MAGIC "001"%byte.
Definition disk : World := world [("game.ssmc", game)] [].

(** The same with an earlier ["out/a.txt"] still in the target directory. *)
Definition stale : list byte := ["o"; "l"; "d"]%byte.
Definition disk_with_stale : World :=
  world [("game.ssmc", game); ("out/a.txt", stale)] [].

(** The same again, in an environment that makes [remove] fail. *)
Definition disk_no_unlink : World :=
  mkWorld (fs disk_with_stale) (file_of disk_with_stale) [] [true].

(** A naming of files in which ["./x"] names the file ["x"]. *)
Definition strip_dot (path : string) : string :=
  match path with
  | String "." (String "/" rest) => rest
  | _ => path
  end.

Definition lib_missing_chunk : SpriteShrink :=
  lib (table_store (Some records) (Some index_without_second)) no_store.
Definition lib_empty : SpriteShrink :=
  lib (table_store (Some []) (Some index)) no_store.
Definition many_records : list (FFIFileManifestParent u64) :=
  replicate (Z.to_nat 2147483648) (mkManifest "a.txt" []).
Definition lib_of (recs : list (FFIFileManifestParent u64)) : SpriteShrink :=
  lib (table_store (Some recs) (Some index)) no_store.

(** A library whose 128-bit decoder reads the same bytes as one file
    ["b.bin"] of a single chunk of ten bytes, and the archive with digest
    width 2. *)
Definition wide_digest : U128Bytes := ["w"; "i"; "d"; "e"]%byte.
Definition records128 : list (FFIFileManifestParent U128Bytes) :=
  [mkManifest "b.bin" [mkChunkMeta wide_digest 10]].
Definition index128 (digest : U128Bytes) : option FFIChunkLocation :=
  if decide (Byte.to_N <$> digest = Byte.to_N <$> wide_digest)
  then Some (mkLocation 0 10) else None.
Definition both_lib : SpriteShrink :=
  lib (table_store (Some records) (Some index))
      (table_store (Some records128) (Some index128)).
Definition wide_game : list byte := archive MAGIC "002"%byte.

(** Two handlers: the SSMC handler at address 1 and, registered after it,
    a handler at address 2 that accepts every name and lists four entries,
    one of them nested and one a directory. *)
Definition listed : list ArchiveEntry :=
  [mkEntry (Some "a.txt") ARCHIVE_ENTRY_FILE 0;
   mkEntry (Some "sub/b.txt") ARCHIVE_ENTRY_FILE 1;
   mkEntry (Some "docs") ARCHIVE_ENTRY_DIRECTORY 2;
   mkEntry (Some "c.txt") ARCHIVE_ENTRY_FILE 3].
Definition lister (path : string) (count_in : Z) (w : World)
    : (option (list ArchiveEntry) * Z) * World :=
  ((Some listed, 4), w).
Definition vt (p : ptr) : ArchiveVTable :=
  if N.eqb p 1 then arc_ssmc_vtable good_lib
  else mkVTable (λ _, true) (Some lister) None None None.
Definition two_handlers : Registry :=
  register_archive_handler 2 (register_archive_handler 1 registry_init).

End Toy.

(** ** Reference notions for the remaining entry points *)

(** Registration of a sequence of handlers, first to last. *)
Definition register_each (handlers : list ptr) (r : Registry) : Registry :=
  foldl (λ r h, register_archive_handler h r) r handlers.

(** The non-NULL handlers of a sequence that are not among [seen], each at
    its first occurrence. *)
Fixpoint first_occurrences (seen handlers : list ptr) : list ptr :=
  match handlers with
  | [] => []
  | h :: rest =>
      if decide (h = NULL ∨ h ∈ seen) then first_occurrences seen rest
      else h :: first_occurrences (seen ++ [h]) rest
  end.

(** The (extension, handler name) pairs one handler contributes. *)
Definition handler_info (vt : ptr → ArchiveVTable) (h : ptr) : list SupportedExtensionInfo :=
  if N.eqb h NULL then []
  else match get_handler_name (vt h), get_supported_extensions (vt h) with
       | Some name, Some exts => (λ e, mkInfo e name) <$> exts
       | _, _ => []
       end.

Definition all_supported_info (vt : ptr → ArchiveVTable) (handlers : list ptr)
    : list SupportedExtensionInfo :=
  concat (handler_info vt <$> handlers).

(** The names a listing shows: those without ['/']. *)
Definition flat_names (names : list string) : list string :=
  filter (λ n, occurs "/" n = false) names.

(** The bytes one chunk descriptor contributes to the output: the chunk is
    found in the index, lies within the archive, and decompresses; the
    output buffer has the declared length. *)
Definition chunk_payload {H : Type} (store : ChunkStore H)
    (decompress : list byte → Z → list byte → Z → Z → option (list byte))
    (data : list byte) (h : FileHeader) (handle : ChunkIndexHandle store)
    (dict : list byte) (meta : FFISSAChunkMeta H) : option (list byte) :=
  match lookup_chunk_location store handle (chunk_hash meta) with
  | None => None
  | Some loc =>
      if (0 <=? to_long (to_u64 (data_offset h + loc_offset loc)))
         && (Z.of_nat (length (chunk_bytes data h loc)) =? loc_length loc)
         && (0 <=? chunk_length meta)
      then
        match decompress (chunk_bytes data h loc) (loc_length loc) dict
                (dict_length h) (chunk_length meta) with
        | Some stored => Some (resize (Z.to_nat (chunk_length meta)) "000"%byte stored)
        | None => None
        end
      else None
  end.

(** The file a request designates in decoded sections, as name and
    content: the record is resolved and its chunks are concatenated in
    descriptor order. *)
Definition reconstruct {H : Type} (store : ChunkStore H)
    (decompress : list byte → Z → list byte → Z → Z → option (list byte))
    (data : list byte) (h : FileHeader) (man_buf idx_buf dict : list byte)
    (name : option string) (idx : Z) : option (string * list byte) :=
  match parse_file_metadata store man_buf (man_length h) with
  | None => None
  | Some p_manifest =>
      match prepare_chunk_index store idx_buf (chunk_index_length h) with
      | None => None
      | Some handle =>
          match resolve_target p_manifest name idx with
          | None => None
          | Some target =>
              match mapM (chunk_payload store decompress data h handle dict)
                      (chunk_metadata target) with
              | Some payloads => Some (filename target, concat payloads)
              | None => None
              end
          end
      end
  end.

(** The same for an archive with content [data]. *)
Definition archive_content (lib : SpriteShrink) (data : list byte)
    (name : option string) (idx : Z) : option (string * list byte) :=
  let h := archive_header lib data in
  let idx_buf := section_bytes data (chunk_index_offset h) (chunk_index_length h) in
  let dict := section_bytes data (dict_offset h) (dict_length h) in
  if hash_type h =? 1 then
    reconstruct (store_u64 lib) (decompress_chunk_c lib) data h
      (manifest_bytes lib data) idx_buf dict name idx
  else if hash_type h =? 2 then
    reconstruct (store_u128 lib) (decompress_chunk_c lib) data h
      (manifest_bytes lib data) idx_buf dict name idx
  else None.

(** The file name of the record a request resolves to in the decoded
    manifest of an archive. *)
Definition resolved_name (lib : SpriteShrink) (data : list byte)
    (name : option string) (idx : Z) : option string :=
  let h := archive_header lib data in
  if hash_type h =? 1 then
    match parse_file_metadata (store_u64 lib) (manifest_bytes lib data) (man_length h) with
    | Some m => filename <$> resolve_target m name idx
    | None => None
    end
  else if hash_type h =? 2 then
    match parse_file_metadata (store_u128 lib) (manifest_bytes lib data) (man_length h) with
    | Some m => filename <$> resolve_target m name idx
    | None => None
    end
  else None.

(** The first handler of a list that accepts [filename], NULL if none. *)
Fixpoint find_supported (vt : ptr → ArchiveVTable) (filename : string)
    (handlers : list ptr) : ptr :=
  match handlers with
  | [] => NULL
  | p :: rest =>
      if is_supported (vt p) filename then p else find_supported vt filename rest
  end.

(** The size a manifest record declares: the sum of the decompressed
    lengths of its chunk descriptors. *)
Definition declared_size {H : Type} (target : FFIFileManifestParent H) : Z :=
  foldr (λ meta total, chunk_length meta + total) 0 (chunk_metadata target).


(** What the lister delivers for an archive whose manifest is decoded
    through [store]: NULL with count 0 when the decoder fails or finds no
    record; otherwise one entry per record, and their number as [int]. *)
Definition listing_by {H : Type} (store : ChunkStore H) (lib : SpriteShrink)
    (data : list byte) : option (list ArchiveEntry) * Z :=
  match parse_file_metadata store (manifest_bytes lib data)
          (man_length (archive_header lib data)) with
  | Some (m :: rest) =>
      let count := to_int (Z.of_nat (length (m :: rest))) in
      (if count =? 0 then None else Some (entries_of (filename <$> m :: rest)), count)
  | _ => (None, 0)
  end.

(** The file a request designates in an archive whose sections are
    decoded through [store]. *)
Definition content_by {H : Type} (store : ChunkStore H) (lib : SpriteShrink)
    (data : list byte) (name : option string) (idx : Z) : option (string * list byte) :=
  let h := archive_header lib data in
  reconstruct store (decompress_chunk_c lib) data h (manifest_bytes lib data)
    (section_bytes data (chunk_index_offset h) (chunk_index_length h))
    (section_bytes data (dict_offset h) (dict_length h)) name idx.
(** * Properties *)

(** ** The C library model *)

Section CLibFacts.

Lemma sign_of_nonzero x y : sign_of x y ≠ 0.
Proof. unfold sign_of. destruct (x <? y); discriminate. Qed.

Lemma strcmp_eq a b : strcmp a b = 0 ↔ a = b.
Proof.
  revert b. induction a as [|x a IH]; intros [|y b]; simpl; try easy.
  destruct (Ascii.eqb_spec x y) as [->|Hne].
  - rewrite IH. split; [intros ->; reflexivity | intros [= ->]; reflexivity].
  - split; [intros E; destruct (sign_of_nonzero _ _ E) | intros [= ? ?]; contradiction].
Qed.

Lemma strcasecmp_eq a b : strcasecmp a b = 0 ↔ string_lower a = string_lower b.
Proof.
  revert b. induction a as [|x a IH]; intros [|y b]; simpl; try easy.
  destruct (Ascii.eqb_spec (tolower x) (tolower y)) as [E|Hne].
  - rewrite IH, E. split; [intros ->; reflexivity | intros [= ->]; reflexivity].
  - split; [intros E; destruct (sign_of_nonzero _ _ E) | intros [= ? ?]; contradiction].
Qed.

Lemma strchr_none s c : strchr s c = None ↔ occurs c s = false.
Proof.
  induction s as [|x s IH]; simpl; [easy|].
  destruct (Ascii.eqb x c); simpl; [easy|].
  destruct (strchr s c); [split; [discriminate | intros E; apply IH in E; discriminate] | tauto].
Qed.

Lemma strrchr_none s c : strrchr s c = None ↔ occurs c s = false.
Proof.
  induction s as [|x s IH]; simpl; [easy|].
  destruct (strrchr s c) as [off|].
  - split; [discriminate|]. intros E. apply orb_false_iff in E as [_ E].
    apply IH in E. discriminate.
  - destruct (Ascii.eqb x c); simpl; [easy|]. tauto.
Qed.

(** [strrchr] finds the decomposition of [s] around the last [c]. *)
Lemma strrchr_split s c off :
  strrchr s c = Some off →
  ∃ stem ext, s = stem +:+ String c ext ∧ occurs c ext = false
              ∧ off = String.length stem ∧ str_at s off = String c ext.
Proof.
  revert off. induction s as [|x s IH]; simpl; intros off; [discriminate|].
  destruct (strrchr s c) as [off'|] eqn:E.
  - intros [= <-]. destruct (IH off' eq_refl) as (stem & ext & -> & Hno & -> & Hat).
    exists (String x stem), ext. simpl. auto.
  - destruct (Ascii.eqb_spec x c) as [->|]; [|discriminate].
    intros [= <-]. exists EmptyString, s. simpl.
    split; [reflexivity|]. split; [by apply strrchr_none|]. auto.
Qed.

Lemma strrchr_unique stem ext c :
  occurs c ext = false → strrchr (stem +:+ String c ext) c = Some (String.length stem).
Proof.
  intros Hno. induction stem as [|x stem IH]; simpl.
  - apply strrchr_none in Hno. rewrite Hno, Ascii.eqb_refl. reflexivity.
  - rewrite IH. reflexivity.
Qed.

Lemma str_at_app stem s : str_at (stem +:+ s) (String.length stem) = s.
Proof. induction stem as [|x stem IH]; simpl; [by destruct s | exact IH]. Qed.

Lemma memcmp_eq (a b : list byte) :
  length a = length b → memcmp a b (length a) = 0 ↔ a = b.
Proof.
  revert b. induction a as [|x a IH]; intros [|y b]; simpl; try easy.
  intros [= Hlen]. destruct (Byte.eqb x y) eqn:E.
  - apply Byte.byte_dec_bl in E as ->. rewrite (IH b Hlen).
    split; [intros ->; reflexivity | intros [= ->]; reflexivity].
  - apply Byte.eqb_false in E.
    split; [intros E'; destruct (sign_of_nonzero _ _ E') | intros [= ? ?]; contradiction].
Qed.

Lemma to_int_small z : 0 ≤ z ≤ INT_MAX → to_int z = z.
Proof.
  unfold to_int, INT_MAX. intros Hz.
  rewrite Z.mod_small; lia.
Qed.

Lemma to_u64_small z : 0 ≤ z < 2 ^ 64 → to_u64 z = z.
Proof. unfold to_u64. intros Hz. by apply Z.mod_small. Qed.

End CLibFacts.

(** ** Extension matcher *)

Section ExtensionMatcher.

Lemma ext_listed_spec file_ext (extensions : list string) :
  ext_listed file_ext extensions = true ↔
  ∃ e, e ∈ extensions ∧ string_lower file_ext = string_lower e.
Proof.
  induction extensions as [|e rest IH]; simpl.
  - split; [discriminate | intros (e & He & _); by apply elem_of_nil in He].
  - destruct (strcasecmp file_ext e =? 0) eqn:E.
    + apply Z.eqb_eq, strcasecmp_eq in E. split; [|reflexivity].
      intros _. exists e. split; [left | exact E].
    + rewrite IH. apply Z.eqb_neq in E. rewrite strcasecmp_eq in E.
      split.
      * intros (e' & He' & Hl). exists e'. split; [by right | exact Hl].
      * intros (e' & He' & Hl). apply elem_of_cons in He' as [->|He']; [contradiction|].
        exists e'. auto.
Qed.

(** C8, as the code has it.  The matcher answers [true] exactly when the
    file name splits as [stem ++ "." ++ ext] with a non-empty [stem] and no
    ['.'] in [ext], and the suffix that starts at that last ['.'] (the dot
    included) equals some entry of the list up to case.  In particular the
    answer is [false] for a name without ['.'] and for a name whose last
    ['.'] is its first character. *)
Theorem is_ext_supported_spec (filename : string) (extensions : list string) :
  (archive_helper_is_ext_supported filename extensions = true ↔
   ∃ stem ext e,
     filename = stem +:+ String "." ext ∧ occurs "." ext = false ∧
     stem ≠ EmptyString ∧ e ∈ extensions ∧
     string_lower (String "." ext) = string_lower e) ∧
  (occurs "." filename = false →
   archive_helper_is_ext_supported filename extensions = false) ∧
  (∀ ext, filename = String "." ext → occurs "." ext = false →
   archive_helper_is_ext_supported filename extensions = false).
Proof.
  unfold archive_helper_is_ext_supported. split; [|split].
  - split.
    + destruct (strrchr filename ".") as [off|] eqn:E; [|discriminate].
      destruct (strrchr_split _ _ _ E) as (stem & ext & -> & Hno & -> & Hat).
      destruct stem as [|c stem]; [discriminate|]. simpl in Hat |- *.
      rewrite Hat. intros (e & He & Hl)%ext_listed_spec.
      exists (String c stem), ext, e. done.
    + intros (stem & ext & e & -> & Hno & Hstem & He & Hl).
      rewrite (strrchr_unique _ _ _ Hno).
      destruct stem as [|c stem]; [contradiction|]. simpl.
      rewrite str_at_app. apply ext_listed_spec. eauto.
  - intros Hno. apply strrchr_none in Hno. by rewrite Hno.
  - intros ext -> Hno.
    pose proof (strrchr_unique EmptyString ext "." Hno) as E. simpl in E.
    simpl. by rewrite E.
Qed.

(** C8, as worded, fails on the handler's own extension list: ["game.ssmc"]
    is accepted although the substring after its last ['.'] is ["ssmc"],
    which is no entry of [ssmc_extensions]. *)
Lemma is_ext_supported_not_as_worded :
  archive_helper_is_ext_supported "game.ssmc" ssmc_extensions = true ∧
  ¬ ext_match_as_worded "game.ssmc" ssmc_extensions.
Proof.
  split; [reflexivity|].
  intros (stem & ext & e & Hsplit & Hno & _ & He & Hl).
  pose proof (strrchr_unique stem ext "." Hno) as Hr. rewrite <- Hsplit in Hr.
  assert (strrchr "game.ssmc" "." = Some 4%nat) as E by reflexivity.
  rewrite E in Hr. injection Hr as Hlen.
  pose proof (str_at_app stem (String "." ext)) as Hat.
  rewrite <- Hsplit, <- Hlen in Hat. vm_compute in Hat. injection Hat as <-.
  apply list_elem_of_singleton in He as ->. vm_compute in Hl. discriminate.
Qed.

End ExtensionMatcher.

(** ** Handler registry *)

Section RegistryFacts.

Lemma handler_listed_spec slots handler i n :
  handler_listed slots handler i n = true ↔ handler ∈ take n (drop i slots).
Proof.
  revert i. induction n as [|n IH]; intros i; cbn [handler_listed].
  - rewrite take_0. split; [discriminate | by intros ?%elem_of_nil].
  - destruct (slots !! i) as [p|] eqn:E.
    + rewrite (drop_S _ _ _ E). rewrite firstn_cons, elem_of_cons.
      destruct (N.eqb_spec p handler) as [->|Hne]; [tauto|].
      rewrite IH. split; [tauto | intros [->|?]; [contradiction | done]].
    + apply lookup_ge_None in E. rewrite drop_ge by done. rewrite take_nil.
      split; [discriminate | by intros ?%elem_of_nil].
Qed.

(** What registration does to the sequence of registered handlers. *)
Lemma registered_register handler r :
  registry_wf r →
  registered (register_archive_handler handler r) =
    if decide (handler = NULL ∨ handler_count r = MAX_HANDLERS ∨ handler ∈ registered r)
    then registered r
    else registered r ++ [handler].
Proof.
  intros (Hlen & Hcnt & _ & _). unfold register_archive_handler.
  destruct (N.eqb_spec handler NULL) as [->|Hnn].
  { rewrite decide_True; [done | by left]. }
  destruct (Nat.leb_spec MAX_HANDLERS (handler_count r)) as [Hfull|Hroom].
  { rewrite decide_True; [done | right; left; lia]. }
  destruct (handler_listed _ _ _ _) eqn:E.
  - apply handler_listed_spec in E. rewrite drop_0 in E.
    rewrite decide_True; [done | by right; right].
  - rewrite decide_False.
    + unfold registered. simpl.
      rewrite (take_S_r _ _ handler).
      * by rewrite take_insert_ge.
      * apply list_lookup_insert_eq. lia.
    + intros [?|[?|Hin]]; [done | lia |].
      assert (handler_listed (archive_handlers r) handler 0 (handler_count r) = true) as E'.
      { apply handler_listed_spec. by rewrite drop_0. }
      congruence.
Qed.

Lemma register_noop handler r :
  handler = NULL ∨ (MAX_HANDLERS ≤ handler_count r)%nat ∨
  handler_listed (archive_handlers r) handler 0 (handler_count r) = true →
  register_archive_handler handler r = r.
Proof.
  unfold register_archive_handler. intros [->|[Hfull|Hl]]; [done | |].
  - destruct (N.eqb handler NULL); [done|].
    by destruct (Nat.leb_spec MAX_HANDLERS (handler_count r)); [|lia].
  - destruct (N.eqb handler NULL); [done|].
    destruct (MAX_HANDLERS <=? handler_count r)%nat; [done|]. by rewrite Hl.
Qed.

Lemma register_fresh handler r :
  handler ≠ NULL → (handler_count r < MAX_HANDLERS)%nat →
  handler_listed (archive_handlers r) handler 0 (handler_count r) = false →
  register_archive_handler handler r =
    mkRegistry (<[handler_count r := handler]> (archive_handlers r)) (S (handler_count r)).
Proof.
  unfold register_archive_handler. intros Hh Hroom Hl.
  destruct (N.eqb_spec handler NULL); [done|].
  destruct (Nat.leb_spec MAX_HANDLERS (handler_count r)); [lia|]. by rewrite Hl.
Qed.

Lemma registry_init_wf : registry_wf registry_init.
Proof.
  unfold registry_wf, registered. cbn [registry_init handler_count archive_handlers].
  rewrite take_0, length_replicate.
  split; [reflexivity|]. split; [unfold MAX_HANDLERS; lia|].
  split; [constructor | by intros ?%elem_of_nil].
Qed.

Lemma register_wf handler r :
  registry_wf r → registry_wf (register_archive_handler handler r).
Proof.
  intros Hwf. pose proof (registered_register handler r Hwf) as Hreg.
  destruct Hwf as (Hlen & Hcnt & Hnd & Hnn).
  unfold registry_wf. rewrite Hreg. clear Hreg.
  unfold register_archive_handler.
  destruct (N.eqb_spec handler NULL) as [->|Hh].
  { rewrite decide_True by (by left). done. }
  destruct (Nat.leb_spec MAX_HANDLERS (handler_count r)) as [Hfull|Hroom].
  { rewrite decide_True by (right; left; lia). done. }
  destruct (handler_listed _ _ _ _) eqn:E.
  - apply handler_listed_spec in E. rewrite drop_0 in E.
    rewrite decide_True by (by right; right). done.
  - assert (handler ∉ registered r) as Hfresh.
    { intros Hin. assert (handler_listed (archive_handlers r) handler 0 (handler_count r) = true) as E'.
      { apply handler_listed_spec. by rewrite drop_0. }
      congruence. }
    rewrite decide_False by (intros [?|[?|?]]; [done | lia | done]).
    simpl. rewrite length_insert.
    split; [done|]. split; [lia|]. split.
    + apply NoDup_app. split; [done|]. split; [|apply NoDup_singleton].
      intros x Hx ->%list_elem_of_singleton. done.
    + rewrite elem_of_app, list_elem_of_singleton. intros [?|?]; [done|].
      by apply Hh.
Qed.

Lemma first_supported_first vt slots filename i n k p :
  take n (drop i slots) !! k = Some p →
  is_supported (vt p) filename = true →
  (∀ j q, (j < k)%nat → take n (drop i slots) !! j = Some q →
          is_supported (vt q) filename = false) →
  first_supported vt slots filename i n = p.
Proof.
  revert i k. induction n as [|n IH]; intros i k; cbn [first_supported].
  - rewrite take_0. by rewrite lookup_nil.
  - destruct (slots !! i) as [q|] eqn:E.
    + rewrite (drop_S _ _ _ E). rewrite firstn_cons. destruct k as [|k]; simpl.
      * intros [= ->] Hp _. by rewrite Hp.
      * intros Hk Hp Hbefore.
        rewrite (Hbefore 0%nat q) by (lia || done).
        apply (IH (S i) k); [done | done |].
        intros j q' Hj Hq'. apply (Hbefore (S j)); [lia | done].
    + apply lookup_ge_None in E. rewrite drop_ge by done. by rewrite take_nil, lookup_nil.
Qed.

Lemma first_supported_none vt slots filename i n :
  (∀ p, p ∈ take n (drop i slots) → is_supported (vt p) filename = false) →
  first_supported vt slots filename i n = NULL.
Proof.
  revert i. induction n as [|n IH]; intros i; cbn [first_supported]; [done|].
  destruct (slots !! i) as [q|] eqn:E; [|done].
  rewrite (drop_S _ _ _ E). rewrite firstn_cons. intros Hall.
  rewrite (Hall q) by left. apply IH. intros p Hp. apply Hall. by right.
Qed.

(** C7.  In a registry that satisfies its invariant: registering a handler
    a second time changes nothing, and a non-NULL handler that was present
    or for which there was room is then listed exactly once (from the empty
    registry the result is the one-entry list); a NULL handler and a
    registration into a full registry leave the registry as it was; lookup
    returns the first registered handler, in registration order, whose
    predicate accepts the name, whatever later handlers answer, and NULL
    for a NULL name or when no registered handler accepts. *)
Theorem registry_idempotent_first_match (vt : ptr → ArchiveVTable)
    (r : Registry) (handler : ptr) :
  registry_wf r →
  register_archive_handler handler (register_archive_handler handler r) =
    register_archive_handler handler r ∧
  (handler ≠ NULL →
   (handler_count r < MAX_HANDLERS)%nat ∨ handler ∈ registered r →
   ∃ earlier later,
     registered (register_archive_handler handler (register_archive_handler handler r)) =
       (earlier ++ handler :: later) ∧ (handler ∉ earlier) ∧ (handler ∉ later)) ∧
  (handler ≠ NULL →
   registered (register_archive_handler handler
                 (register_archive_handler handler registry_init)) = [handler]) ∧
  register_archive_handler NULL r = r ∧
  (handler_count r = MAX_HANDLERS → register_archive_handler handler r = r) ∧
  (∀ filename k p,
     registered r !! k = Some p →
     is_supported (vt p) filename = true →
     (∀ j q, (j < k)%nat → registered r !! j = Some q →
             is_supported (vt q) filename = false) →
     get_handler_for_file vt r (Some filename) = p) ∧
  get_handler_for_file vt r None = NULL ∧
  (∀ filename,
     (∀ p, p ∈ registered r → is_supported (vt p) filename = false) →
     get_handler_for_file vt r (Some filename) = NULL).
Proof.
  intros Hwf.
  assert (∀ r0, registry_wf r0 →
            register_archive_handler handler (register_archive_handler handler r0) =
            register_archive_handler handler r0) as Hidem.
  { intros r0 (Hlen & Hcnt & _ & _).
    destruct (decide (handler = NULL ∨ (MAX_HANDLERS ≤ handler_count r0)%nat ∨
                      handler_listed (archive_handlers r0) handler 0 (handler_count r0) = true))
      as [Hnoop|Hfresh].
    { by rewrite !(register_noop _ _ Hnoop). }
    assert (handler ≠ NULL ∧ (handler_count r0 < MAX_HANDLERS)%nat ∧
            handler_listed (archive_handlers r0) handler 0 (handler_count r0) = false)
      as (Hh & Hroom & Hnl).
    { split; [tauto|]. split; [lia|]. destruct (handler_listed _ _ _ _); tauto. }
    rewrite (register_fresh _ _ Hh Hroom Hnl). apply register_noop.
    right; right. apply handler_listed_spec. rewrite drop_0. simpl.
    rewrite (take_S_r _ _ handler) by (apply list_lookup_insert_eq; lia).
    rewrite elem_of_app, list_elem_of_singleton. by right. }
  split; [by apply Hidem|].
  split.
  { intros Hh Hroom. rewrite (Hidem r Hwf).
    pose proof (register_wf handler r Hwf) as (_ & _ & Hnd' & _).
    assert (handler ∈ registered (register_archive_handler handler r)) as Hin.
    { rewrite (registered_register handler r Hwf). destruct Hwf as (_ & Hcnt & _ & _).
      case_decide as Hc.
      - destruct Hc as [?|[?|?]]; [done | | done].
        destruct Hroom; [lia | done].
      - rewrite elem_of_app, list_elem_of_singleton. by right. }
    apply list_elem_of_split in Hin as (before & after & Heq).
    exists before, after. split; [done|]. rewrite Heq in Hnd'.
    apply NoDup_app in Hnd' as (_ & Hdisj & Hnd2).
    apply NoDup_cons in Hnd2 as (Hafter & _).
    split; [|done]. intros Hb. apply (Hdisj _ Hb). by left. }
  split.
  { intros Hh. rewrite (Hidem _ registry_init_wf).
    rewrite (registered_register _ _ registry_init_wf).
    rewrite decide_False; [done|].
    intros [?|[E|Hin]]; [done | discriminate E |].
    unfold registered in Hin. simpl in Hin. by apply elem_of_nil in Hin. }
  split; [done|].
  split.
  { intros Hfull. unfold register_archive_handler.
    destruct (N.eqb handler NULL); [done|].
    destruct (Nat.leb_spec MAX_HANDLERS (handler_count r)); [done | lia]. }
  split.
  { intros filename k p Hk Hp Hbefore. simpl.
    apply (first_supported_first _ _ _ _ _ k); rewrite ?drop_0; done. }
  split; [done|].
  intros filename Hall. simpl. apply first_supported_none. by rewrite drop_0.
Qed.

End RegistryFacts.

(** ** The world and the stream operations *)

Section WorldFacts.

Lemma next_outcome_fs w : fs (next_outcome w).2 = fs w.
Proof. unfold next_outcome. by destruct (faults w). Qed.

Lemma next_outcome_env w : same_env w (next_outcome w).2.
Proof. unfold next_outcome, same_env. by destruct (faults w). Qed.

Lemma next_outcome_quiet w : faults w = [] → next_outcome w = (Pass, w).
Proof. unfold next_outcome. by intros ->. Qed.

Lemma next_ok_fs w : fs (next_ok w).2 = fs w.
Proof.
  unfold next_ok. pose proof (next_outcome_fs w) as E.
  by destruct (next_outcome w).
Qed.

Lemma next_ok_env w : same_env w (next_ok w).2.
Proof.
  unfold next_ok. pose proof (next_outcome_env w) as E.
  by destruct (next_outcome w).
Qed.

Lemma next_ok_file_of w : file_of (next_ok w).2 = file_of w.
Proof. apply next_ok_env. Qed.

Lemma next_ok_quiet w : faults w = [] → next_ok w = (true, w).
Proof. intros Q. unfold next_ok. by rewrite next_outcome_quiet. Qed.

Lemma same_env_trans w1 w2 w3 : same_env w1 w2 → same_env w2 w3 → same_env w1 w3.
Proof. intros [? ?] [? ?]. split; congruence. Qed.

Lemma env_kept_ret {A} (a : A) : env_kept (io_ret a).
Proof. done. Qed.

Lemma env_kept_fail {A} : env_kept (@io_fail A).
Proof. done. Qed.

Lemma env_kept_bind {A B} (c : io A) (k : A → io B) :
  env_kept c → (∀ a, env_kept (k a)) → env_kept (io_bind c k).
Proof.
  intros Hc Hk w. unfold io_bind. specialize (Hc w).
  destruct (c w) as [[a|] w1]; simpl in *; [|done].
  apply same_env_trans with w1; [done | apply Hk].
Qed.

Lemma env_kept_alloc : env_kept alloc.
Proof.
  intros w. unfold alloc. pose proof (next_ok_env w) as E.
  destruct (next_ok w) as [[] w1]; done.
Qed.

Lemma env_kept_fopen_rb path : env_kept (fopen_rb path).
Proof.
  intros w. unfold fopen_rb. pose proof (next_ok_env w) as E.
  destruct (next_ok w) as [ok w1]. simpl in E.
  destruct (fs w1 !! file_of w1 path); [destruct ok|]; done.
Qed.

Lemma env_kept_fopen_wb path : env_kept (fopen_wb path).
Proof.
  intros w. unfold fopen_wb. pose proof (next_ok_env w) as E.
  destruct (next_ok w) as [[] w1]; done.
Qed.

Lemma env_kept_fseek f off : env_kept (fseek f off).
Proof.
  intros w. unfold fseek. pose proof (next_ok_env w) as E.
  destruct (next_ok w) as [ok w1]. by destruct (ok && (0 <=? off)).
Qed.

Lemma env_kept_fread_exact f n : env_kept (fread_exact f n).
Proof.
  intros w. unfold fread_exact, fread. pose proof (next_ok_env w) as E.
  destruct (next_ok w) as [ok w1]. simpl in *.
  by destruct (_ =? n).
Qed.

Lemma fwrite_env buf f w : same_env w (fwrite buf f w).2.
Proof.
  unfold fwrite. pose proof (next_outcome_env w) as E.
  by destruct (next_outcome w) as [o w1].
Qed.

Lemma fclose_env f w : same_env w (fclose f w).
Proof.
  unfold fclose. pose proof (next_outcome_env w) as E.
  by destruct (next_outcome w) as [[|k] w1].
Qed.

Lemma remove_file_of path w : file_of (remove path w) = file_of w.
Proof. unfold remove. by destruct (unlinks w) as [|[] rest]. Qed.

Lemma read_only_ret {A} (a : A) : read_only (io_ret a).
Proof. done. Qed.

Lemma read_only_fail {A} : read_only (@io_fail A).
Proof. done. Qed.

Lemma read_only_bind {A B} (c : io A) (k : A → io B) :
  read_only c → (∀ a, read_only (k a)) → read_only (io_bind c k).
Proof.
  intros Hc Hk w. unfold io_bind. specialize (Hc w).
  destruct (c w) as [[a|] w1]; simpl in *; [|done].
  by rewrite Hk.
Qed.

Lemma read_only_alloc : read_only alloc.
Proof.
  intros w. unfold alloc. pose proof (next_ok_fs w) as E.
  destruct (next_ok w) as [[] w1]; done.
Qed.

Lemma read_only_fopen_rb path : read_only (fopen_rb path).
Proof.
  intros w. unfold fopen_rb. pose proof (next_ok_fs w) as E.
  destruct (next_ok w) as [ok w1]. simpl in E.
  destruct (fs w1 !! file_of w1 path); [destruct ok|]; done.
Qed.

Lemma read_only_fseek f off : read_only (fseek f off).
Proof.
  intros w. unfold fseek. pose proof (next_ok_fs w) as E.
  destruct (next_ok w) as [ok w1]. by destruct (ok && (0 <=? off)).
Qed.

Lemma read_only_fread_exact f n : read_only (fread_exact f n).
Proof.
  intros w. unfold fread_exact, fread. pose proof (next_ok_fs w) as E.
  destruct (next_ok w) as [ok w1]. simpl in *.
  by destruct (_ =? n).
Qed.

Lemma io_bind_Some {A B} (c : io A) (k : A → io B) w b w' :
  io_bind c k w = (Some b, w') →
  ∃ a w1, c w = (Some a, w1) ∧ k a w1 = (Some b, w').
Proof.
  unfold io_bind. destruct (c w) as [[a|] w1]; [eauto | discriminate].
Qed.

Lemma alloc_Some w u w' : alloc w = (Some u, w') → fs w' = fs w.
Proof. intros E. pose proof (read_only_alloc w) as R. by rewrite E in R. Qed.

Lemma fopen_rb_Some path w f w' :
  fopen_rb path w = (Some f, w') →
  f = mkFILE (file_of w path) 0 ∧ is_Some (fs w !! file_of w path) ∧ fs w' = fs w.
Proof.
  unfold fopen_rb. pose proof (next_ok_fs w) as E. pose proof (next_ok_file_of w) as N.
  destruct (next_ok w) as [ok w1]. simpl in E, N. rewrite E, N.
  destruct (fs w !! file_of w path) eqn:L; [|discriminate].
  destruct ok; [|discriminate]. intros [= <- <-]. eauto.
Qed.

Lemma fseek_Some f off w f' w' :
  fseek f off w = (Some f', w') →
  f' = mkFILE (f_file f) off ∧ fs w' = fs w.
Proof.
  unfold fseek. pose proof (next_ok_fs w) as E.
  destruct (next_ok w) as [ok w1]. simpl in E.
  destruct (ok && (0 <=? off)); [|discriminate]. by intros [= <- <-].
Qed.

Lemma read_at_zero data pos : read_at data pos 0 = [].
Proof. unfold read_at. by rewrite take_0. Qed.

(** A read that passes the callers' length test delivered the bytes of the
    file at the stream position. *)
Lemma fread_exact_Some f n w got f' w' :
  fread_exact f n w = (Some (got, f'), w') →
  got = read_at (default [] (fs w !! f_file f)) (f_pos f) n ∧
  f_file f' = f_file f ∧ fs w' = fs w.
Proof.
  unfold fread_exact, fread. pose proof (next_ok_fs w) as E.
  destruct (next_ok w) as [ok w1]. simpl in E. rewrite E.
  destruct (_ =? n) eqn:Hn; [|discriminate]. intros [= <- <- <-].
  split; [|done]. destruct ok; [done|].
  change (Z.of_nat (length (@nil byte))) with 0 in Hn.
  apply Z.eqb_eq in Hn as <-. by rewrite read_at_zero.
Qed.

(** Without faults the operations succeed and leave the world alone. *)
Lemma alloc_quiet w : faults w = [] → alloc w = (Some tt, w).
Proof. intros Q. unfold alloc. by rewrite next_ok_quiet. Qed.

Lemma fopen_rb_quiet path w data :
  faults w = [] → fs w !! file_of w path = Some data →
  fopen_rb path w = (Some (mkFILE (file_of w path) 0), w).
Proof. intros Q L. unfold fopen_rb. rewrite next_ok_quiet by done. by rewrite L. Qed.

Lemma idle_ret {A} (a : A) : idle (io_ret a).
Proof. done. Qed.

Lemma idle_fail {A} : idle (@io_fail A).
Proof. done. Qed.

Lemma idle_bind {A B} (c : io A) (k : A → io B) :
  idle c → (∀ a, idle (k a)) → idle (io_bind c k).
Proof.
  intros Hc Hk w Q. unfold io_bind. specialize (Hc w Q).
  destruct (c w) as [[a|] w1]; simpl in *; [|done].
  subst w1. by apply Hk.
Qed.

Lemma idle_alloc : idle alloc.
Proof. intros w Q. by rewrite alloc_quiet. Qed.

Lemma idle_fopen_rb path : idle (fopen_rb path).
Proof.
  intros w Q. unfold fopen_rb. rewrite next_ok_quiet by done.
  by destruct (fs w !! file_of w path).
Qed.

Lemma idle_fseek f off : idle (fseek f off).
Proof.
  intros w Q. unfold fseek. rewrite next_ok_quiet by done.
  by destruct (true && (0 <=? off)).
Qed.

Lemma idle_fread_exact f n : idle (fread_exact f n).
Proof.
  intros w Q. unfold fread_exact, fread. rewrite next_ok_quiet by done.
  by destruct (_ =? n).
Qed.

Lemma fclose_quiet f w : faults w = [] → fclose f w = w.
Proof. intros Q. unfold fclose. by rewrite next_outcome_quiet. Qed.

(** Closing the output stream changes no other file, and leaves in the
    file a prefix of what was written. *)
Lemma fclose_other f w q : q ≠ f_file f → fs (fclose f w) !! q = fs w !! q.
Proof.
  intros Hq. unfold fclose. pose proof (next_outcome_fs w) as E.
  destruct (next_outcome w) as [[|k] w1]; simpl in *; [by rewrite E|].
  rewrite lookup_alter_ne by done. by rewrite E.
Qed.

Lemma fclose_prefix f w content :
  fs w !! f_file f = Some content →
  ∃ kept, fs (fclose f w) !! f_file f = Some kept ∧ kept `prefix_of` content.
Proof.
  intros L. unfold fclose. pose proof (next_outcome_fs w) as E.
  destruct (next_outcome w) as [[|k] w1]; simpl in *.
  - exists content. by rewrite E.
  - exists (take k content). rewrite lookup_alter_eq, E, L. split; [done|].
    apply prefix_take.
Qed.

(** [remove] changes no other file; when it works, the file is gone. *)
Lemma remove_other path w q :
  q ≠ file_of w path → fs (remove path w) !! q = fs w !! q.
Proof.
  intros Hq. unfold remove.
  destruct (unlinks w) as [|[] rest]; simpl; [|done|]; by rewrite lookup_delete_ne.
Qed.

Lemma remove_gone path w file :
  file = file_of w path → remove_works w → fs (remove path w) !! file = None.
Proof.
  intros ->. unfold remove, remove_works.
  destruct (unlinks w) as [|[] rest]; simpl; intros Hw; [|done|]; apply lookup_delete_eq.
Qed.


Lemma fseek_quiet f off w :
  faults w = [] → 0 ≤ off → fseek f off w = (Some (mkFILE (f_file f) off), w).
Proof.
  intros Q Hoff. unfold fseek. rewrite next_ok_quiet by done.
  by destruct (Z.leb_spec 0 off); [|lia].
Qed.

Lemma fread_exact_quiet f n w data :
  faults w = [] → fs w !! f_file f = Some data →
  Z.of_nat (length (read_at data (f_pos f) n)) = n →
  fread_exact f n w =
    (Some (read_at data (f_pos f) n, mkFILE (f_file f) (f_pos f + n)), w).
Proof.
  intros Q L Hn. unfold fread_exact, fread. rewrite next_ok_quiet by done.
  rewrite L. simpl. rewrite Hn, Z.eqb_refl. done.
Qed.

End WorldFacts.

(** Symbolic execution of a successful run: split the binds of a hypothesis
    [H : c w = (Some _, _)] one library call at a time. *)
Tactic Notation "io_step" hyp(H) "as" simple_intropattern(a) ident(w) ident(E) :=
  apply io_bind_Some in H as (a & w & E & H).

Ltac env_kept_tac :=
  repeat first
    [ apply env_kept_ret
    | apply env_kept_fail
    | apply env_kept_alloc
    | apply env_kept_fopen_rb
    | apply env_kept_fseek
    | apply env_kept_fread_exact
    | apply env_kept_bind; [|intros ?]
    | match goal with
      | |- env_kept (match ?x with _ => _ end) => destruct x
      | |- env_kept (let _ := _ in _) => cbv zeta
      end ].

Ltac idle_tac :=
  repeat first
    [ apply idle_ret
    | apply idle_fail
    | apply idle_alloc
    | apply idle_fopen_rb
    | apply idle_fseek
    | apply idle_fread_exact
    | apply idle_bind; [|intros ?]
    | match goal with
      | |- idle (match ?x with _ => _ end) => destruct x
      | |- idle (let _ := _ in _) => cbv zeta
      end ].

Ltac read_only_tac :=
  repeat first
    [ apply read_only_ret
    | apply read_only_fail
    | apply read_only_alloc
    | apply read_only_fopen_rb
    | apply read_only_fseek
    | apply read_only_fread_exact
    | apply read_only_bind; [|intros ?]
    | match goal with
      | |- read_only (match ?x with _ => _ end) => destruct x
      | |- read_only (let _ := _ in _) => cbv zeta
      end ].

(** ** Section loader *)

Section Loader.

Context (lib : SpriteShrink).

Lemma load_sections_read_only path : read_only (load_sections lib path).
Proof. unfold load_sections. read_only_tac. Qed.

Lemma load_sections_env path : env_kept (load_sections lib path).
Proof. unfold load_sections. env_kept_tac. Qed.

Lemma load_sections_idle path : idle (load_sections lib path).
Proof. unfold load_sections. idle_tac. Qed.

(** What a successful load has in hand, in terms of the archive's bytes. *)
Lemma load_sections_Some path w s w' :
  load_sections lib path w = (Some s, w') →
  ∃ data,
    fs w !! file_of w path = Some data ∧ fs w' = fs w ∧
    f_file (s_file s) = file_of w path ∧
    s_header s = archive_header lib data ∧
    magic_ok lib (s_header s) = true ∧
    s_manifest s = manifest_bytes lib data ∧
    s_chunk_index s =
      section_bytes data (chunk_index_offset (s_header s)) (chunk_index_length (s_header s)) ∧
    s_dictionary s =
      section_bytes data (dict_offset (s_header s)) (dict_length (s_header s)).
Proof.
  unfold load_sections. intros H.
  io_step H as f0 w0 E0. apply fopen_rb_Some in E0 as (-> & [data L] & F0).
  io_step H as [raw f1] w1 E1.
  apply fread_exact_Some in E1 as (Hraw & P1 & F1). simpl in Hraw, P1.
  cbv zeta in H. destruct (magic_ok lib (header_of_bytes lib raw)) eqn:M; [|discriminate].
  io_step H as u2 w2 E2. apply alloc_Some in E2 as F2.
  io_step H as f3 w3 E3. apply fseek_Some in E3 as (-> & F3).
  io_step H as [manifest_buf f4] w4 E4.
  apply fread_exact_Some in E4 as (Hman & P4 & F4). simpl in Hman, P4.
  io_step H as u5 w5 E5. apply alloc_Some in E5 as F5.
  io_step H as f6 w6 E6. apply fseek_Some in E6 as (-> & F6).
  io_step H as [chunk_index_buf f7] w7 E7.
  apply fread_exact_Some in E7 as (Hidx & P7 & F7). simpl in Hidx, P7.
  io_step H as u8 w8 E8. apply alloc_Some in E8 as F8.
  io_step H as f9 w9 E9. apply fseek_Some in E9 as (-> & F9).
  io_step H as [dictionary_buf f10] w10 E10.
  apply fread_exact_Some in E10 as (Hdict & P10 & F10). simpl in Hdict, P10.
  injection H as <- <-. simpl.
  assert (fs w3 = fs w) as G3 by congruence.
  assert (fs w6 = fs w) as G6 by congruence.
  assert (fs w9 = fs w) as G9 by congruence.
  rewrite F0, L in Hraw. rewrite G3, P1, L in Hman.
  rewrite G6, P4, P1, L in Hidx. rewrite G9, P7, P4, P1, L in Hdict.
  simpl in Hraw, Hman, Hidx, Hdict.
  exists data. unfold manifest_bytes, archive_header, section_bytes.
  rewrite <- Hraw. repeat split; try done; congruence.
Qed.

Lemma header_read data :
  (sizeof_FileHeader lib ≤ length data)%nat →
  Z.of_nat (length (read_at data 0 (Z.of_nat (sizeof_FileHeader lib)))) =
    Z.of_nat (sizeof_FileHeader lib).
Proof.
  intros Hlen. unfold read_at. rewrite Nat2Z.id. change (Z.to_nat 0) with 0%nat.
  rewrite drop_0, length_take. lia.
Qed.

Lemma load_sections_quiet path w data :
  faults w = [] → fs w !! file_of w path = Some data → loadable lib data →
  load_sections lib path w = (Some (loaded lib (file_of w path) data), w).
Proof.
  intros Q L (Hsz & M & (Hm0 & Hm) & (Hi0 & Hi) & (Hd0 & Hd)).
  unfold load_sections, io_bind.
  rewrite (fopen_rb_quiet _ _ _ Q L).
  rewrite (fread_exact_quiet (mkFILE (file_of w path) 0) _ _ data Q L) by (by apply header_read).
  cbv zeta. cbn [f_file f_pos]. fold (archive_header lib data). rewrite M.
  rewrite (alloc_quiet _ Q).
  rewrite (fseek_quiet _ _ _ Q Hm0). cbn [f_file f_pos].
  rewrite (fread_exact_quiet (mkFILE (file_of w path) _) _ _ data Q L) by exact Hm.
  rewrite (alloc_quiet _ Q).
  rewrite (fseek_quiet _ _ _ Q Hi0). cbn [f_file f_pos].
  rewrite (fread_exact_quiet (mkFILE (file_of w path) _) _ _ data Q L) by exact Hi.
  rewrite (alloc_quiet _ Q).
  rewrite (fseek_quiet _ _ _ Q Hd0). cbn [f_file f_pos].
  rewrite (fread_exact_quiet (mkFILE (file_of w path) _) _ _ data Q L) by exact Hd.
  reflexivity.
Qed.

End Loader.

(** ** The SSMC lister *)

Section Lister.

Context (lib : SpriteShrink).

(** The filling loop, started at index [i] on an array whose first [i]
    entries [filled] are set and whose other [n] are still zero: it leaves
    the files alone, and it either jumps to cleanup or completes the array
    with the entries of the remaining names; without faults it completes. *)
Lemma fill_item_list_spec (names : list string) (src : nat → option string) n :
  (∀ k, src k = names !! k) →
  ∀ i filled w r w',
    length filled = i → (i + n)%nat = length names →
    fill_item_list src i n (filled ++ replicate n zero_entry) w = (r, w') →
    let full := filled ++ imap (λ k, entry_at (i + k)) (drop i names) in
    fs w' = fs w ∧ (r = None ∨ r = Some full) ∧
    (faults w = [] → r = Some full ∧ w' = w).
Proof.
  intros Hsrc. induction n as [|n IH]; intros i filled w r w' Hi Hn; cbn [fill_item_list replicate].
  - intros [= <- <-]. rewrite drop_ge by lia. simpl. auto.
  - rewrite Hsrc. destruct (names !! i) as [name|] eqn:L.
    2:{ apply lookup_ge_None in L. lia. }
    unfold io_bind. destruct (alloc w) as [[u|] w1] eqn:A.
    + rewrite insert_app_r_alt by lia. rewrite Hi, Nat.sub_diag.
      change (<[0%nat:=?e]> (zero_entry :: ?l)) with (e :: l).
      change (mkEntry (Some name) ARCHIVE_ENTRY_FILE (Z.of_nat i)) with (entry_at i name).
      rewrite (cons_middle _ filled), app_assoc.
      intros Hrun. apply IH in Hrun; [|rewrite length_app; simpl; lia | lia].
      rewrite (drop_S _ _ _ L), imap_cons. cbn zeta in Hrun |- *.
      assert ((filled ++ [entry_at i name]) ++
                imap (λ k, entry_at (S i + k)) (drop (S i) names) =
              filled ++ entry_at (i + 0) name ::
                imap ((λ k, entry_at (i + k)) ∘ S) (drop (S i) names)) as Hfull.
      { rewrite <- app_assoc, Nat.add_0_r. simpl. do 2 f_equal.
        apply imap_ext. intros k x _. simpl. f_equal. lia. }
      rewrite Hfull in Hrun. destruct Hrun as (F & R & Qt).
      apply alloc_Some in A as FA. split; [congruence|]. split; [done|].
      intros Q. rewrite (alloc_quiet _ Q) in A. simplify_eq.
      destruct (Qt Q) as [-> ->]. done.
    + intros [= <- <-]. pose proof (read_only_alloc w) as F. rewrite A in F.
      split; [done|]. split; [by left|].
      intros Q. rewrite (alloc_quiet _ Q) in A. discriminate.
Qed.

Lemma entries_of_lookup (names : list string) i name :
  names !! i = Some name → entries_of names !! i = Some (entry_at i name).
Proof. intros L. unfold entries_of. by rewrite list_lookup_imap, L. Qed.

Lemma length_entries_of (names : list string) : length (entries_of names) = length names.
Proof. unfold entries_of. by rewrite length_imap. Qed.

(** The names the filling loop reads are those of the decoded manifest. *)
Lemma source_names {H} (m : list (FFIFileManifestParent H)) k :
  filename <$> (m !! k) = (filename <$> m) !! k.
Proof. by rewrite list_lookup_fmap. Qed.

(** The loop's run on the zeroed array, for the names [names]. *)
Lemma fill_from_zero (names : list string) (src : nat → option string) w r w' :
  (∀ k, src k = names !! k) →
  fill_item_list src 0 (length names) (replicate (length names) zero_entry) w = (r, w') →
  fs w' = fs w ∧ (r = None ∨ r = Some (entries_of names)) ∧
  (faults w = [] → r = Some (entries_of names) ∧ w' = w).
Proof.
  intros Hsrc Hrun.
  apply (fill_item_list_spec names src (length names) Hsrc 0%nat [] w r w') in Hrun; done.
Qed.

Lemma read_only_fill src n : ∀ i item_list, read_only (fill_item_list src i n item_list).
Proof.
  induction n as [|n IH]; intros i item_list; cbn [fill_item_list].
  - apply read_only_ret.
  - destruct (src i); [|apply read_only_fail].
    apply read_only_bind; [apply read_only_alloc | intros _; apply IH].
Qed.

Lemma ssmc_list_body_read_only path : read_only (ssmc_list_body lib path).
Proof. unfold ssmc_list_body. read_only_tac. apply read_only_fill. Qed.

Lemma idle_fill src n : ∀ i item_list, idle (fill_item_list src i n item_list).
Proof.
  induction n as [|n IH]; intros i item_list; cbn [fill_item_list].
  - apply idle_ret.
  - destruct (src i); [|apply idle_fail].
    apply idle_bind; [apply idle_alloc | intros _; apply IH].
Qed.

Lemma ssmc_list_body_idle path : idle (ssmc_list_body lib path).
Proof. unfold ssmc_list_body. idle_tac. apply idle_fill. Qed.

(** A completed run of the lister's body decoded the manifest of the
    archive with the decoder its digest width selects, found it non-empty,
    and filled one entry per record. *)
Lemma ssmc_list_body_Some path w item_list manifest_len w' :
  ssmc_list_body lib path w = (Some (item_list, manifest_len), w') →
  ∃ data names,
    fs w !! file_of w path = Some data ∧
    magic_ok lib (archive_header lib data) = true ∧
    manifest_names lib data = Some names ∧
    manifest_len = length names ∧ manifest_len ≠ 0%nat ∧
    item_list = entries_of names.
Proof.
  unfold ssmc_list_body. intros H.
  io_step H as f0 w0 E0. apply fopen_rb_Some in E0 as (-> & [data L] & F0).
  io_step H as [raw f1] w1 E1.
  apply fread_exact_Some in E1 as (Hraw & P1 & F1). simpl in Hraw, P1.
  cbv zeta in H. destruct (magic_ok lib (header_of_bytes lib raw)) eqn:M; [|discriminate].
  io_step H as u2 w2 E2. apply alloc_Some in E2 as F2.
  io_step H as f3 w3 E3. apply fseek_Some in E3 as (-> & F3).
  io_step H as [manifest_buffer f4] w4 E4.
  apply fread_exact_Some in E4 as (Hman & P4 & F4). simpl in Hman, P4.
  assert (fs w3 = fs w) as G3 by congruence.
  rewrite F0, L in Hraw. rewrite G3, P1, L in Hman. simpl in Hraw, Hman.
  assert (header_of_bytes lib raw = archive_header lib data) as Hh.
  { unfold archive_header. by rewrite Hraw. }
  rewrite Hh in *.
  assert (manifest_buffer = manifest_bytes lib data) as Hb by done.
  clear Hman. subst manifest_buffer.
  io_step H as len w5 E5.
  destruct (negb (len =? 0)%nat) eqn:Hnz; [|discriminate].
  io_step H as u6 w6 E6.
  io_step H as items w7 E7. injection H as <- <- <-.
  apply negb_true_iff, Nat.eqb_neq in Hnz.
  exists data. unfold manifest_names.
  destruct (hash_type (archive_header lib data) =? 1) eqn:H1.
  - destruct (parse_file_metadata (store_u64 lib) _ _) as [m|] eqn:Pm; [|discriminate].
    injection E5 as <- <-. exists (filename <$> m).
    rewrite length_fmap. repeat split; try done.
    rewrite <- (length_fmap filename m) in E7.
    apply fill_from_zero in E7 as (_ & [?|R] & _); [done | congruence |].
    intros k. simpl. apply source_names.
  - destruct (hash_type (archive_header lib data) =? 2) eqn:H2; [|discriminate].
    destruct (parse_file_metadata (store_u128 lib) _ _) as [m|] eqn:Pm; [|discriminate].
    injection E5 as <- <-. exists (filename <$> m).
    rewrite length_fmap. repeat split; try done.
    rewrite <- (length_fmap filename m) in E7.
    apply fill_from_zero in E7 as (_ & [?|R] & _); [done | congruence |].
    intros k. simpl. apply source_names.
Qed.

(** Without faults, an archive whose header and manifest can be read and
    whose manifest decodes to at least one record is listed. *)
Lemma ssmc_list_body_quiet path w data names :
  faults w = [] → fs w !! file_of w path = Some data →
  (sizeof_FileHeader lib ≤ length data)%nat →
  magic_ok lib (archive_header lib data) = true →
  section_present data (man_offset (archive_header lib data))
                       (man_length (archive_header lib data)) →
  manifest_names lib data = Some names → names ≠ [] →
  ssmc_list_body lib path w = (Some (entries_of names, length names), w).
Proof.
  intros Q L Hsz M (Hm0 & Hm) Hnames Hne.
  unfold ssmc_list_body, io_bind.
  rewrite (fopen_rb_quiet _ _ _ Q L).
  rewrite (fread_exact_quiet (mkFILE (file_of w path) 0) _ _ data Q L) by (by apply header_read).
  cbv zeta. cbn [f_file f_pos]. fold (archive_header lib data). rewrite M.
  rewrite (alloc_quiet _ Q).
  rewrite (fseek_quiet _ _ _ Q Hm0). cbn [f_file f_pos].
  rewrite (fread_exact_quiet (mkFILE (file_of w path) _) _ _ data Q L) by exact Hm.
  fold (section_bytes data (man_offset (archive_header lib data))
          (man_length (archive_header lib data))).
  fold (manifest_bytes lib data).
  unfold manifest_names in Hnames.
  assert (length names ≠ 0%nat) as Hlen by (by destruct names).
  destruct (hash_type (archive_header lib data) =? 1) eqn:H1.
  - destruct (parse_file_metadata (store_u64 lib) _ _) as [m|] eqn:Pm; [|discriminate].
    injection Hnames as <-. unfold io_ret at 1. rewrite length_fmap in Hlen.
    destruct (Nat.eqb_spec (length m) 0) as [?|_]; [done|]. cbn [negb].
    rewrite (alloc_quiet _ Q).
    destruct (fill_item_list _ _ _ _ w) as [r w1] eqn:Hf.
    rewrite <- (length_fmap filename m) in Hf.
    apply fill_from_zero in Hf as (_ & _ & Hq); [|intros k; simpl; apply source_names].
    destruct (Hq Q) as [-> ->]. by rewrite length_fmap.
  - destruct (hash_type (archive_header lib data) =? 2) eqn:H2; [|discriminate].
    destruct (parse_file_metadata (store_u128 lib) _ _) as [m|] eqn:Pm; [|discriminate].
    injection Hnames as <-. unfold io_ret at 1. rewrite length_fmap in Hlen.
    destruct (Nat.eqb_spec (length m) 0) as [?|_]; [done|]. cbn [negb].
    rewrite (alloc_quiet _ Q).
    destruct (fill_item_list _ _ _ _ w) as [r w1] eqn:Hf.
    rewrite <- (length_fmap filename m) in Hf.
    apply fill_from_zero in Hf as (_ & _ & Hq); [|intros k; simpl; apply source_names].
    destruct (Hq Q) as [-> ->]. by rewrite length_fmap.
Qed.

End Lister.

(** ** Resolution and reconstruction *)

Section ExtractFacts.

Context {H : Type} (store : ChunkStore H).
Context (decompress : list byte → Z → list byte → Z → Z → option (list byte)).

Lemma find_by_name_Some (manifests : list (FFIFileManifestParent H)) name m :
  find_by_name manifests name = Some m ↔
  ∃ earlier later,
    manifests = earlier ++ m :: later ∧ filename m = name ∧
    ∀ m', m' ∈ earlier → filename m' ≠ name.
Proof.
  induction manifests as [|m0 rest IH]; cbn [find_by_name].
  - split; [discriminate | intros ([|??] & ? & ? & _); discriminate].
  - destruct (strcmp (filename m0) name =? 0) eqn:E.
    + apply Z.eqb_eq, strcmp_eq in E. split.
      * intros [= <-]. exists [], rest. split; [done|]. split; [done|].
        by intros ? ?%elem_of_nil.
      * intros ([|m1 earlier] & later & Heq & Hn & Hfirst).
        -- by injection Heq as -> _.
        -- injection Heq as -> _. destruct (Hfirst m1); [by left | done].
    + apply Z.eqb_neq in E. rewrite strcmp_eq in E. rewrite IH. split.
      * intros (earlier & later & -> & Hn & Hfirst).
        exists (m0 :: earlier), later. split; [done|]. split; [done|].
        intros m' [->|?]%elem_of_cons; auto.
      * intros ([|m1 earlier] & later & Heq & Hn & Hfirst).
        -- injection Heq as -> _. contradiction.
        -- injection Heq as -> ->. exists earlier, later.
           split; [done|]. split; [done|]. intros m' ?. apply Hfirst. by right.
Qed.

Lemma find_by_name_None (manifests : list (FFIFileManifestParent H)) name :
  find_by_name manifests name = None ↔
  ∀ m, m ∈ manifests → filename m ≠ name.
Proof.
  induction manifests as [|m0 rest IH]; cbn [find_by_name].
  - split; [by intros _ ? ?%elem_of_nil | done].
  - destruct (strcmp (filename m0) name =? 0) eqn:E.
    + apply Z.eqb_eq, strcmp_eq in E. split; [discriminate|].
      intros Hall. destruct (Hall m0); [by left | done].
    + apply Z.eqb_neq in E. rewrite strcmp_eq in E. rewrite IH. split.
      * intros Hall m [->|?]%elem_of_cons; auto.
      * intros Hall m ?. apply Hall. by right.
Qed.

Lemma resolve_target_in_bounds (manifests : list (FFIFileManifestParent H)) name idx :
  is_int idx → 0 ≤ idx < Z.of_nat (length manifests) →
  resolve_target manifests name idx = manifests !! Z.to_nat idx ∧
  is_Some (manifests !! Z.to_nat idx).
Proof.
  intros [_ Hmax] [H0 Hlt]. unfold resolve_target, INT_MAX in *.
  rewrite to_u64_small by lia.
  destruct (Z.leb_spec 0 idx); [|lia]. destruct (Z.ltb_spec idx (Z.of_nat (length manifests))); [|lia].
  split; [done|]. apply lookup_lt_is_Some. lia.
Qed.

Lemma resolve_target_out_of_bounds (manifests : list (FFIFileManifestParent H)) name idx :
  is_int idx → ¬ (0 ≤ idx < Z.of_nat (length manifests)) →
  resolve_target manifests name idx =
    match name with
    | Some n => find_by_name manifests n
    | None => None
    end.
Proof.
  intros [_ Hmax] Hout. unfold resolve_target, INT_MAX in *.
  destruct (Z.leb_spec 0 idx); [|done].
  rewrite to_u64_small by lia.
  destruct (Z.ltb_spec idx (Z.of_nat (length manifests))); [lia | done].
Qed.

Lemma read_only_writes_only p {A} (c : io A) : read_only c → writes_only p c.
Proof. intros R w q _. by rewrite R. Qed.

Lemma writes_only_bind p {A B} (c : io A) (k : A → io B) :
  writes_only p c → (∀ a, writes_only p (k a)) → writes_only p (io_bind c k).
Proof.
  intros Hc Hk w q Hq. unfold io_bind. specialize (Hc w q Hq).
  destruct (c w) as [[a|] w1]; simpl in *; [|done].
  by rewrite Hk.
Qed.

Lemma fopen_wb_Some p w out_file w' :
  fopen_wb p w = (Some out_file, w') →
  out_file = mkFILE (file_of w p) 0 ∧ fs w' = <[file_of w p := []]> (fs w).
Proof.
  unfold fopen_wb. pose proof (next_ok_fs w) as E. pose proof (next_ok_file_of w) as N.
  destruct (next_ok w) as [[] w1]; [|discriminate]. simpl in E, N.
  intros [= <- <-]. cbn [fs set_fs]. by rewrite E, N.
Qed.

Lemma fopen_wb_None p w w' : fopen_wb p w = (None, w') → fs w' = fs w.
Proof.
  unfold fopen_wb. pose proof (next_ok_fs w) as E.
  destruct (next_ok w) as [[] w1]; [discriminate|]. by intros [= <-].
Qed.

Lemma fwrite_other buf f w q : q ≠ f_file f → fs (fwrite buf f w).2 !! q = fs w !! q.
Proof.
  intros Hq. unfold fwrite. pose proof (next_outcome_fs w) as E.
  destruct (next_outcome w) as [o w1]. cbn [snd fs set_fs] in *.
  rewrite lookup_insert_ne by done. by rewrite E.
Qed.

Lemma writes_only_write_chunk af header handle dict out_file chunk_meta :
  writes_only (f_file out_file)
    (write_chunk store decompress af header handle dict out_file chunk_meta).
Proof.
  unfold write_chunk.
  destruct (lookup_chunk_location _ _ _) as [location|]; [|by apply read_only_writes_only].
  repeat (apply writes_only_bind; [apply read_only_writes_only; read_only_tac | intros ?]).
  destruct a2 as [comp_buf af'].
  destruct (decompress _ _ _ _ _) as [stored|]; [|by apply read_only_writes_only].
  intros w q Hq. pose proof (fwrite_other (resize (Z.to_nat (chunk_length chunk_meta))
                                             "000"%byte stored) out_file w q Hq) as E.
  destruct (fwrite _ out_file w) as [written w1]. simpl in E.
  by destruct (written =? chunk_length chunk_meta).
Qed.

Lemma writes_only_write_chunks header handle dict out_file chunks :
  ∀ af, writes_only (f_file out_file)
          (write_chunks store decompress af header handle dict out_file chunks).
Proof.
  induction chunks as [|c rest IH]; intros af; cbn [write_chunks].
  - by apply read_only_writes_only.
  - apply writes_only_bind; [apply writes_only_write_chunk | intros af'; apply IH].
Qed.

Lemma env_kept_write_chunk af header handle dict out_file chunk_meta :
  env_kept (write_chunk store decompress af header handle dict out_file chunk_meta).
Proof.
  unfold write_chunk.
  destruct (lookup_chunk_location _ _ _) as [location|]; [|apply env_kept_fail].
  repeat (apply env_kept_bind; [env_kept_tac | intros ?]).
  destruct a2 as [comp_buf af'].
  destruct (decompress _ _ _ _ _) as [stored|]; [|apply env_kept_fail].
  intros w. pose proof (fwrite_env (resize (Z.to_nat (chunk_length chunk_meta))
                                      "000"%byte stored) out_file w) as E.
  destruct (fwrite _ out_file w) as [written w1]. simpl in E.
  by destruct (written =? chunk_length chunk_meta).
Qed.

Lemma env_kept_write_chunks header handle dict out_file chunks :
  ∀ af, env_kept (write_chunks store decompress af header handle dict out_file chunks).
Proof.
  induction chunks as [|c rest IH]; intros af; cbn [write_chunks].
  - apply env_kept_ret.
  - apply env_kept_bind; [apply env_kept_write_chunk | intros af'; apply IH].
Qed.


(** The part of [extract_generic] that runs with [output_path] set: the
    output is opened, the chunks are written and the stream is closed;
    then, in a failed call, [remove] is called.  No file but the output
    changes, and after a failed call the output is gone if [remove]
    worked. *)
Lemma extract_tail af header handle dict out chunks w1 :
  let run :=
    match fopen_wb out w1 with
    | (None, w2) => (None, remove out w2)
    | (Some out_file, w2) =>
        match write_chunks store decompress af header handle dict out_file chunks w2 with
        | (Some _, w3) => (Some out, fclose out_file w3)
        | (None, w3) => (None, remove out (fclose out_file w3))
        end
    end in
  (∀ q, q ≠ file_of w1 out → fs run.2 !! q = fs w1 !! q) ∧
  file_of run.2 = file_of w1 ∧
  (run.1 = None → remove_works w1 → fs run.2 !! file_of w1 out = None).
Proof.
  pose proof (env_kept_fopen_wb out w1) as [N2 U2].
  destruct (fopen_wb out w1) as [[out_file|] w2] eqn:Ho; simpl in N2, U2.
  - apply fopen_wb_Some in Ho as [-> F2].
    pose proof (writes_only_write_chunks header handle dict (mkFILE (file_of w1 out) 0)
                  chunks af w2) as Hframe.
    pose proof (env_kept_write_chunks header handle dict (mkFILE (file_of w1 out) 0)
                  chunks af w2) as [N3 U3].
    destruct (write_chunks _ _ _ _ _ _ _ _ w2) as [[u|] w3]; simpl in *.
    + pose proof (fclose_env (mkFILE (file_of w1 out) 0) w3) as [N4 U4].
      split; [|split; [congruence | discriminate]].
      intros q Hq. rewrite fclose_other, Hframe, F2 by done. by rewrite lookup_insert_ne.
    + pose proof (fclose_env (mkFILE (file_of w1 out) 0) w3) as [N4 U4].
      assert (file_of (fclose (mkFILE (file_of w1 out) 0) w3) = file_of w1) as N by congruence.
      split; [|split].
      * intros q Hq. rewrite remove_other by (by rewrite N).
        rewrite fclose_other, Hframe, F2 by done. by rewrite lookup_insert_ne.
      * by rewrite remove_file_of.
      * intros _ Hw. apply remove_gone; [by rewrite N|]. unfold remove_works in *. congruence.
  - apply fopen_wb_None in Ho as F2. cbn [fst snd]. split; [|split].
    + intros q Hq. rewrite remove_other by (by rewrite N2). by rewrite F2.
    + by rewrite remove_file_of.
    + intros _ Hw. apply remove_gone; [by rewrite N2|]. unfold remove_works in *. congruence.
Qed.

(** How [extract_generic] fails: before [output_path] is set, with the
    files as they were, or after, with every file but the output as it
    was, and the output gone if [remove] worked. *)
Lemma extract_generic_None af header man_buf idx_buf dict name idx dir w w' :
  extract_generic store decompress af header man_buf idx_buf dict name idx dir w = (None, w') →
  fs w' = fs w ∨
  ∃ p_manifest handle target,
    parse_file_metadata store man_buf (man_length header) = Some p_manifest ∧
    prepare_chunk_index store idx_buf (chunk_index_length header) = Some handle ∧
    resolve_target p_manifest name idx = Some target ∧
    (∀ q, q ≠ file_of w (output_path_of dir target) → fs w' !! q = fs w !! q) ∧
    (remove_works w → fs w' !! file_of w (output_path_of dir target) = None).
Proof.
  unfold extract_generic.
  destruct (parse_file_metadata _ _ _) as [p_manifest|] eqn:Hp; [|intros [= <-]; by left].
  destruct (prepare_chunk_index _ _ _) as [handle|] eqn:Hi; [|intros [= <-]; by left].
  destruct (resolve_target _ _ _) as [target|] eqn:Hr; [|intros [= <-]; by left].
  pose proof (read_only_alloc w) as FA. pose proof (env_kept_alloc w) as [N1 U1].
  destruct (alloc w) as [[u|] w1]; simpl in FA, N1, U1; [|intros [= <-]; by left].
  pose proof (extract_tail af header handle dict (output_path_of dir target)
                (chunk_metadata target) w1) as Htail.
  cbv zeta in Htail.
  destruct (fopen_wb (output_path_of dir target) w1) as [[out_file|] w2].
  - destruct (write_chunks _ _ _ _ _ _ _ _ w2) as [[u'|] w3]; [discriminate|].
    intros [= <-]. right. exists p_manifest, handle, target.
    destruct Htail as (Hframe & _ & Hgone). simpl in Hframe, Hgone.
    rewrite N1, FA in *. repeat split; try done.
    intros Hw. apply Hgone; [done|]. unfold remove_works in *. congruence.
  - intros [= <-]. right. exists p_manifest, handle, target.
    destruct Htail as (Hframe & _ & Hgone). simpl in Hframe, Hgone.
    rewrite N1, FA in *. repeat split; try done.
    intros Hw. apply Hgone; [done|]. unfold remove_works in *. congruence.
Qed.


(** A successful call leaves every file but the output as it was. *)
Lemma extract_generic_Some af header man_buf idx_buf dict name idx dir w out w' :
  extract_generic store decompress af header man_buf idx_buf dict name idx dir w = (Some out, w') →
  ∃ p_manifest target,
    parse_file_metadata store man_buf (man_length header) = Some p_manifest ∧
    resolve_target p_manifest name idx = Some target ∧
    out = output_path_of dir target ∧
    file_of w' = file_of w ∧
    ∀ q, q ≠ file_of w out → fs w' !! q = fs w !! q.
Proof.
  unfold extract_generic.
  destruct (parse_file_metadata _ _ _) as [p_manifest|] eqn:Hp; [|discriminate].
  destruct (prepare_chunk_index _ _ _) as [handle|]; [|discriminate].
  destruct (resolve_target _ _ _) as [target|] eqn:Hr; [|discriminate].
  pose proof (read_only_alloc w) as FA. pose proof (env_kept_alloc w) as [N1 U1].
  destruct (alloc w) as [[u|] w1]; simpl in FA, N1, U1; [|discriminate].
  pose proof (extract_tail af header handle dict (output_path_of dir target)
                (chunk_metadata target) w1) as Htail.
  cbv zeta in Htail.
  destruct (fopen_wb (output_path_of dir target) w1) as [[out_file|] w2]; [|discriminate].
  destruct (write_chunks _ _ _ _ _ _ _ _ w2) as [[u'|] w3]; [|discriminate].
  intros [= <- <-]. exists p_manifest, target.
  destruct Htail as (Hframe & N & _). simpl in Hframe, N.
  rewrite N1, FA in *. repeat split; try done.
Qed.

End ExtractFacts.

(** ** Listing projector *)

Section Projector.

Lemma root_file_test (e : ArchiveEntry) (p : string) :
  entry_path e = Some p →
  root_file e =
    if match entry_type e with ARCHIVE_ENTRY_FILE => true | _ => false end &&
       match strchr p "/" with None => true | Some _ => false end
    then Some p else None.
Proof.
  intros Hp. unfold root_file. rewrite Hp.
  destruct (entry_type e); [|done]. cbn [andb].
  destruct (strchr p "/") eqn:E.
  - destruct (occurs "/" p) eqn:O; [done|]. apply strchr_none in O. congruence.
  - apply strchr_none in E. by rewrite E.
Qed.

(** The projection loop from index [i] on, with [working_list] filled so
    far: it ends in [goto cleanup] after a failed copy, or with the first
    255 of the paths collected so far followed by the eligible paths of the
    remaining entries; without faults it ends the second way. *)
Lemma collect_entries_spec (entries : list ArchiveEntry) n :
  Forall (λ e, entry_path e ≠ None) entries →
  ∀ i working_list w s w',
    (i + n)%nat = length entries →
    (length working_list ≤ MAX_ARCHIVE_DISPLAY_ITEMS)%nat →
    collect_entries entries i n working_list w = (s, w') →
    let kept := take MAX_ARCHIVE_DISPLAY_ITEMS (working_list ++ root_files (drop i entries)) in
    (s = ScanNoMem ∨ s = ScanDone kept) ∧
    (faults w = [] → s = ScanDone kept ∧ w' = w).
Proof.
  intros Hpaths. induction n as [|n IH]; intros i wl w s w' Hi Hwl; cbn [collect_entries].
  - intros [= <- <-]. rewrite drop_ge by lia. cbn. rewrite app_nil_r, take_ge by done. auto.
  - destruct (Nat.leb_spec MAX_ARCHIVE_DISPLAY_ITEMS (length wl)) as [Hfull|Hroom].
    { intros [= <- <-]. cbn zeta.
      assert (length wl = MAX_ARCHIVE_DISPLAY_ITEMS) as <- by lia.
      rewrite take_app_length. auto. }
    destruct (entries !! i) as [e|] eqn:L.
    2:{ apply lookup_ge_None in L. lia. }
    assert (entry_path e ≠ None) as Hp.
    { eapply Forall_forall in Hpaths; [exact Hpaths|]. by eapply list_elem_of_lookup_2. }
    destruct (entry_path e) as [p|] eqn:Ep; [|done].
    rewrite (drop_S _ _ _ L). unfold root_files. cbn [omap list_omap].
    fold (root_files (drop (S i) entries)).
    rewrite (root_file_test e p Ep).
    destruct (_ && _).
    + destruct (alloc w) as [[u|] w1] eqn:A.
      * intros Hrun. apply IH in Hrun; [|lia | rewrite length_app; simpl; lia].
        cbn zeta in Hrun |- *. rewrite <- app_assoc in Hrun. cbn [app] in Hrun.
        destruct Hrun as (R & Qt). split; [done|].
        intros Q. rewrite (alloc_quiet _ Q) in A. simplify_eq. by apply Qt.
      * intros [= <- <-]. split; [by left|].
        intros Q. rewrite (alloc_quiet _ Q) in A. discriminate.
    + intros Hrun. apply IH in Hrun; [done | lia | done].
Qed.


End Projector.

(** ** The SSMC handler: listing and rejection of malformed archives *)

Section SsmcClaims.

Context (lib : SpriteShrink).

(** C10, as the code has it.  [ssmc_list_contents] returns NULL exactly when
    it stores 0 in [*count].  A returned array holds one entry per record of
    the decoded manifest, each with a non-NULL path (the record's file
    name), kind [ARCHIVE_ENTRY_FILE] and its position as index; the count
    stored is the number of records converted to [int], which is that
    number whenever it does not exceed [INT_MAX]. *)
Theorem list_count_coherent (path : string) (count_in : Z) (w : World)
    (result : option (list ArchiveEntry)) (count : Z) (w' : World) :
  ssmc_list_contents lib path count_in w = ((result, count), w') →
  (result = None ↔ count = 0) ∧
  (∀ item_list, result = Some item_list →
     ∃ data names,
       fs w !! file_of w path = Some data ∧ manifest_names lib data = Some names ∧
       count = to_int (Z.of_nat (length names)) ∧
       (Z.of_nat (length names) ≤ INT_MAX → count = Z.of_nat (length names)) ∧
       length item_list = length names ∧
       (∀ i name, names !! i = Some name →
          item_list !! i = Some (mkEntry (Some name) ARCHIVE_ENTRY_FILE (Z.of_nat i))) ∧
       (∀ i e, item_list !! i = Some e →
          (entry_path e ≠ None) ∧ entry_type e = ARCHIVE_ENTRY_FILE ∧
          entry_index e = Z.of_nat i)).
Proof.
  unfold ssmc_list_contents.
  destruct (ssmc_list_body lib path w) as [[[items len]|] w1] eqn:Hbody.
  2:{ intros [= <- <- <-]. split; [done | discriminate]. }
  destruct (to_int (Z.of_nat len) =? 0) eqn:Hz; intros [= <- <- <-].
  { apply Z.eqb_eq in Hz. split; [done | discriminate]. }
  apply Z.eqb_neq in Hz. split; [split; [discriminate | done]|].
  intros item_list [= <-].
  apply ssmc_list_body_Some in Hbody as (data & names & L & _ & Hn & -> & _ & ->).
  exists data, names. split; [done|]. split; [done|]. split; [done|].
  split; [intros Hle; apply to_int_small; lia|].
  split; [apply length_entries_of|]. split.
  - intros i name Hi. by apply entries_of_lookup.
  - intros i e. unfold entries_of. rewrite list_lookup_imap.
    destruct (names !! i); [|discriminate]. by intros [= <-].
Qed.

(** An archive whose header announces a magic number other than the
    library's is refused by the loader and by the lister's body. *)
Lemma bad_magic (data : list byte) :
  length (magic_num (archive_header lib data)) = length (MAGIC_NUMBER lib) →
  magic_num (archive_header lib data) ≠ MAGIC_NUMBER lib →
  magic_ok lib (archive_header lib data) = false.
Proof.
  intros Hlen Hne. unfold magic_ok. apply Z.eqb_neq.
  by rewrite (memcmp_eq _ _ Hlen).
Qed.

Lemma ssmc_extract_file_run path name idx dir w :
  ssmc_extract_file lib path name idx dir w =
  match load_sections lib path w with
  | (Some s, w1) =>
      (if hash_type (s_header s) =? 1 then
         extract_u64 lib (s_file s) (s_header s) (s_manifest s) (s_chunk_index s)
           (s_dictionary s) name idx dir
       else if hash_type (s_header s) =? 2 then
         extract_u128 lib (s_file s) (s_header s) (s_manifest s) (s_chunk_index s)
           (s_dictionary s) name idx dir
       else io_fail) w1
  | (None, w1) => (None, w1)
  end.
Proof. reflexivity. Qed.

(** Both entry points answer NULL and leave the files alone whenever the
    archive, once loaded, cannot get past the given point. *)
Lemma list_refused path count_in w :
  (∀ item_list manifest_len w', ssmc_list_body lib path w ≠ (Some (item_list, manifest_len), w')) →
  ∃ w', ssmc_list_contents lib path count_in w = ((None, 0), w') ∧ fs w' = fs w.
Proof.
  intros Hno. unfold ssmc_list_contents.
  pose proof (ssmc_list_body_read_only lib path w) as RO.
  destruct (ssmc_list_body lib path w) as [[[items len]|] w1] eqn:Hbody.
  - by destruct (Hno items len w1).
  - eauto.
Qed.

Lemma load_refused path name idx dir w :
  (∀ s w1, load_sections lib path w ≠ (Some s, w1)) →
  ∃ w', ssmc_extract_file lib path name idx dir w = (None, w') ∧ fs w' = fs w.
Proof.
  intros Hno. rewrite ssmc_extract_file_run.
  pose proof (load_sections_read_only lib path w) as RO.
  destruct (load_sections lib path w) as [[s|] w1] eqn:Hload.
  - by destruct (Hno s w1).
  - eauto.
Qed.

(** C5.  For an archive whose header carries magic bytes other than
    [MAGIC_NUMBER], the lister returns NULL (with count 0) and the
    extractor returns NULL, and neither changes any file. *)
Theorem magic_mismatch_rejected (path : string) (data : list byte)
    (name : option string) (idx : Z) (dir : string) (count_in : Z) (w : World) :
  fs w !! file_of w path = Some data →
  length (magic_num (archive_header lib data)) = length (MAGIC_NUMBER lib) →
  magic_num (archive_header lib data) ≠ MAGIC_NUMBER lib →
  (∃ w', ssmc_list_contents lib path count_in w = ((None, 0), w') ∧ fs w' = fs w) ∧
  (∃ w', ssmc_extract_file lib path name idx dir w = (None, w') ∧ fs w' = fs w).
Proof.
  intros L Hlen Hne. pose proof (bad_magic data Hlen Hne) as M. split.
  - apply list_refused. intros items len w' Hbody.
    apply ssmc_list_body_Some in Hbody as (data' & names & L' & M' & _).
    congruence.
  - apply load_refused. intros s w1 Hload.
    apply load_sections_Some in Hload as (data' & L' & _ & _ & Hh & M' & _).
    congruence.
Qed.

Lemma resolve_target_nil {H} name idx :
  resolve_target (@nil (FFIFileManifestParent H)) name idx = None.
Proof.
  unfold resolve_target. cbn [length find_by_name].
  assert ((to_u64 idx <? Z.of_nat 0) = false) as ->.
  { apply Z.ltb_ge. unfold to_u64. change (Z.of_nat 0) with 0.
    apply Z.mod_pos_bound. lia. }
  rewrite andb_false_r. by destruct name.
Qed.

Lemma extract_generic_unresolved {H} (store : ChunkStore H) decompress af header
    man_buf idx_buf dict name idx dir w p_manifest :
  parse_file_metadata store man_buf (man_length header) = Some p_manifest →
  resolve_target p_manifest name idx = None →
  extract_generic store decompress af header man_buf idx_buf dict name idx dir w = (None, w).
Proof.
  intros Hp Hr. unfold extract_generic. rewrite Hp, Hr.
  by destruct (prepare_chunk_index _ _ _).
Qed.

(** C9.  For an archive whose manifest decodes to zero records, the lister
    returns NULL with count 0, and the extractor returns NULL for every
    requested name and index; no file is created or changed. *)
Theorem empty_manifest_rejected (path : string) (data : list byte)
    (name : option string) (idx : Z) (dir : string) (count_in : Z) (w : World) :
  fs w !! file_of w path = Some data →
  manifest_names lib data = Some [] →
  (∃ w', ssmc_list_contents lib path count_in w = ((None, 0), w') ∧ fs w' = fs w) ∧
  (∃ w', ssmc_extract_file lib path name idx dir w = (None, w') ∧ fs w' = fs w).
Proof.
  intros L Hnames. split.
  - apply list_refused. intros items len w' Hbody.
    apply ssmc_list_body_Some in Hbody as (data' & names & L' & _ & Hn & -> & Hnz & _).
    assert (data' = data) as -> by congruence.
    rewrite Hnames in Hn. injection Hn as <-. done.
  - rewrite ssmc_extract_file_run.
    pose proof (load_sections_read_only lib path w) as RO.
    destruct (load_sections lib path w) as [[s|] w1] eqn:Hload; simpl in RO; [|eauto].
    apply load_sections_Some in Hload as (data' & L' & _ & _ & Hh & _ & Hm & _).
    assert (data' = data) as -> by congruence.
    unfold manifest_names in Hnames. rewrite Hh, Hm.
    destruct (hash_type (archive_header lib data) =? 1).
    + destruct (parse_file_metadata (store_u64 lib) _ _) as [m|] eqn:Pm; [|discriminate].
      injection Hnames as Hnil. apply fmap_nil_inv in Hnil as ->.
      unfold extract_u64.
      rewrite (extract_generic_unresolved _ _ _ _ _ _ _ _ _ _ _ _ Pm (resolve_target_nil _ _)).
      eauto.
    + destruct (hash_type (archive_header lib data) =? 2); [|discriminate].
      destruct (parse_file_metadata (store_u128 lib) _ _) as [m|] eqn:Pm; [|discriminate].
      injection Hnames as Hnil. apply fmap_nil_inv in Hnil as ->.
      unfold extract_u128.
      rewrite (extract_generic_unresolved _ _ _ _ _ _ _ _ _ _ _ _ Pm (resolve_target_nil _ _)).
      eauto.
Qed.

End SsmcClaims.

(** ** The SSMC handler: resolution and extraction *)

Section ExtractClaims.

(** C3.  For a file index in the range of [int]: an index within the
    bounds of the manifest selects the record at that index, whatever name
    is given; otherwise a non-NULL name selects the first record, in
    manifest order, whose file name equals it; and when the index is out of
    bounds and the name is NULL or names no record, nothing is selected and
    the extractor returns NULL. *)
Theorem file_resolution {H : Type} (store : ChunkStore H)
    (decompress : list byte → Z → list byte → Z → Z → option (list byte))
    (manifests : list (FFIFileManifestParent H)) (name : option string) (idx : Z) :
  is_int idx →
  (0 ≤ idx < Z.of_nat (length manifests) →
   ∃ m, manifests !! Z.to_nat idx = Some m ∧
        resolve_target manifests name idx = Some m) ∧
  (¬ (0 ≤ idx < Z.of_nat (length manifests)) →
   ∀ n, name = Some n →
   ∀ m, resolve_target manifests name idx = Some m ↔
        ∃ earlier later,
          manifests = earlier ++ m :: later ∧ filename m = n ∧
          ∀ m', m' ∈ earlier → filename m' ≠ n) ∧
  (¬ (0 ≤ idx < Z.of_nat (length manifests)) →
   name = None ∨ (∃ n, name = Some n ∧ ∀ m, m ∈ manifests → filename m ≠ n) →
   resolve_target manifests name idx = None ∧
   ∀ af header man_buf idx_buf dict dir w,
     parse_file_metadata store man_buf (man_length header) = Some manifests →
     extract_generic store decompress af header man_buf idx_buf dict name idx dir w
       = (None, w)).
Proof.
  intros Hint. split; [|split].
  - intros Hin. destruct (resolve_target_in_bounds manifests name idx Hint Hin) as [-> [m Hm]].
    eauto.
  - intros Hout n -> m. rewrite (resolve_target_out_of_bounds _ _ _ Hint Hout).
    apply find_by_name_Some.
  - intros Hout Hname.
    assert (resolve_target manifests name idx = None) as Hr.
    { rewrite (resolve_target_out_of_bounds _ _ _ Hint Hout).
      destruct Hname as [->|(n & -> & Hall)]; [done|]. by apply find_by_name_None. }
    split; [done|]. intros af header man_buf idx_buf dict dir w Hp.
    by apply extract_generic_unresolved with manifests.
Qed.

Context (lib : SpriteShrink).



(** One iteration of the chunk loop in a world without faults: the chunk is
    located, read and decompressed, and its bytes are appended to the
    output file. *)
Lemma write_chunk_quiet {H : Type} (store : ChunkStore H) decompress
    (af : FILE) (header : FileHeader) (handle : ChunkIndexHandle store)
    (dict : list byte) (out_file : FILE) (chunk_meta : FFISSAChunkMeta H)
    (w : World) (data : list byte) (location : FFIChunkLocation) (stored : list byte) :
  faults w = [] →
  lookup_chunk_location store handle (chunk_hash chunk_meta) = Some location →
  fs w !! f_file af = Some data →
  chunk_present data header location →
  decompress (chunk_bytes data header location) (loc_length location) dict
    (dict_length header) (chunk_length chunk_meta) = Some stored →
  Z.of_nat (length stored) = chunk_length chunk_meta →
  write_chunk store decompress af header handle dict out_file chunk_meta w =
    (Some (mkFILE (f_file af)
             (to_long (to_u64 (data_offset header + loc_offset location)) +
              loc_length location)),
     set_fs (<[f_file out_file := default [] (fs w !! f_file out_file) ++ stored]> (fs w)) w).
Proof.
  intros Q Hl L (Hpos & Hlen) Hd Hs. unfold write_chunk, io_bind. rewrite Hl.
  rewrite !(alloc_quiet _ Q).
  rewrite (fseek_quiet _ _ _ Q Hpos). cbn [f_file f_pos].
  rewrite (fread_exact_quiet (mkFILE (f_file af) _) _ _ data Q L) by exact Hlen.
  cbn [f_file f_pos]. fold (chunk_bytes data header location). rewrite Hd.
  assert (Z.to_nat (chunk_length chunk_meta) = length stored) as -> by lia.
  rewrite resize_all. unfold fwrite. rewrite (next_outcome_quiet _ Q), Hs, Z.eqb_refl.
  done.
Qed.

(** C2.  An archive that loads, whose header declares digest width 1 and
    whose manifest decodes to the single record ["a.txt"] with two chunk
    descriptors of decompressed lengths 4 and 6; both digests are found in
    the chunk index, both chunks can be read from the data section and
    decompress to payloads of the declared lengths; no library call
    faults; the request designates the record by index 0 or by its name;
    and the output path does not name the archive itself.  Then the extractor
    returns [target_dir/a.txt], and the file there holds the ten bytes of
    the first payload followed by the second; every other file is as
    before. *)
Theorem two_chunk_extraction (path : string) (data : list byte)
    (name : option string) (idx : Z) (dir : string) (w : World)
    (d1 d2 : u64) (handle : ChunkIndexHandle (store_u64 lib))
    (loc1 loc2 : FFIChunkLocation) (p1 p2 : list byte) :
  let h := archive_header lib data in
  let dict := section_bytes data (dict_offset h) (dict_length h) in
  fs w !! file_of w path = Some data → faults w = [] →
  loadable lib data →
  hash_type h = 1 →
  parse_file_metadata (store_u64 lib) (manifest_bytes lib data) (man_length h) =
    Some [mkManifest "a.txt" [mkChunkMeta d1 4; mkChunkMeta d2 6]] →
  prepare_chunk_index (store_u64 lib)
    (section_bytes data (chunk_index_offset h) (chunk_index_length h))
    (chunk_index_length h) = Some handle →
  lookup_chunk_location (store_u64 lib) handle d1 = Some loc1 →
  lookup_chunk_location (store_u64 lib) handle d2 = Some loc2 →
  chunk_present data h loc1 → chunk_present data h loc2 →
  decompress_chunk_c lib (chunk_bytes data h loc1) (loc_length loc1) dict (dict_length h) 4
    = Some p1 →
  decompress_chunk_c lib (chunk_bytes data h loc2) (loc_length loc2) dict (dict_length h) 6
    = Some p2 →
  length p1 = 4%nat → length p2 = 6%nat →
  is_int idx → idx = 0 ∨ name = Some "a.txt" →
  file_of w path ≠ file_of w (dir +:+ "/a.txt") →
  ∃ w',
    ssmc_extract_file lib path name idx dir w = (Some (dir +:+ "/a.txt"), w') ∧
    fs w' = <[file_of w (dir +:+ "/a.txt") := p1 ++ p2]> (fs w) ∧
    length (p1 ++ p2) = 10%nat.
Proof.
  intros h dict L Q Hload Hw Hparse Hprep Hl1 Hl2 Hc1 Hc2 Hd1 Hd2 Hp1 Hp2 Hint Hreq Hne.
  rewrite ssmc_extract_file_run, (load_sections_quiet lib path w data Q L Hload).
  unfold loaded. cbn [s_header s_file s_manifest s_chunk_index s_dictionary].
  fold h. rewrite Hw. cbn [Z.eqb Pos.eqb].
  unfold extract_u64, extract_generic. rewrite Hparse, Hprep.
  set (rec := mkManifest "a.txt" [mkChunkMeta d1 4; mkChunkMeta d2 6]).
  assert (resolve_target [rec] name idx = Some rec) as ->.
  { destruct (decide (idx = 0)) as [->|Hnz].
    - by destruct (resolve_target_in_bounds [rec] name 0 Hint ltac:(simpl; lia)) as [-> _].
    - rewrite resolve_target_out_of_bounds by (done || simpl; lia).
      destruct Hreq as [?| ->]; [done|]. reflexivity. }
  rewrite (alloc_quiet _ Q).
  change (output_path_of dir rec) with (dir +:+ "/a.txt").
  set (out := file_of w (dir +:+ "/a.txt")) in *.
  unfold fopen_wb. rewrite (next_ok_quiet _ Q). fold out.
  cbn [chunk_metadata rec write_chunks]. unfold io_bind.
  set (w1 := set_fs (<[out:=[]]> (fs w)) w).
  assert (faults w1 = []) as Q1 by done.
  assert (fs w1 !! file_of w path = Some data) as L1.
  { unfold w1. cbn [fs set_fs]. by rewrite lookup_insert_ne. }
  rewrite (write_chunk_quiet _ _ (mkFILE (file_of w path) _) h handle dict (mkFILE out 0)
             (mkChunkMeta d1 4) w1 data loc1 p1 Q1 Hl1 L1 Hc1 Hd1)
    by (cbn [chunk_length]; lia).
  cbn [f_file]. set (w2 := set_fs _ w1).
  assert (faults w2 = []) as Q2 by done.
  assert (fs w2 !! file_of w path = Some data) as L2.
  { unfold w2. cbn [fs set_fs]. by rewrite lookup_insert_ne. }
  rewrite (write_chunk_quiet _ _ (mkFILE (file_of w path) _) h handle dict (mkFILE out 0)
             (mkChunkMeta d2 6) w2 data loc2 p2 Q2 Hl2 L2 Hc2 Hd2)
    by (cbn [chunk_length]; lia).
  unfold io_ret. cbn [f_file]. rewrite fclose_quiet by done.
  eexists. split; [reflexivity|]. split; [|rewrite length_app; lia].
  unfold w2, w1. cbn [fs set_fs].
  rewrite !lookup_insert_eq. cbn [default app].
  by rewrite !insert_insert_eq.
Qed.

End ExtractClaims.

(** ** Concrete scenarios *)

Section Scenarios.

(** The matcher on a few names: case is ignored, the last dot counts, and
    a dotfile or a name without dot has no extension. *)
Example ext_upper_case : ssmc_is_supported "GAME.SSMC" = true.
Proof. reflexivity. Qed.

Example ext_last_dot : ssmc_is_supported "game.ssmc.bak" = false.
Proof. reflexivity. Qed.

Example ext_dotfile : ssmc_is_supported ".ssmc" = false.
Proof. reflexivity. Qed.

Example ext_none : ssmc_is_supported "ssmc" = false.
Proof. reflexivity. Qed.

(** Resolution on a two-record manifest: by index, by name when the index
    is [-1] or out of range, and not at all. *)
Example resolve_by_name :
  filename <$> resolve_target
    [mkManifest "a.txt" [mkChunkMeta 1 4]; mkManifest "b.txt" [mkChunkMeta 2 6]]
    (Some "b.txt") (-1) = Some "b.txt".
Proof. reflexivity. Qed.

Example resolve_index_out_of_range :
  filename <$> resolve_target
    [mkManifest "a.txt" [mkChunkMeta 1 4]; mkManifest "b.txt" [mkChunkMeta 2 6]]
    (Some "a.txt") 2 = Some "a.txt".
Proof. reflexivity. Qed.

Example resolve_nothing :
  resolve_target
    [mkManifest "a.txt" [mkChunkMeta 1 4]; mkManifest "b.txt" [mkChunkMeta 2 6]]
    (Some "c.txt") (-1) = None.
Proof. reflexivity. Qed.

Lemma game_on_disk : fs Toy.disk !! "game.ssmc" = Some Toy.game.
Proof. vm_compute. reflexivity. Defined.

Lemma game_loadable (recs : list (FFIFileManifestParent u64)) :
  loadable (Toy.lib_of recs) Toy.game.
Proof.
  unfold loadable. cbv zeta.
  assert (archive_header (Toy.lib_of recs) Toy.game =
          mkHeader Toy.MAGIC 1 12 1 13 1 14 1 15) as -> by (vm_compute; reflexivity).
  repeat split; first [ by vm_compute | vm_compute; lia | vm_compute; discriminate ].
Defined.

(** An instance of C7: in the two-handler registry, registering the SSMC
    handler again changes nothing, and ["game.ssmc"], which both handlers
    accept, goes to the handler registered first. *)
Lemma registry_witness :
  register_archive_handler 1 (register_archive_handler 1 Toy.two_handlers) =
    register_archive_handler 1 Toy.two_handlers ∧
  registered (register_archive_handler 1 (register_archive_handler 1 registry_init)) = [1%N] ∧
  get_handler_for_file Toy.vt Toy.two_handlers (Some "game.ssmc") = 1%N ∧
  get_handler_for_file Toy.vt Toy.two_handlers None = NULL.
Proof.
  assert (registry_wf Toy.two_handlers) as Hwf.
  { unfold Toy.two_handlers. do 2 apply register_wf. apply registry_init_wf. }
  destruct (registry_idempotent_first_match Toy.vt Toy.two_handlers 1%N Hwf)
    as (Hidem & _ & Hone & _ & _ & Hfirst & Hnull & _).
  split; [exact Hidem|]. split; [apply Hone; discriminate|]. split; [|exact Hnull].
  apply (Hfirst "game.ssmc" 0%nat 1%N); [reflexivity | reflexivity | intros j q Hj; lia].
Defined.


(** An instance of C10: the lister on the one-file archive. *)
Lemma list_count_coherent_witness :
  ssmc_list_contents Toy.good_lib "game.ssmc" 7 Toy.disk =
    ((Some [mkEntry (Some "a.txt") ARCHIVE_ENTRY_FILE 0], 1), Toy.disk) ∧
  (Some [mkEntry (Some "a.txt") ARCHIVE_ENTRY_FILE 0] = None ↔ 1 = 0).
Proof.
  assert (ssmc_list_contents Toy.good_lib "game.ssmc" 7 Toy.disk =
            ((Some [mkEntry (Some "a.txt") ARCHIVE_ENTRY_FILE 0], 1), Toy.disk)) as Hrun
    by (vm_compute; reflexivity).
  split; [exact Hrun|].
  exact (proj1 (list_count_coherent Toy.good_lib "game.ssmc" 7 Toy.disk _ _ _ Hrun)).
Defined.


(** An instance of C3: with a valid index and the name of another record,
    the index wins. *)
Lemma file_resolution_witness :
  ∃ m, [mkManifest "a.txt" [mkChunkMeta 1 4]; mkManifest "b.txt" [mkChunkMeta 2 6]]
         !! Z.to_nat 1 = Some m ∧
       resolve_target
         [mkManifest "a.txt" [mkChunkMeta 1 4]; mkManifest "b.txt" [mkChunkMeta 2 6]]
         (Some "a.txt") 1 = Some m ∧
       filename m = "b.txt".
Proof.
  destruct (proj1 (file_resolution (Toy.table_store None None) Toy.stored
              [mkManifest "a.txt" [mkChunkMeta 1 4]; mkManifest "b.txt" [mkChunkMeta 2 6]]
              (Some "a.txt") 1 ltac:(unfold is_int, INT_MAX; lia))
              ltac:(simpl; lia)) as (m & Hm & Hr).
  exists m. split; [exact Hm|]. split; [exact Hr|].
  injection Hm as <-. reflexivity.
Defined.

(** An instance of C5: the archive with the magic bytes ["XXXX"]. *)
Lemma magic_mismatch_witness :
  (∃ w', ssmc_list_contents Toy.good_lib "game.ssmc" 0
           (Toy.world [("game.ssmc", Toy.archive ["X"; "X"; "X"; "X"]%byte "001"%byte)] [])
           = ((None, 0), w') ∧
         fs w' = fs (Toy.world [("game.ssmc", Toy.archive ["X"; "X"; "X"; "X"]%byte "001"%byte)] [])) ∧
  (∃ w', ssmc_extract_file Toy.good_lib "game.ssmc" (Some "a.txt") 0 "out"
           (Toy.world [("game.ssmc", Toy.archive ["X"; "X"; "X"; "X"]%byte "001"%byte)] [])
           = (None, w') ∧
         fs w' = fs (Toy.world [("game.ssmc", Toy.archive ["X"; "X"; "X"; "X"]%byte "001"%byte)] [])).
Proof.
  apply (magic_mismatch_rejected Toy.good_lib "game.ssmc"
           (Toy.archive ["X"; "X"; "X"; "X"]%byte "001"%byte)).
  - vm_compute. reflexivity.
  - reflexivity.
  - vm_compute. discriminate.
Defined.

(** An instance of C9: the manifest of ["game.ssmc"] decodes to no record. *)
Lemma empty_manifest_witness :
  (∃ w', ssmc_list_contents Toy.lib_empty "game.ssmc" 0 Toy.disk = ((None, 0), w') ∧
         fs w' = fs Toy.disk) ∧
  (∃ w', ssmc_extract_file Toy.lib_empty "game.ssmc" (Some "a.txt") 0 "out" Toy.disk
           = (None, w') ∧
         fs w' = fs Toy.disk).
Proof.
  apply (empty_manifest_rejected Toy.lib_empty "game.ssmc" Toy.game).
  - exact game_on_disk.
  - vm_compute. reflexivity.
Defined.

(** An instance of C2: the two chunks of ["a.txt"] are written in order. *)
Lemma two_chunk_extraction_witness :
  ∃ w',
    ssmc_extract_file Toy.good_lib "game.ssmc" None 0 "out" Toy.disk =
      (Some "out/a.txt", w') ∧
    fs w' = <["out/a.txt" := (["0"; "1"; "2"; "3"] ++ ["4"; "5"; "6"; "7"; "8"; "9"])%byte]>
              (fs Toy.disk) ∧
    length (["0"; "1"; "2"; "3"] ++ ["4"; "5"; "6"; "7"; "8"; "9"])%byte = 10%nat.
Proof.
  apply (two_chunk_extraction Toy.good_lib "game.ssmc" Toy.game None 0 "out" Toy.disk
           1 2 Toy.index (mkLocation 0 4) (mkLocation 4 6)).
  - exact game_on_disk.
  - reflexivity.
  - exact (game_loadable Toy.records).
  - vm_compute. reflexivity.
  - vm_compute. reflexivity.
  - vm_compute. reflexivity.
  - reflexivity.
  - reflexivity.
  - split; [vm_compute; discriminate | vm_compute; reflexivity].
  - split; [vm_compute; discriminate | vm_compute; reflexivity].
  - vm_compute. reflexivity.
  - vm_compute. reflexivity.
  - reflexivity.
  - reflexivity.
  - unfold is_int, INT_MAX. lia.
  - by left.
  - vm_compute. discriminate.
Defined.


(** The same archive with a complete chunk index, when the environment
    makes the write of the second chunk fail (the eighteenth fallible call
    is the write of the first chunk, the twenty-third that of the second):
    the call returns NULL and ["out/a.txt"] is gone, although the first
    four bytes had been written. *)
Example write_fault_on_second_chunk :
  let w := Toy.world [("game.ssmc", Toy.game)] (replicate 22 Pass ++ [Fault 0]) in
  (ssmc_extract_file Toy.good_lib "game.ssmc" None 0 "out" w).1 = None ∧
  fs (ssmc_extract_file Toy.good_lib "game.ssmc" None 0 "out" w).2 !! "out/a.txt" = None ∧
  (ssmc_extract_file Toy.good_lib "game.ssmc" None 0 "out"
     (Toy.world [("game.ssmc", Toy.game)] (replicate 22 Pass))).1 = Some "out/a.txt".
Proof. vm_compute. repeat split. Qed.


(** It fails in a second way when [remove] fails, since the code does not
    look at the result: the chunk index lacks the second chunk, the call
    returns NULL after the first chunk was written, and the earlier
    ["out/a.txt"] has been replaced by a file that holds the first four
    bytes only. *)
Example failed_remove_leaves_partial_file :
  fs Toy.disk_no_unlink !! "out/a.txt" = Some Toy.stale ∧
  (ssmc_extract_file Toy.lib_missing_chunk "game.ssmc" (Some "a.txt") (-1) "out"
     Toy.disk_no_unlink).1 = None ∧
  fs (ssmc_extract_file Toy.lib_missing_chunk "game.ssmc" (Some "a.txt") (-1) "out"
        Toy.disk_no_unlink).2 !! "out/a.txt" = Some ["0"; "1"; "2"; "3"]%byte.
Proof. vm_compute. repeat split. Qed.

(** A failing flush: the environment makes [fclose] fail (the twenty-fourth
    call) with nothing transferred.  The code does not look at the result
    either, and the call returns the path of an empty file. *)
Example failed_flush_leaves_short_file :
  let w := Toy.world [("game.ssmc", Toy.game)] (replicate 23 Pass ++ [Fault 0]) in
  (ssmc_extract_file Toy.good_lib "game.ssmc" None 0 "out" w).1 = Some "out/a.txt" ∧
  fs (ssmc_extract_file Toy.good_lib "game.ssmc" None 0 "out" w).2 !! "out/a.txt" = Some [].
Proof. vm_compute. repeat split. Qed.

(** Two names for one file: when the archive ["a.txt"] is extracted into
    ["."], the output is opened under the name ["./a.txt"], which truncates
    the archive itself.  Whatever becomes of the call, the archive no longer
    holds its bytes. *)
Example output_named_like_the_archive :
  let w := mkWorld {["a.txt" := Toy.game]} Toy.strip_dot [] [] in
  fs w !! file_of w "a.txt" = Some Toy.game ∧
  file_of w "./a.txt" = file_of w "a.txt" ∧
  fs (ssmc_extract_file Toy.good_lib "a.txt" None 0 "." w).2 !! file_of w "a.txt"
    ≠ Some Toy.game.
Proof. vm_compute. repeat split. discriminate. Qed.

(** The lister on ["game.ssmc"] for any non-empty manifest the decoder
    may deliver. *)
Lemma list_of_records (recs : list (FFIFileManifestParent u64)) :
  recs ≠ [] →
  ssmc_list_contents (Toy.lib_of recs) "game.ssmc" 0 Toy.disk =
    ((if to_int (Z.of_nat (length recs)) =? 0 then None
      else Some (entries_of (filename <$> recs)),
      to_int (Z.of_nat (length recs))), Toy.disk).
Proof.
  intros Hne. unfold ssmc_list_contents.
  pose proof (game_loadable recs) as (Hsz & M & Hman & _).
  rewrite (ssmc_list_body_quiet (Toy.lib_of recs) "game.ssmc" Toy.disk Toy.game
             (filename <$> recs) eq_refl game_on_disk Hsz M Hman).
  - by rewrite length_fmap.
  - reflexivity.
  - by destruct recs.
Qed.

(** C10, as worded, fails for a manifest of [2^31] records: the lister
    returns an array and stores [-2^31] as the count. *)
Lemma list_count_wraps :
  ssmc_list_contents (Toy.lib_of Toy.many_records) "game.ssmc" 0 Toy.disk =
    ((Some (entries_of (filename <$> Toy.many_records)), -2147483648), Toy.disk) ∧
  Z.of_nat (length Toy.many_records) = 2147483648.
Proof.
  assert (Z.of_nat (length Toy.many_records) = 2147483648) as Hlen.
  { unfold Toy.many_records. rewrite length_replicate. apply Z2Nat.id. lia. }
  split; [|exact Hlen].
  rewrite list_of_records.
  - rewrite Hlen. reflexivity.
  - intros Hnil. rewrite Hnil in Hlen. discriminate Hlen.
Qed.

End Scenarios.

(** ** The registry under sequences of operations *)

Section RegistrySequences.

Lemma length_registered r :
  registry_wf r → length (registered r) = handler_count r.
Proof.
  intros (Hlen & Hcnt & _). unfold registered. rewrite length_take. lia.
Qed.

Lemma first_supported_find vt slots filename n :
  ∀ i, first_supported vt slots filename i n =
       find_supported vt filename (take n (drop i slots)).
Proof.
  induction n as [|n IH]; intros i; cbn [first_supported].
  - by rewrite take_0.
  - destruct (slots !! i) as [p|] eqn:E.
    + rewrite (drop_S _ _ _ E), firstn_cons. cbn [find_supported].
      by rewrite IH.
    + apply lookup_ge_None in E. by rewrite drop_ge, take_nil.
Qed.

Lemma get_handler_find vt r filename :
  get_handler_for_file vt r (Some filename) = find_supported vt filename (registered r).
Proof.
  unfold get_handler_for_file, registered. by rewrite first_supported_find, drop_0.
Qed.

Lemma find_supported_app vt filename l k :
  NULL ∉ l →
  find_supported vt filename (l ++ k) =
    if N.eqb (find_supported vt filename l) NULL
    then find_supported vt filename k
    else find_supported vt filename l.
Proof.
  induction l as [|p l IH]; intros Hnn; cbn [app find_supported]; [done|].
  destruct (is_supported (vt p) filename).
  - destruct (N.eqb_spec p NULL) as [->|]; [|done].
    destruct Hnn. by left.
  - apply IH. intros ?. apply Hnn. by right.
Qed.

Lemma find_supported_elem vt filename l :
  find_supported vt filename l ≠ NULL →
  find_supported vt filename l ∈ l ∧
  is_supported (vt (find_supported vt filename l)) filename = true.
Proof.
  induction l as [|p l IH]; cbn [find_supported]; [done|].
  destruct (is_supported (vt p) filename) eqn:E.
  - intros _. split; [by left | done].
  - intros Hn. destruct (IH Hn). split; [by right | done].
Qed.

Lemma find_supported_none vt filename l :
  NULL ∉ l → find_supported vt filename l = NULL →
  ∀ p, p ∈ l → is_supported (vt p) filename = false.
Proof.
  induction l as [|q l IH]; intros Hnn Hnone p Hp; [by apply elem_of_nil in Hp|].
  cbn [find_supported] in Hnone.
  destruct (is_supported (vt q) filename) eqn:E.
  - subst q. destruct Hnn. by left.
  - apply elem_of_cons in Hp as [->|Hp]; [done|].
    apply IH; [|done|done]. intros ?. apply Hnn. by right.
Qed.

(** X2.  Registering one more handler never changes which handler serves a file
    name that was served before; a name that no handler served goes to the
    new handler exactly when that handler is not NULL, there was room for
    it, and it accepts the name. *)
Theorem registration_keeps_priority (vt : ptr → ArchiveVTable) (r : Registry)
    (handler : ptr) (filename : string) :
  registry_wf r →
  (get_handler_for_file vt r (Some filename) ≠ NULL →
   get_handler_for_file vt (register_archive_handler handler r) (Some filename) =
     get_handler_for_file vt r (Some filename)) ∧
  (get_handler_for_file vt r (Some filename) = NULL →
   get_handler_for_file vt (register_archive_handler handler r) (Some filename) =
     if decide (handler ≠ NULL ∧ (handler_count r < MAX_HANDLERS)%nat ∧
                is_supported (vt handler) filename = true)
     then handler else NULL).
Proof.
  intros Hwf. rewrite !get_handler_find, (registered_register handler r Hwf).
  pose proof Hwf as (_ & Hcnt & _ & Hnn).
  case_decide as Hc.
  - split; [done|]. intros Hnone. rewrite Hnone.
    case_decide as Hd; [|done]. destruct Hd as (Hh & Hroom & Hsup).
    destruct Hc as [?|[?|Hin]]; [done | lia |].
    rewrite (find_supported_none _ _ _ Hnn Hnone _ Hin) in Hsup. discriminate.
  - rewrite (find_supported_app _ _ _ _ Hnn). cbn [find_supported]. split.
    + intros Hn. by destruct (N.eqb_spec (find_supported vt filename (registered r)) NULL).
    + intros ->. cbn [N.eqb NULL].
      assert (handler ≠ NULL ∧ (handler_count r < MAX_HANDLERS)%nat) as [Hh Hroom].
      { split; [tauto|]. assert (handler_count r ≠ MAX_HANDLERS) by tauto. lia. }
      destruct (is_supported (vt handler) filename) eqn:E.
      * by rewrite decide_True.
      * rewrite decide_False; [done|]. intros (_ & _ & ?). discriminate.
Qed.

Lemma register_each_full hs : ∀ r,
  registry_wf r → handler_count r = MAX_HANDLERS →
  registered (register_each hs r) = registered r.
Proof.
  induction hs as [|h hs IH]; intros r Hwf Hfull; cbn [register_each foldl]; [done|].
  fold (register_each hs (register_archive_handler h r)).
  rewrite (register_noop h r) by (right; left; lia). by apply IH.
Qed.

Lemma register_each_registered hs : ∀ r,
  registry_wf r →
  registered (register_each hs r) =
    take MAX_HANDLERS (registered r ++ first_occurrences (registered r) hs).
Proof.
  induction hs as [|h hs IH]; intros r Hwf.
  - cbn [register_each foldl first_occurrences]. rewrite app_nil_r, take_ge; [done|].
    rewrite length_registered by done. by destruct Hwf as (_ & ? & _).
  - cbn [register_each foldl first_occurrences].
    fold (register_each hs (register_archive_handler h r)).
    pose proof (register_wf h r Hwf) as Hwf'.
    pose proof (registered_register h r Hwf) as Hreg.
    destruct (decide (handler_count r = MAX_HANDLERS)) as [Hfull|Hroom].
    + rewrite (register_noop h r) by (right; left; lia).
      rewrite (register_each_full hs r Hwf Hfull).
      rewrite <- (length_registered r Hwf) in Hfull. rewrite <- Hfull.
      by rewrite take_app_length.
    + rewrite (IH _ Hwf'), Hreg.
      destruct (decide (h = NULL ∨ h ∈ registered r)) as [Hskip|Hnew].
      * rewrite decide_True by tauto. done.
      * rewrite decide_False by tauto. by rewrite <- app_assoc.
Qed.

Lemma register_each_wf hs : ∀ r, registry_wf r → registry_wf (register_each hs r).
Proof.
  induction hs as [|h hs IH]; intros r Hr; [done|].
  cbn [register_each foldl]. apply IH. by apply register_wf.
Qed.

(** X1.  Registering a sequence of handlers into the empty registry leaves, in
    order, the first occurrence of every non-NULL handler of the sequence,
    cut after the fiftieth. *)
Theorem register_sequence (handlers : list ptr) :
  registered (register_each handlers registry_init) =
    take MAX_HANDLERS (first_occurrences [] handlers) ∧
  handler_count (register_each handlers registry_init) =
    (length (first_occurrences [] handlers) `min` MAX_HANDLERS)%nat.
Proof.
  pose proof (register_each_registered handlers registry_init registry_init_wf) as Hreg.
  assert (registered registry_init = []) as Hnil by (unfold registered; by rewrite take_0).
  rewrite Hnil in Hreg. cbn [app] in Hreg. split; [done|].
  pose proof (register_each_wf handlers _ registry_init_wf) as Hwf.
  rewrite <- (length_registered _ Hwf), Hreg, length_take. lia.
Qed.

Lemma shutdown_wf r : registry_wf r → registry_wf (archive_system_shutdown r).
Proof.
  intros (Hlen & Hcnt & _ & _). unfold registry_wf, registered, archive_system_shutdown.
  cbn [archive_handlers handler_count]. rewrite take_0.
  split; [|split; [lia | split; [constructor | by intros ?%elem_of_nil]]].
  rewrite length_app, length_replicate, length_drop. lia.
Qed.

(** X3.  After [archive_system_shutdown] no handler is registered and every slot
    that was in use holds NULL: lookup answers NULL for every name, the
    facade returns NULL without touching the world, and the registry can be
    filled again from the first slot. *)
Theorem shutdown_empties (vt : ptr → ArchiveVTable) (r : Registry) :
  registry_wf r →
  registry_wf (archive_system_shutdown r) ∧
  registered (archive_system_shutdown r) = [] ∧
  (∀ i, (i < handler_count r)%nat →
        archive_handlers (archive_system_shutdown r) !! i = Some NULL) ∧
  (∀ filename, get_handler_for_file vt (archive_system_shutdown r) filename = NULL) ∧
  (∀ path count_in w,
     archive_list_contents vt (archive_system_shutdown r) path count_in w =
       (Returns (None, count_in), w)) ∧
  (∀ path name idx dir w,
     archive_extract_file vt (archive_system_shutdown r) path name idx dir w = (None, w)) ∧
  (∀ handler, handler ≠ NULL →
     registered (register_archive_handler handler (archive_system_shutdown r)) = [handler]).
Proof.
  intros Hwf. pose proof (shutdown_wf r Hwf) as Hwf'.
  assert (registered (archive_system_shutdown r) = []) as Hnil.
  { unfold registered, archive_system_shutdown. cbn [handler_count]. by rewrite take_0. }
  assert (∀ filename, get_handler_for_file vt (archive_system_shutdown r) filename = NULL)
    as Hnone.
  { intros [f|]; [|done]. by rewrite get_handler_find, Hnil. }
  split; [done|]. split; [done|]. split; [|split; [done|split; [|split]]].
  - intros i Hi. unfold archive_system_shutdown. cbn [archive_handlers].
    rewrite lookup_app_l by (rewrite length_replicate; lia).
    by apply lookup_replicate_2.
  - intros path count_in w. unfold archive_list_contents. rewrite Hnone.
    by destruct path.
  - intros path name idx dir w. unfold archive_extract_file. rewrite Hnone.
    by destruct path.
  - intros handler Hh. rewrite (registered_register _ _ Hwf'), Hnil.
    rewrite decide_False; [done|].
    intros [?|[Hc|Hin]]; [done | discriminate Hc | by apply elem_of_nil in Hin].
Qed.

End RegistrySequences.

(** ** Supported-extension table *)

Section SupportedInfo.

Context (vt : ptr → ArchiveVTable).

(** The inner loop appends one pair per extension, or gives up on a failed
    allocation; it is never undefined while the table stays within [2^30]
    pairs, and it changes no file. *)
Lemma collect_extensions_spec name exts :
  ∀ info_list capacity w s w',
    Z.of_nat (length info_list + length exts) ≤ 2 ^ 30 →
    collect_extensions name exts info_list capacity w = (s, w') →
    fs w' = fs w ∧
    (s = InfoNoMem ∨
     ∃ capacity', s = InfoDone (info_list ++ ((λ e, mkInfo e name) <$> exts)) capacity') ∧
    (faults w = [] → s ≠ InfoNoMem ∧ w' = w).
Proof.
  induction exts as [|e rest IH]; intros info_list capacity w s w' Hsize;
    cbn [collect_extensions].
  - intros [= <- <-]. rewrite app_nil_r. split; [done|]. split; [eauto | done].
  - cbn [length] in Hsize. unfold grow_info_list.
    assert (∀ c w1 s1 w1',
              (let '(ok_extension, w2) := next_ok w1 in
               let '(ok_name, w3) := next_ok w2 in
               if ok_extension && ok_name
               then collect_extensions name rest (info_list ++ [mkInfo e name]) c w3
               else (InfoNoMem, w3)) = (s1, w1') →
              fs w1' = fs w1 ∧
              (s1 = InfoNoMem ∨
               ∃ capacity', s1 = InfoDone (info_list ++ ((λ e, mkInfo e name) <$> e :: rest))
                                  capacity') ∧
              (faults w1 = [] → s1 ≠ InfoNoMem ∧ w1' = w1)) as Hadd.
    { intros c w1 s1 w1'. pose proof (next_ok_fs w1) as F1.
      pose proof (next_ok_quiet w1) as Q1.
      destruct (next_ok w1) as [ok1 w2]. pose proof (next_ok_fs w2) as F2.
      pose proof (next_ok_quiet w2) as Q2.
      destruct (next_ok w2) as [ok2 w3]. simpl in F1, F2.
      destruct (ok1 && ok2) eqn:Hok.
      - intros Hrun. apply IH in Hrun; [|rewrite length_app; simpl; lia].
        destruct Hrun as (F & R & Qt). rewrite <- app_assoc in R. cbn [app] in R.
        split; [congruence|]. split; [done|].
        intros Q. specialize (Q1 Q). injection Q1 as -> ->.
        specialize (Q2 Q). injection Q2 as -> ->. by apply Qt.
      - intros [= <- <-]. split; [congruence|]. split; [by left|].
        intros Q. specialize (Q1 Q). injection Q1 as -> ->.
        specialize (Q2 Q). injection Q2 as -> ->. discriminate. }
    destruct (Z.leb_spec capacity (Z.of_nat (length info_list))) as [Hgrow|_].
    + destruct (Z.ltb_spec INT_MAX (capacity * 2)) as [Hover|_].
      { unfold INT_MAX in Hover. lia. }
      pose proof (read_only_alloc w) as FA. pose proof (alloc_quiet w) as QA.
      destruct (alloc w) as [[u|] w1]; simpl in FA.
      * intros Hrun. apply Hadd in Hrun as (F & R & Qt). split; [congruence|].
        split; [done|]. intros Q. specialize (QA Q). simplify_eq. by apply Qt.
      * intros [= <- <-]. split; [done|]. split; [by left|].
        intros Q. specialize (QA Q). discriminate.
    + apply Hadd.
Qed.

Lemma collect_handlers_spec slots n :
  ∀ i info_list capacity w s w',
    (i + n ≤ length slots)%nat →
    Z.of_nat (length info_list +
              length (all_supported_info vt (take n (drop i slots)))) ≤ 2 ^ 30 →
    collect_handlers vt slots i n info_list capacity w = (s, w') →
    fs w' = fs w ∧
    (s = InfoNoMem ∨
     ∃ capacity',
       s = InfoDone (info_list ++ all_supported_info vt (take n (drop i slots))) capacity') ∧
    (faults w = [] → s ≠ InfoNoMem ∧ w' = w).
Proof.
  induction n as [|n IH]; intros i info_list capacity w s w' Hi Hsize;
    cbn [collect_handlers].
  - intros [= <- <-]. rewrite take_0. unfold all_supported_info. cbn.
    rewrite app_nil_r. split; [done|]. split; [eauto | done].
  - destruct (slots !! i) as [handler|] eqn:L.
    2:{ apply lookup_ge_None in L. lia. }
    rewrite (drop_S _ _ _ L), firstn_cons in Hsize |- *.
    unfold all_supported_info in Hsize |- *. cbn [fmap list_fmap concat] in Hsize |- *.
    fold (all_supported_info vt (take n (drop (S i) slots))) in Hsize |- *.
    rewrite length_app in Hsize.
    assert (handler_info vt handler = [] →
            ∀ s0 w0, collect_handlers vt slots (S i) n info_list capacity w = (s0, w0) →
              fs w0 = fs w ∧
              (s0 = InfoNoMem ∨
               ∃ capacity',
                 s0 = InfoDone (info_list ++ handler_info vt handler ++
                                all_supported_info vt (take n (drop (S i) slots))) capacity') ∧
              (faults w = [] → s0 ≠ InfoNoMem ∧ w0 = w)) as Hskip.
    { intros Hempty s0 w0 Hrun. rewrite Hempty in Hsize |- *. cbn [app length] in Hsize |- *.
      apply IH in Hrun; [done | lia | lia]. }
    unfold handler_info in Hskip, Hsize |- *.
    destruct (N.eqb handler NULL); [by apply Hskip|].
    destruct (get_handler_name (vt handler)) as [name|]; [|by apply Hskip].
    destruct (get_supported_extensions (vt handler)) as [exts|]; [|by apply Hskip].
    clear Hskip. rewrite length_fmap in Hsize.
    destruct (collect_extensions name exts info_list capacity w) as [s1 w1] eqn:Hext.
    apply collect_extensions_spec in Hext as (F1 & R1 & Q1); [|lia].
    destruct R1 as [->|(c1 & ->)].
    + intros [= <- <-]. split; [done|]. split; [by left|].
      intros Q. by destruct (Q1 Q).
    + intros Hrun. apply IH in Hrun; [|lia|].
      2:{ rewrite length_app, length_fmap. lia. }
      destruct Hrun as (F & R & Qt). rewrite <- app_assoc in R.
      split; [congruence|]. split; [done|].
      intros Q. destruct (Q1 Q) as [_ ->]. by apply Qt.
Qed.

(** X4.  The table of supported extensions.  A NULL [count] gives NULL and
    nothing else.  Otherwise, while the registered handlers declare at most
    [2^30] extensions in all, the call is defined and changes no file; it
    returns either NULL with [*count = 0], or the pairs (extension, handler
    name) of the registered handlers that have both a name and an
    extension list, in registration order and then in the order of each
    list, with [*count] their number.  Without faults it returns those
    pairs, and NULL exactly when there are none. *)
Theorem supported_info_table (r : Registry) (count : Z) (w : World) :
  registry_wf r →
  Z.of_nat (length (all_supported_info vt (registered r))) ≤ 2 ^ 30 →
  archive_get_all_supported_info vt r None w = (Returns (None, None), w) ∧
  (∀ result w',
     archive_get_all_supported_info vt r (Some count) w = (result, w') →
     fs w' = fs w ∧
     (result = Returns (None, Some 0) ∨
      all_supported_info vt (registered r) ≠ [] ∧
      result = Returns (Some (all_supported_info vt (registered r)),
                        Some (Z.of_nat (length (all_supported_info vt (registered r))))))) ∧
  (faults w = [] →
   archive_get_all_supported_info vt r (Some count) w =
     (Returns (if decide (all_supported_info vt (registered r) = [])
               then (None, Some 0)
               else (Some (all_supported_info vt (registered r)),
                     Some (Z.of_nat (length (all_supported_info vt (registered r)))))),
      w)).
Proof.
  intros (Hlen & Hcnt & _ & _) Hsize. split; [done|].
  set (all := all_supported_info vt (registered r)) in *.
  assert (∀ w1 s w2,
            collect_handlers vt (archive_handlers r) 0 (handler_count r) [] 8 w1 = (s, w2) →
            fs w2 = fs w1 ∧ (s = InfoNoMem ∨ ∃ c, s = InfoDone all c) ∧
            (faults w1 = [] → s ≠ InfoNoMem ∧ w2 = w1)) as Hloop.
  { intros w1 s w2 Hrun.
    apply collect_handlers_spec in Hrun; rewrite ?drop_0; [by rewrite drop_0 in Hrun | lia | done]. }
  unfold archive_get_all_supported_info. split.
  - intros result w'.
    destruct (Nat.eqb_spec (handler_count r) 0) as [Hz|Hnz].
    { intros [= <- <-]. split; [done | by left]. }
    pose proof (read_only_alloc w) as FA.
    destruct (alloc w) as [[u|] w1]; simpl in FA.
    2:{ intros [= <- <-]. split; [done | by left]. }
    destruct (collect_handlers _ _ _ _ _ _ w1) as [s w2] eqn:Hrun.
    destruct (Hloop _ _ _ Hrun) as (F & [->|(c & ->)] & _).
    { intros [= <- <-]. split; [congruence | by left]. }
    destruct (Nat.eqb_spec (length all) 0) as [Hz|Hpos].
    { intros [= <- <-]. split; [congruence | by left]. }
    pose proof (read_only_alloc w2) as FA2.
    destruct (alloc w2) as [[u'|] w3]; simpl in FA2; intros [= <- <-].
    + split; [congruence|]. right. split; [|done]. intros E. by rewrite E in Hpos.
    + split; [congruence | by left].
  - intros Q.
    destruct (Nat.eqb_spec (handler_count r) 0) as [Hz|Hnz].
    { assert (all = []) as ->; [|done].
      unfold all, registered. by rewrite Hz, take_0. }
    rewrite (alloc_quiet _ Q).
    destruct (collect_handlers _ _ _ _ _ _ w) as [s w2] eqn:Hrun.
    destruct (Hloop _ _ _ Hrun) as (_ & R & Qt). destruct (Qt Q) as [Hs ->].
    destruct R as [->|(c & ->)]; [done|].
    destruct (Nat.eqb_spec (length all) 0) as [Hz|Hpos].
    { apply nil_length_inv in Hz. by rewrite Hz. }
    rewrite (alloc_quiet _ Q). rewrite decide_False; [done|].
    intros E. by rewrite E in Hpos.
Qed.

End SupportedInfo.

(** ** Reconstruction of a file, chunk by chunk *)

Section Reconstruction.

Context {H : Type} (store : ChunkStore H).
Context (decompress : list byte → Z → list byte → Z → Z → option (list byte)).

Lemma fseek_Some_nonneg f off w f' w' :
  fseek f off w = (Some f', w') → 0 ≤ off.
Proof.
  unfold fseek. destruct (next_ok w) as [ok w1].
  destruct (Z.leb_spec 0 off); [done|]. by rewrite andb_false_r.
Qed.

Lemma fread_exact_length f n w got f' w' :
  fread_exact f n w = (Some (got, f'), w') → Z.of_nat (length got) = n.
Proof.
  unfold fread_exact. destruct (fread f n w) as [[got0 f0] w0].
  destruct (Z.eqb_spec (Z.of_nat (length got0)) n); [|discriminate].
  by intros [= <- _ _].
Qed.

(** [fwrite] reports at most the number of bytes it was given, and when
    it reports that number, all of them were appended. *)
Lemma fwrite_count buf f w : 0 ≤ (fwrite buf f w).1 ≤ Z.of_nat (length buf).
Proof.
  unfold fwrite. destruct (next_outcome w) as [[|k] w1]; cbn [fst]; [lia|].
  rewrite length_take. lia.
Qed.

Lemma fwrite_full buf f w :
  (fwrite buf f w).1 = Z.of_nat (length buf) →
  fs (fwrite buf f w).2 = <[f_file f := default [] (fs w !! f_file f) ++ buf]> (fs w).
Proof.
  unfold fwrite. pose proof (next_outcome_fs w) as E.
  destruct (next_outcome w) as [[|k] w1]; cbn [fst snd fs set_fs] in *; rewrite E; [done|].
  rewrite length_take. intros Hlen. rewrite take_ge by lia. done.
Qed.

(** An iteration of the chunk loop that goes through has appended the
    chunk's payload to the output file and changed nothing else. *)
Lemma write_chunk_Some af header handle dict out_file meta w af' w' data old :
  write_chunk store decompress af header handle dict out_file meta w = (Some af', w') →
  fs w !! f_file af = Some data → f_file af ≠ f_file out_file →
  fs w !! f_file out_file = Some old →
  ∃ p, chunk_payload store decompress data header handle dict meta = Some p ∧
       f_file af' = f_file af ∧
       fs w' !! f_file out_file = Some (old ++ p) ∧
       ∀ q, q ≠ f_file out_file → fs w' !! q = fs w !! q.
Proof.
  unfold write_chunk, chunk_payload. intros Hrun L Hne Lout.
  destruct (lookup_chunk_location store handle (chunk_hash meta)) as [loc|]; [|discriminate].
  io_step Hrun as u1 w1 E1. apply alloc_Some in E1 as F1.
  io_step Hrun as u2 w2 E2. apply alloc_Some in E2 as F2.
  io_step Hrun as f3 w3 E3. pose proof (fseek_Some_nonneg _ _ _ _ _ E3) as Hpos.
  apply fseek_Some in E3 as (-> & F3).
  io_step Hrun as [comp_buf f4] w4 E4. pose proof (fread_exact_length _ _ _ _ _ _ E4) as Hlen.
  apply fread_exact_Some in E4 as (Hcomp & P4 & F4). cbn [f_file f_pos] in Hcomp, P4.
  assert (fs w3 = fs w) as G3 by congruence.
  assert (fs w4 = fs w) as G4 by congruence.
  rewrite G3, L in Hcomp. change (default [] (Some data)) with data in Hcomp.
  fold (chunk_bytes data header loc) in Hcomp. subst comp_buf.
  destruct (decompress _ _ _ _ _) as [stored|]; [|discriminate].
  destruct (Z.leb_spec 0 (to_long (to_u64 (data_offset header + loc_offset loc)))); [|lia].
  rewrite Hlen, Z.eqb_refl. cbn [andb].
  set (buf := resize (Z.to_nat (chunk_length meta)) "000"%byte stored) in *.
  assert (length buf = Z.to_nat (chunk_length meta)) as Hbuf by apply length_resize.
  pose proof (fwrite_full buf out_file w4) as Hfull.
  pose proof (fwrite_count buf out_file w4) as Hcount.
  destruct (fwrite buf out_file w4) as [written w5]. cbn [fst snd] in Hfull, Hcount.
  destruct (Z.eqb_spec written (chunk_length meta)) as [Hw|]; [|discriminate].
  injection Hrun as <- <-.
  destruct (Z.leb_spec 0 (chunk_length meta)); [|lia].
  exists buf. split; [done|]. split; [done|].
  rewrite Hfull by lia. rewrite G4, Lout. cbn [default].
  split; [by rewrite lookup_insert_eq|].
  intros q Hq. by rewrite lookup_insert_ne.
Qed.

(** The chunk loop, when it completes, has appended the payloads of all
    descriptors in their order. *)
Lemma write_chunks_Some header handle dict out_file data chunks :
  ∀ af w u w' old,
    write_chunks store decompress af header handle dict out_file chunks w = (Some u, w') →
    fs w !! f_file af = Some data → f_file af ≠ f_file out_file →
    fs w !! f_file out_file = Some old →
    ∃ payloads,
      mapM (chunk_payload store decompress data header handle dict) chunks = Some payloads ∧
      fs w' !! f_file out_file = Some (old ++ concat payloads) ∧
      ∀ q, q ≠ f_file out_file → fs w' !! q = fs w !! q.
Proof.
  induction chunks as [|meta rest IH]; intros af w u w' old; cbn [write_chunks].
  - unfold io_ret. intros [= <- <-] _ _ Lout. exists []. cbn. by rewrite app_nil_r.
  - intros Hrun L Hne Lout. io_step Hrun as af1 w1 E1.
    apply (write_chunk_Some _ _ _ _ _ _ _ _ _ data old) in E1 as (p & Hp & P1 & Lout1 & Fr1);
      [|done..].
    apply (IH _ _ _ _ (old ++ p)) in Hrun as (payloads & Hm & Lout2 & Fr2).
    + exists (p :: payloads). cbn. rewrite Hp, Hm. cbn.
      split; [done|]. split; [by rewrite Lout2, <- app_assoc|].
      intros q Hq. by rewrite Fr2, Fr1.
    + rewrite P1, Fr1 by done. done.
    + by rewrite P1.
    + done.
Qed.

Lemma write_chunk_payload_quiet af header handle dict out_file meta w data p old :
  faults w = [] →
  chunk_payload store decompress data header handle dict meta = Some p →
  fs w !! f_file af = Some data → fs w !! f_file out_file = Some old →
  ∃ af' w',
    write_chunk store decompress af header handle dict out_file meta w = (Some af', w') ∧
    f_file af' = f_file af ∧ faults w' = [] ∧
    fs w' = <[f_file out_file := old ++ p]> (fs w) ∧
    w' = set_fs (fs w') w.
Proof.
  unfold chunk_payload, write_chunk. intros Q Hp L Lout.
  destruct (lookup_chunk_location store handle (chunk_hash meta)) as [loc|]; [|discriminate].
  destruct (Z.leb_spec 0 (to_long (to_u64 (data_offset header + loc_offset loc)))) as [Hpos|];
    [|discriminate].
  destruct (Z.eqb_spec (Z.of_nat (length (chunk_bytes data header loc))) (loc_length loc))
    as [Hlen|]; [|discriminate].
  destruct (Z.leb_spec 0 (chunk_length meta)) as [Hc|]; [|discriminate].
  cbn [andb] in Hp.
  destruct (decompress _ _ _ _ _) as [stored|] eqn:Hd; [|discriminate].
  injection Hp as <-. unfold io_bind.
  rewrite !(alloc_quiet _ Q), (fseek_quiet _ _ _ Q Hpos). cbn [f_file f_pos].
  rewrite (fread_exact_quiet (mkFILE (f_file af) _) _ _ data Q L) by exact Hlen.
  cbn [f_file f_pos]. fold (chunk_bytes data header loc). rewrite Hd.
  unfold fwrite. rewrite (next_outcome_quiet _ Q), length_resize, Z2Nat.id, Z.eqb_refl by done.
  eexists _, _. split; [reflexivity|]. cbn [f_file fs faults set_fs].
  by rewrite Lout.
Qed.

Lemma write_chunks_quiet header handle dict out_file data chunks :
  ∀ af w payloads old,
    faults w = [] →
    mapM (chunk_payload store decompress data header handle dict) chunks = Some payloads →
    fs w !! f_file af = Some data → f_file af ≠ f_file out_file →
    fs w !! f_file out_file = Some old →
    ∃ w',
      write_chunks store decompress af header handle dict out_file chunks w = (Some tt, w') ∧
      faults w' = [] ∧
      fs w' = <[f_file out_file := old ++ concat payloads]> (fs w) ∧
      w' = set_fs (fs w') w.
Proof.
  induction chunks as [|meta rest IH]; intros af w payloads old Q Hm L Hne Lout;
    cbn [write_chunks].
  - injection Hm as <-. exists w. cbn. rewrite app_nil_r.
    split; [done|]. split; [done|]. split; [by rewrite insert_id | by destruct w].
  - cbn in Hm.
    destruct (chunk_payload store decompress data header handle dict meta) as [p|] eqn:Hp;
      [|discriminate].
    destruct (mapM _ rest) as [ps|] eqn:Hps; [|discriminate]. injection Hm as <-.
    destruct (write_chunk_payload_quiet af header handle dict out_file meta w data p old
                Q Hp L Lout) as (af1 & w1 & E1 & P1 & Q1 & F1 & EQ1).
    unfold io_bind. rewrite E1.
    destruct (IH af1 w1 ps (old ++ p) Q1 eq_refl) as (w2 & E2 & Q2 & F2 & EQ2).
    + rewrite P1, F1. by rewrite lookup_insert_ne.
    + by rewrite P1.
    + rewrite F1. by rewrite lookup_insert_eq.
    + exists w2. split; [done|]. split; [done|]. split.
      * rewrite F2, F1, insert_insert_eq. cbn. by rewrite app_assoc.
      * rewrite EQ2 at 1. by rewrite EQ1.
Qed.

(** A successful [extract_generic] wrote the reconstruction of the
    requested file to [target_dir/<file name>] and changed no other file;
    what the file holds in the end is the reconstruction, or a prefix of
    it if the flush in [fclose] failed. *)
Lemma extract_generic_content af header man_buf idx_buf dict name idx dir w out w' data :
  extract_generic store decompress af header man_buf idx_buf dict name idx dir w
    = (Some out, w') →
  fs w !! f_file af = Some data → f_file af ≠ file_of w out →
  ∃ fname content kept,
    reconstruct store decompress data header man_buf idx_buf dict name idx
      = Some (fname, content) ∧
    out = dir +:+ "/" +:+ fname ∧
    fs w' !! file_of w out = Some kept ∧ kept `prefix_of` content ∧
    file_of w' = file_of w ∧
    ∀ q, q ≠ file_of w out → fs w' !! q = fs w !! q.
Proof.
  unfold extract_generic, reconstruct. intros Hrun L Hne.
  destruct (parse_file_metadata _ _ _) as [p_manifest|]; [|discriminate].
  destruct (prepare_chunk_index _ _ _) as [handle|]; [|discriminate].
  destruct (resolve_target _ _ _) as [target|]; [|discriminate].
  pose proof (read_only_alloc w) as FA. pose proof (env_kept_alloc w) as [N1 U1].
  destruct (alloc w) as [[u|] w1]; simpl in FA, N1, U1; [|discriminate].
  pose proof (env_kept_fopen_wb (output_path_of dir target) w1) as [N2 U2].
  destruct (fopen_wb (output_path_of dir target) w1) as [[out_file|] w2] eqn:E2;
    [|discriminate].
  simpl in N2, U2. apply fopen_wb_Some in E2 as [-> F2]. rewrite N1 in *.
  set (file := file_of w (output_path_of dir target)) in *.
  pose proof (env_kept_write_chunks store decompress header handle dict (mkFILE file 0)
                (chunk_metadata target) af w2) as [N3 U3].
  destruct (write_chunks _ _ _ _ _ _ _ _ w2) as [[u'|] w3] eqn:Hrec; [|discriminate].
  simpl in N3, U3. injection Hrun as <- <-. fold file in Hne |- *.
  apply (write_chunks_Some _ _ _ _ data _ _ _ _ _ []) in Hrec
    as (payloads & Hm & Lfinal & Fr).
  - rewrite Hm. cbn [f_file app] in Lfinal, Fr.
    destruct (fclose_prefix (mkFILE file 0) w3 _ Lfinal) as (kept & Lk & Hk).
    pose proof (fclose_env (mkFILE file 0) w3) as [N4 U4].
    exists (filename target), (concat payloads), kept.
    split; [done|]. split; [done|]. split; [done|]. split; [done|].
    split; [congruence|].
    intros q Hq. rewrite fclose_other, Fr, F2, FA by done. by rewrite lookup_insert_ne.
  - rewrite F2, FA. by rewrite lookup_insert_ne.
  - done.
  - rewrite F2. cbn [f_file]. by rewrite lookup_insert_eq.
Qed.

(** Without faults, [extract_generic] succeeds whenever the requested file
    can be reconstructed from the sections and the output is not the
    archive. *)
Lemma extract_generic_quiet af header man_buf idx_buf dict name idx dir w data fname content :
  faults w = [] →
  reconstruct store decompress data header man_buf idx_buf dict name idx
    = Some (fname, content) →
  fs w !! f_file af = Some data → f_file af ≠ file_of w (dir +:+ "/" +:+ fname) →
  extract_generic store decompress af header man_buf idx_buf dict name idx dir w
    = (Some (dir +:+ "/" +:+ fname),
       set_fs (<[file_of w (dir +:+ "/" +:+ fname) := content]> (fs w)) w).
Proof.
  unfold extract_generic, reconstruct. intros Q Hrec L Hne.
  destruct (parse_file_metadata _ _ _) as [p_manifest|]; [|discriminate].
  destruct (prepare_chunk_index _ _ _) as [handle|]; [|discriminate].
  destruct (resolve_target _ _ _) as [target|]; [|discriminate].
  destruct (mapM _ _) as [payloads|] eqn:Hm; [|discriminate].
  injection Hrec as <- <-. rewrite (alloc_quiet _ Q).
  change (output_path_of dir target) with (dir +:+ "/" +:+ filename target).
  set (out := dir +:+ "/" +:+ filename target) in *.
  unfold fopen_wb. rewrite (next_ok_quiet _ Q).
  set (file := file_of w out) in *.
  destruct (write_chunks_quiet header handle dict (mkFILE file 0) data
              (chunk_metadata target) af (set_fs (<[file:=[]]> (fs w)) w) payloads []
              Q Hm) as (w2 & E2 & Q2 & F2 & EQ2).
  - cbn [fs set_fs]. by rewrite lookup_insert_ne.
  - done.
  - cbn [fs f_file set_fs]. by rewrite lookup_insert_eq.
  - rewrite E2, (fclose_quiet _ _ Q2). f_equal. rewrite EQ2, F2.
    cbn [fs f_file app set_fs]. unfold set_fs. cbn [file_of faults unlinks fs].
    by rewrite insert_insert_eq.
Qed.

(** So a successful call in a world without faults left the whole
    reconstruction in the output. *)
Lemma extract_generic_exact af header man_buf idx_buf dict name idx dir w out w' data :
  extract_generic store decompress af header man_buf idx_buf dict name idx dir w
    = (Some out, w') →
  faults w = [] → fs w !! f_file af = Some data → f_file af ≠ file_of w out →
  ∃ fname content,
    reconstruct store decompress data header man_buf idx_buf dict name idx
      = Some (fname, content) ∧
    out = dir +:+ "/" +:+ fname ∧
    w' = set_fs (<[file_of w out := content]> (fs w)) w.
Proof.
  intros Hrun Q L Hne.
  destruct (extract_generic_content _ _ _ _ _ _ _ _ _ _ _ data Hrun L Hne)
    as (fname & content & kept & Hrec & -> & _).
  exists fname, content. split; [done|]. split; [done|].
  rewrite (extract_generic_quiet _ _ _ _ _ _ _ _ _ data fname content Q Hrec L Hne) in Hrun.
  by injection Hrun as <-.
Qed.

Lemma resolve_target_elem (manifests : list (FFIFileManifestParent H)) name idx target :
  resolve_target manifests name idx = Some target → target ∈ manifests.
Proof.
  unfold resolve_target. destruct (_ && _).
  - intros L. by eapply list_elem_of_lookup_2.
  - destruct name as [n|]; [|discriminate].
    intros (earlier & later & -> & _)%find_by_name_Some.
    rewrite elem_of_app. right. by left.
Qed.

(** The record at position [i] is the one index [i] selects. *)
Lemma resolve_target_at (manifests : list (FFIFileManifestParent H)) name (i : nat) m :
  manifests !! i = Some m → Z.of_nat i ≤ INT_MAX →
  resolve_target manifests name (Z.of_nat i) = Some m.
Proof.
  intros L Hi.
  destruct (resolve_target_in_bounds manifests name (Z.of_nat i)) as [-> _].
  - unfold is_int, INT_MAX in *. lia.
  - apply lookup_lt_Some in L. lia.
  - by rewrite Nat2Z.id.
Qed.


Lemma payload_length data header handle dict meta p :
  chunk_payload store decompress data header handle dict meta = Some p →
  0 ≤ chunk_length meta ∧ Z.of_nat (length p) = chunk_length meta.
Proof.
  unfold chunk_payload.
  destruct (lookup_chunk_location _ _ _) as [loc|]; [|discriminate].
  destruct (Z.leb_spec 0 (chunk_length meta)) as [Hc|]; [|by rewrite andb_false_r].
  destruct (_ && _); [|discriminate].
  destruct (decompress _ _ _ _ _) as [stored|]; [|discriminate].
  intros [= <-]. rewrite length_resize. lia.
Qed.

Lemma payloads_length data header handle dict chunks :
  ∀ payloads,
    mapM (chunk_payload store decompress data header handle dict) chunks = Some payloads →
    Forall (λ meta, 0 ≤ chunk_length meta) chunks ∧
    Z.of_nat (length (concat payloads)) =
      foldr (λ meta total, chunk_length meta + total) 0 chunks.
Proof.
  induction chunks as [|meta rest IH]; intros payloads Hm.
  - injection Hm as <-. split; [constructor | done].
  - cbn in Hm.
    destruct (chunk_payload store decompress data header handle dict meta) as [p|] eqn:Hp;
      [|discriminate].
    destruct (mapM _ rest) as [ps|] eqn:Hps; [|discriminate]. injection Hm as <-.
    apply payload_length in Hp as (Hc & Hl). destruct (IH ps eq_refl) as (Hall & Hsum).
    split; [by constructor|]. cbn. rewrite length_app. lia.
Qed.

(** X14.  The size of an extracted file.  When [extract_u64] or
    [extract_u128] (the two instances of [extract_generic]) returns a path
    that does not name the archive itself, the request resolved to a
    record of the decoded manifest, every chunk descriptor of that record
    declares a non-negative length, and the file at the path has at most
    as many bytes as the descriptors declare in all: exactly as many in a
    world without faults, and possibly fewer when the flush in [fclose],
    whose result the code does not look at, fails. *)
Theorem extracted_size (af : FILE) (header : FileHeader)
    (man_buf idx_buf dict : list byte) (name : option string) (idx : Z)
    (dir : string) (w : World) (out : string) (w' : World) (data : list byte) :
  extract_generic store decompress af header man_buf idx_buf dict name idx dir w
    = (Some out, w') →
  fs w !! f_file af = Some data → f_file af ≠ file_of w out →
  ∃ p_manifest target written,
    parse_file_metadata store man_buf (man_length header) = Some p_manifest ∧
    resolve_target p_manifest name idx = Some target ∧
    out = output_path_of dir target ∧
    fs w' !! file_of w out = Some written ∧
    Forall (λ meta, 0 ≤ chunk_length meta) (chunk_metadata target) ∧
    Z.of_nat (length written) ≤ declared_size target ∧
    (faults w = [] → Z.of_nat (length written) = declared_size target).
Proof.
  intros Hrun L Hne.
  pose proof (extract_generic_content _ _ _ _ _ _ _ _ _ _ _ data Hrun L Hne)
    as (fname & content & kept & Hrec & -> & Lo & Hk & _).
  assert (faults w = [] → kept = content) as Hq.
  { intros Q.
    destruct (extract_generic_exact _ _ _ _ _ _ _ _ _ _ _ data Hrun Q L Hne)
      as (fname' & content' & Hrec' & _ & ->).
    rewrite Hrec in Hrec'. injection Hrec' as _ <-.
    cbn [fs set_fs] in Lo. rewrite lookup_insert_eq in Lo. by injection Lo. }
  unfold reconstruct in Hrec.
  destruct (parse_file_metadata _ _ _) as [p_manifest|] eqn:Hp; [|discriminate].
  destruct (prepare_chunk_index _ _ _) as [handle|]; [|discriminate].
  destruct (resolve_target _ _ _) as [target|] eqn:Ht; [|discriminate].
  destruct (mapM _ _) as [payloads|] eqn:Hm; [|discriminate].
  injection Hrec as <- <-.
  apply payloads_length in Hm as (Hall & Hsum).
  exists p_manifest, target, kept.
  rewrite Ht. unfold declared_size. repeat split; try done.
  - apply prefix_length in Hk. lia.
  - intros Q. rewrite (Hq Q). done.
Qed.

End Reconstruction.
(** ** The SSMC handler: what extraction and listing produce *)

Section SsmcContent.

Context (lib : SpriteShrink).

(** A call of the extractor that returns a path, seen from the archive's
    bytes. *)
Lemma ssmc_extract_content path name idx dir w out w' :
  ssmc_extract_file lib path name idx dir w = (Some out, w') →
  file_of w path ≠ file_of w out →
  ∃ data fname content kept,
    fs w !! file_of w path = Some data ∧
    archive_content lib data name idx = Some (fname, content) ∧
    out = dir +:+ "/" +:+ fname ∧
    fs w' !! file_of w out = Some kept ∧ kept `prefix_of` content ∧
    (faults w = [] → w' = set_fs (<[file_of w out := content]> (fs w)) w) ∧
    file_of w' = file_of w ∧
    ∀ q, q ≠ file_of w out → fs w' !! q = fs w !! q.
Proof.
  rewrite ssmc_extract_file_run. intros Hrun Hne.
  pose proof (load_sections_env lib path w) as [N1 _].
  pose proof (load_sections_idle lib path w) as I1.
  destruct (load_sections lib path w) as [[s|] w1] eqn:Hload; [|discriminate].
  simpl in N1, I1.
  apply load_sections_Some in Hload as (data & L & F & P & Hh & _ & Hm & Hi & Hd).
  rewrite Hh in Hi, Hd. rewrite Hh, Hm, Hi, Hd in Hrun.
  assert (fs w1 !! f_file (s_file s) = Some data) as L1 by (by rewrite P, F).
  assert (f_file (s_file s) ≠ file_of w1 out) as Hne1 by (by rewrite P, N1).
  assert (∀ {H} (store : ChunkStore H),
            extract_generic store (decompress_chunk_c lib) (s_file s)
              (archive_header lib data) (manifest_bytes lib data)
              (section_bytes data (chunk_index_offset (archive_header lib data))
                 (chunk_index_length (archive_header lib data)))
              (section_bytes data (dict_offset (archive_header lib data))
                 (dict_length (archive_header lib data)))
              name idx dir w1 = (Some out, w') →
            ∃ fname content kept,
              reconstruct store (decompress_chunk_c lib) data (archive_header lib data)
                (manifest_bytes lib data)
                (section_bytes data (chunk_index_offset (archive_header lib data))
                   (chunk_index_length (archive_header lib data)))
                (section_bytes data (dict_offset (archive_header lib data))
                   (dict_length (archive_header lib data)))
                name idx = Some (fname, content) ∧
              out = dir +:+ "/" +:+ fname ∧
              fs w' !! file_of w out = Some kept ∧ kept `prefix_of` content ∧
              (faults w = [] → w' = set_fs (<[file_of w out := content]> (fs w)) w) ∧
              file_of w' = file_of w ∧
              ∀ q, q ≠ file_of w out → fs w' !! q = fs w !! q) as Hgen.
  { intros H store Hgo.
    destruct (extract_generic_content _ _ _ _ _ _ _ _ _ _ _ _ _ data Hgo L1 Hne1)
      as (fname & content & kept & Hrec & Ho & Lo & Hk & N & Fr).
    exists fname, content, kept.
    split; [done|]. split; [done|]. split; [by rewrite <- N1|]. split; [done|].
    split; [|split; [congruence|]].
    - intros Q. specialize (I1 Q). subst w1.
      destruct (extract_generic_exact _ _ _ _ _ _ _ _ _ _ _ _ _ data Hgo Q L1 Hne1)
        as (fname' & content' & Hrec' & _ & ->).
      rewrite Hrec in Hrec'. by injection Hrec' as _ <-.
    - intros q Hq. rewrite <- N1 in Hq. by rewrite Fr, F. }
  unfold archive_content. cbv zeta.
  destruct (hash_type (archive_header lib data) =? 1) eqn:E1.
  { apply Hgen in Hrun as (fname & content & kept & Hrec & Hrest).
    exists data, fname, content, kept. by rewrite E1. }
  destruct (hash_type (archive_header lib data) =? 2) eqn:E2; [|discriminate].
  apply Hgen in Hrun as (fname & content & kept & Hrec & Hrest).
  exists data, fname, content, kept. by rewrite E1, E2.
Qed.

(** X10.  Whatever faults occur, a call of the extractor that returns a
    path which does not name the archive itself has written to
    [target_dir/<file name>] the reconstruction of the requested file: the
    decompressed buffers of the record's chunks, concatenated in
    descriptor order.  The file holds a prefix of these bytes, and all of
    them in a world without faults (the code does not look at the result
    of [fclose], so a failing flush can leave the file short); no other
    file has changed. *)
Theorem extraction_content (path : string) (name : option string) (idx : Z)
    (dir : string) (w : World) (out : string) (w' : World) :
  ssmc_extract_file lib path name idx dir w = (Some out, w') →
  file_of w path ≠ file_of w out →
  ∃ data fname content kept,
    fs w !! file_of w path = Some data ∧
    archive_content lib data name idx = Some (fname, content) ∧
    out = dir +:+ "/" +:+ fname ∧
    fs w' !! file_of w out = Some kept ∧ kept `prefix_of` content ∧
    (faults w = [] → kept = content) ∧
    ∀ q, q ≠ file_of w out → fs w' !! q = fs w !! q.
Proof.
  intros Hrun Hne.
  destruct (ssmc_extract_content _ _ _ _ _ _ _ Hrun Hne)
    as (data & fname & content & kept & L & Hc & Ho & Lo & Hk & Hq & _ & Fr).
  exists data, fname, content, kept.
  split; [done|]. split; [done|]. split; [done|]. split; [done|]. split; [done|].
  split; [|done].
  intros Q. rewrite (Hq Q) in Lo. cbn [fs set_fs] in Lo.
  rewrite lookup_insert_eq in Lo. by injection Lo.
Qed.

(** X11.  Without faults, the extractor succeeds on every archive that
    loads and from which the requested file can be reconstructed, for any
    number of chunks (a record without chunks gives an empty file), as
    long as [target_dir/<file name>] does not name the archive itself: the
    file there is created or replaced and holds the reconstruction, and
    nothing else changes. *)
Theorem extraction_succeeds (path : string) (data : list byte)
    (name : option string) (idx : Z) (dir : string) (w : World)
    (fname : string) (content : list byte) :
  faults w = [] → fs w !! file_of w path = Some data → loadable lib data →
  archive_content lib data name idx = Some (fname, content) →
  file_of w path ≠ file_of w (dir +:+ "/" +:+ fname) →
  ssmc_extract_file lib path name idx dir w =
    (Some (dir +:+ "/" +:+ fname),
     set_fs (<[file_of w (dir +:+ "/" +:+ fname) := content]> (fs w)) w).
Proof.
  intros Q L Hload Hc Hne.
  rewrite ssmc_extract_file_run, (load_sections_quiet lib path w data Q L Hload).
  unfold loaded. cbn [s_header s_file s_manifest s_chunk_index s_dictionary].
  unfold archive_content in Hc. cbv zeta in Hc.
  destruct (hash_type (archive_header lib data) =? 1).
  { by apply (extract_generic_quiet _ _ _ _ _ _ _ _ _ _ _ data). }
  destruct (hash_type (archive_header lib data) =? 2); [|discriminate].
  by apply (extract_generic_quiet _ _ _ _ _ _ _ _ _ _ _ data).
Qed.

(** X12.  Extracting the same file twice, into the same or into another
    directory (neither output naming the archive): both outputs hold
    prefixes of one content, the reconstruction of the file, and that
    content itself when no fault occurs; and the first output is still
    there after the second call when the two paths name different
    files. *)
Theorem extraction_deterministic (path : string) (name : option string) (idx : Z)
    (dir1 dir2 : string) (w w1 w2 : World) (out1 out2 : string) :
  ssmc_extract_file lib path name idx dir1 w = (Some out1, w1) →
  ssmc_extract_file lib path name idx dir2 w1 = (Some out2, w2) →
  file_of w path ≠ file_of w out1 → file_of w path ≠ file_of w out2 →
  ∃ content kept1 kept2,
    fs w1 !! file_of w out1 = Some kept1 ∧ fs w2 !! file_of w out2 = Some kept2 ∧
    kept1 `prefix_of` content ∧ kept2 `prefix_of` content ∧
    (faults w = [] → kept1 = content ∧ kept2 = content) ∧
    (file_of w out1 ≠ file_of w out2 → fs w2 !! file_of w out1 = Some kept1).
Proof.
  intros H1 H2 Hn1 Hn2.
  apply ssmc_extract_content in H1
    as (data & f1 & c1 & k1 & L & Hc1 & -> & Lo1 & Hk1 & Hq1 & N1 & Fr1); [|done].
  apply ssmc_extract_content in H2
    as (data' & f2 & c2 & k2 & L' & Hc2 & -> & Lo2 & Hk2 & Hq2 & N2 & Fr2);
    [|by rewrite N1].
  rewrite N1 in *. rewrite Fr1, L in L' by done. injection L' as <-.
  rewrite Hc1 in Hc2. injection Hc2 as <- <-.
  exists c1, k1, k2.
  split; [done|]. split; [done|]. split; [done|]. split; [done|]. split.
  - intros Q. assert (faults w1 = []) as Q1 by (by rewrite (Hq1 Q)).
    rewrite (Hq1 Q) in Lo1. rewrite (Hq2 Q1) in Lo2. cbn [fs set_fs] in Lo1, Lo2.
    rewrite lookup_insert_eq in Lo1, Lo2. split; congruence.
  - intros Hd. by rewrite Fr2.
Qed.

(** X13.  What the handler never does: the lister changes no file, and the
    extractor, successful or not, changes no file other than the one
    that [target_dir/<file name>] names, for the file name of a record of
    the archive's manifest. *)
Theorem handler_touches_only_output (path : string) (name : option string)
    (idx : Z) (dir : string) (count_in : Z) (w : World) :
  fs (ssmc_list_contents lib path count_in w).2 = fs w ∧
  (fs (ssmc_extract_file lib path name idx dir w).2 = fs w ∨
   ∃ data names fname,
     fs w !! file_of w path = Some data ∧ manifest_names lib data = Some names ∧
     fname ∈ names ∧
     ∀ q, q ≠ file_of w (dir +:+ "/" +:+ fname) →
          fs (ssmc_extract_file lib path name idx dir w).2 !! q = fs w !! q).
Proof.
  split.
  { unfold ssmc_list_contents. pose proof (ssmc_list_body_read_only lib path w) as RO.
    by destruct (ssmc_list_body lib path w) as [[[items len]|] w1]. }
  rewrite ssmc_extract_file_run.
  pose proof (load_sections_read_only lib path w) as RO.
  pose proof (load_sections_env lib path w) as [N1 _].
  destruct (load_sections lib path w) as [[s|] w1] eqn:Hload; simpl in RO, N1; [|by left].
  apply load_sections_Some in Hload as (data & L & _ & _ & Hh & _ & Hm & _).
  assert (∀ {H} (store : ChunkStore H) r w2,
            extract_generic store (decompress_chunk_c lib) (s_file s) (s_header s)
              (s_manifest s) (s_chunk_index s) (s_dictionary s) name idx dir w1 = (r, w2) →
            fs w2 = fs w ∨
            ∃ ms target,
              parse_file_metadata store (manifest_bytes lib data)
                (man_length (archive_header lib data)) = Some ms ∧
              target ∈ ms ∧
              ∀ q, q ≠ file_of w (dir +:+ "/" +:+ filename target) →
                   fs w2 !! q = fs w !! q) as Hgen.
  { intros H store [out|] w2 Hrun.
    - apply extract_generic_Some in Hrun as (ms & target & Hp & Hr & -> & _ & Fr).
      right. exists ms, target. rewrite <- Hm, <- Hh. split; [done|].
      split; [by eapply resolve_target_elem|].
      intros q Hq. rewrite N1 in Fr. by rewrite Fr, RO.
    - apply extract_generic_None in Hrun
        as [F|(ms & handle & target & Hp & _ & Hr & Fr & _)].
      + left. congruence.
      + right. exists ms, target. rewrite <- Hm, <- Hh. split; [done|].
        split; [by eapply resolve_target_elem|].
        intros q Hq. rewrite N1 in Fr. by rewrite Fr, RO. }
  destruct (hash_type (s_header s) =? 1) eqn:E1.
  { destruct (extract_u64 lib _ _ _ _ _ _ _ _ w1) as [r w2] eqn:Hrun.
    apply Hgen in Hrun as [F|(ms & target & Hp & Hin & Fr)]; [by left|].
    right. exists data, (filename <$> ms), (filename target).
    unfold manifest_names. rewrite <- Hh, E1, Hh, Hp. split; [done|]. split; [done|].
    split; [by apply list_elem_of_fmap_2 | done]. }
  destruct (hash_type (s_header s) =? 2) eqn:E2; [|by left].
  destruct (extract_u128 lib _ _ _ _ _ _ _ _ w1) as [r w2] eqn:Hrun.
  apply Hgen in Hrun as [F|(ms & target & Hp & Hin & Fr)]; [by left|].
  right. exists data, (filename <$> ms), (filename target).
  unfold manifest_names. rewrite <- Hh, E1, E2, Hh, Hp. split; [done|]. split; [done|].
  split; [by apply list_elem_of_fmap_2 | done].
Qed.

End SsmcContent.

(** ** The digest width selects the decoder *)

Section Dispatch.

Context (lib : SpriteShrink).

(** The lister on an archive whose manifest the header sends to [store]. *)
Lemma list_by_store {H : Type} (store : ChunkStore H) path data count_in w :
  faults w = [] → fs w !! file_of w path = Some data →
  (sizeof_FileHeader lib ≤ length data)%nat →
  magic_ok lib (archive_header lib data) = true →
  section_present data (man_offset (archive_header lib data))
                       (man_length (archive_header lib data)) →
  manifest_names lib data =
    (λ m : list (FFIFileManifestParent H), filename <$> m) <$>
      parse_file_metadata store (manifest_bytes lib data)
        (man_length (archive_header lib data)) →
  ssmc_list_contents lib path count_in w = (listing_by store lib data, w).
Proof.
  intros Q L Hsz M Hman Hnames. unfold ssmc_list_contents, listing_by.
  destruct (parse_file_metadata store _ _) as [[|m rest]|] eqn:Hp; cbn in Hnames.
  - pose proof (ssmc_list_body_idle lib path w Q) as I.
    destruct (ssmc_list_body lib path w) as [[[items len]|] w1] eqn:Hbody; simpl in I; subst w1.
    + apply ssmc_list_body_Some in Hbody as (data' & names & L' & _ & Hn & -> & Hnz & _).
      assert (data' = data) as -> by congruence.
      rewrite Hnames in Hn. injection Hn as <-. done.
    + done.
  - rewrite (ssmc_list_body_quiet lib path w data _ Q L Hsz M Hman Hnames) by done.
    cbn [length fmap list_fmap]. by rewrite length_fmap.
  - pose proof (ssmc_list_body_idle lib path w Q) as I.
    destruct (ssmc_list_body lib path w) as [[[items len]|] w1] eqn:Hbody; simpl in I; subst w1.
    + apply ssmc_list_body_Some in Hbody as (data' & names & L' & _ & Hn & _).
      assert (data' = data) as -> by congruence. congruence.
    + done.
Qed.

(** C6.  The digest-width selector is a closed two-way choice.  An archive
    whose selector is neither 1 nor 2 makes the lister and the extractor
    return NULL, the files untouched, whatever faults occur.  With selector
    1 and no fault, what both entry points deliver is determined by the
    64-bit decoder alone: the lister returns the records that decoder
    finds in the manifest (NULL with count 0 if it fails or finds none);
    the extractor is [extract_u64] on the loaded sections, it writes the
    file the 64-bit decoder, chunk index and lookup reconstruct, and it
    returns a path only for such a file.  With selector 2 the same holds
    of the 128-bit decoder and [extract_u128]. *)
Theorem digest_width_dispatch (path : string) (data : list byte)
    (name : option string) (idx : Z) (dir : string) (count_in : Z) (w : World) :
  fs w !! file_of w path = Some data →
  let h := archive_header lib data in
  let s := loaded lib (file_of w path) data in
  (hash_type h ≠ 1 → hash_type h ≠ 2 →
   (∃ w', ssmc_list_contents lib path count_in w = ((None, 0), w') ∧ fs w' = fs w) ∧
   (∃ w', ssmc_extract_file lib path name idx dir w = (None, w') ∧ fs w' = fs w)) ∧
  (faults w = [] → (sizeof_FileHeader lib ≤ length data)%nat → magic_ok lib h = true →
   section_present data (man_offset h) (man_length h) →
   (hash_type h = 1 →
    ssmc_list_contents lib path count_in w = (listing_by (store_u64 lib) lib data, w)) ∧
   (hash_type h = 2 →
    ssmc_list_contents lib path count_in w = (listing_by (store_u128 lib) lib data, w))) ∧
  (faults w = [] → loadable lib data →
   (hash_type h = 1 →
    ssmc_extract_file lib path name idx dir w =
      extract_u64 lib (s_file s) h (s_manifest s) (s_chunk_index s) (s_dictionary s)
        name idx dir w ∧
    (∀ fname content,
       content_by (store_u64 lib) lib data name idx = Some (fname, content) →
       file_of w path ≠ file_of w (dir +:+ "/" +:+ fname) →
       ssmc_extract_file lib path name idx dir w =
         (Some (dir +:+ "/" +:+ fname),
          set_fs (<[file_of w (dir +:+ "/" +:+ fname) := content]> (fs w)) w)) ∧
    (∀ out w',
       ssmc_extract_file lib path name idx dir w = (Some out, w') →
       file_of w path ≠ file_of w out →
       ∃ fname content,
         content_by (store_u64 lib) lib data name idx = Some (fname, content) ∧
         out = dir +:+ "/" +:+ fname)) ∧
   (hash_type h = 2 →
    ssmc_extract_file lib path name idx dir w =
      extract_u128 lib (s_file s) h (s_manifest s) (s_chunk_index s) (s_dictionary s)
        name idx dir w ∧
    (∀ fname content,
       content_by (store_u128 lib) lib data name idx = Some (fname, content) →
       file_of w path ≠ file_of w (dir +:+ "/" +:+ fname) →
       ssmc_extract_file lib path name idx dir w =
         (Some (dir +:+ "/" +:+ fname),
          set_fs (<[file_of w (dir +:+ "/" +:+ fname) := content]> (fs w)) w)) ∧
    (∀ out w',
       ssmc_extract_file lib path name idx dir w = (Some out, w') →
       file_of w path ≠ file_of w out →
       ∃ fname content,
         content_by (store_u128 lib) lib data name idx = Some (fname, content) ∧
         out = dir +:+ "/" +:+ fname))).
Proof.
  intros L h s. split; [|split].
  - intros H1 H2.
    assert (manifest_names lib data = None) as Hnone.
    { unfold manifest_names. fold h.
      destruct (Z.eqb_spec (hash_type h) 1); [done|].
      by destruct (Z.eqb_spec (hash_type h) 2). }
    split.
    + apply list_refused. intros items len w' Hbody.
      apply ssmc_list_body_Some in Hbody as (data' & names & L' & _ & Hn & _).
      assert (data' = data) as -> by congruence. congruence.
    + rewrite ssmc_extract_file_run.
      pose proof (load_sections_read_only lib path w) as RO.
      destruct (load_sections lib path w) as [[s'|] w1] eqn:Hload; simpl in RO; [|eauto].
      apply load_sections_Some in Hload as (data' & L' & _ & _ & Hh & _).
      assert (data' = data) as -> by congruence. rewrite Hh. fold h.
      destruct (Z.eqb_spec (hash_type h) 1); [done|].
      destruct (Z.eqb_spec (hash_type h) 2); [done|]. eauto.
  - intros Q Hsz M Hman. split; intros Hw.
    + apply list_by_store; try done.
      unfold manifest_names. fold h. rewrite Hw. cbn [Z.eqb Pos.eqb].
      by destruct (parse_file_metadata _ _ _).
    + apply list_by_store; try done.
      unfold manifest_names. fold h. rewrite Hw. cbn [Z.eqb Pos.eqb].
      by destruct (parse_file_metadata _ _ _).
  - intros Q Hload.
    assert (ssmc_extract_file lib path name idx dir w =
            (if hash_type h =? 1 then
               extract_u64 lib (s_file s) h (s_manifest s) (s_chunk_index s)
                 (s_dictionary s) name idx dir
             else if hash_type h =? 2 then
               extract_u128 lib (s_file s) h (s_manifest s) (s_chunk_index s)
                 (s_dictionary s) name idx dir
             else io_fail) w) as Hrun.
    { by rewrite ssmc_extract_file_run, (load_sections_quiet lib path w data Q L Hload). }
    assert (∀ {H} (store : ChunkStore H),
              ssmc_extract_file lib path name idx dir w =
                extract_generic store (decompress_chunk_c lib) (s_file s) h (s_manifest s)
                  (s_chunk_index s) (s_dictionary s) name idx dir w →
              (∀ fname content,
                 content_by store lib data name idx = Some (fname, content) →
                 file_of w path ≠ file_of w (dir +:+ "/" +:+ fname) →
                 ssmc_extract_file lib path name idx dir w =
                   (Some (dir +:+ "/" +:+ fname),
                    set_fs (<[file_of w (dir +:+ "/" +:+ fname) := content]> (fs w)) w)) ∧
              (∀ out w',
                 ssmc_extract_file lib path name idx dir w = (Some out, w') →
                 file_of w path ≠ file_of w out →
                 ∃ fname content,
                   content_by store lib data name idx = Some (fname, content) ∧
                   out = dir +:+ "/" +:+ fname)) as Hgen.
    { intros H store ->. split.
      - intros fname content Hc Hne.
        by apply (extract_generic_quiet _ _ _ _ _ _ _ _ _ _ _ data).
      - intros out w' Hgo Hne.
        destruct (extract_generic_content _ _ _ _ _ _ _ _ _ _ _ _ _ data Hgo L Hne)
          as (fname & content & kept & Hrec & Ho & _).
        by exists fname, content. }
    split; intros Hw; rewrite Hw in Hrun; cbn [Z.eqb Pos.eqb] in Hrun.
    + split; [exact Hrun|]. by apply Hgen.
    + split; [exact Hrun|]. by apply Hgen.
Qed.

End Dispatch.

(** ** Listing, and the facade in front of the SSMC handler *)

Section FacadeMore.

Context (lib : SpriteShrink).

Lemma ssmc_list_quiet path data names count_in w :
  faults w = [] → fs w !! file_of w path = Some data →
  (sizeof_FileHeader lib ≤ length data)%nat →
  magic_ok lib (archive_header lib data) = true →
  section_present data (man_offset (archive_header lib data))
                       (man_length (archive_header lib data)) →
  manifest_names lib data = Some names → names ≠ [] →
  Z.of_nat (length names) ≤ INT_MAX →
  ssmc_list_contents lib path count_in w =
    ((Some (entries_of names), Z.of_nat (length names)), w).
Proof.
  intros Q L Hsz M Hman Hn Hne Hmax. unfold ssmc_list_contents.
  rewrite (ssmc_list_body_quiet lib path w data names Q L Hsz M Hman Hn Hne).
  rewrite to_int_small by lia.
  destruct (Z.eqb_spec (Z.of_nat (length names)) 0) as [Hz|]; [|done].
  destruct names; [done | discriminate Hz].
Qed.

(** X8.  Without faults, the lister succeeds on every archive whose header and
    manifest can be read and whose manifest decodes to between one and
    [INT_MAX] records: it returns one entry per record, in manifest order,
    and stores their number. *)
Theorem listing_succeeds (path : string) (data : list byte) (names : list string)
    (count_in : Z) (w : World) :
  faults w = [] → fs w !! file_of w path = Some data →
  (sizeof_FileHeader lib ≤ length data)%nat →
  magic_ok lib (archive_header lib data) = true →
  section_present data (man_offset (archive_header lib data))
                       (man_length (archive_header lib data)) →
  manifest_names lib data = Some names → names ≠ [] →
  Z.of_nat (length names) ≤ INT_MAX →
  ssmc_list_contents lib path count_in w =
    ((Some (entries_of names), Z.of_nat (length names)), w).
Proof.
  intros Q L Hsz M Hman Hn Hne Hmax. unfold ssmc_list_contents.
  rewrite (ssmc_list_body_quiet lib path w data names Q L Hsz M Hman Hn Hne).
  rewrite to_int_small by lia.
  destruct (Z.eqb_spec (Z.of_nat (length names)) 0) as [Hz|]; [|done].
  destruct names; [done | discriminate Hz].
Qed.

Lemma find_by_name_present {H} (manifests : list (FFIFileManifestParent H)) m :
  m ∈ manifests →
  filename <$> find_by_name manifests (filename m) = Some (filename m).
Proof.
  intros Hin. destruct (find_by_name manifests (filename m)) as [m'|] eqn:E.
  - apply find_by_name_Some in E as (_ & _ & _ & Hn & _). cbn. by rewrite Hn.
  - by destruct (proj1 (find_by_name_None manifests (filename m)) E m Hin).
Qed.

Lemma resolve_by_name_present {H} (manifests : list (FFIFileManifestParent H)) m :
  m ∈ manifests →
  filename <$> resolve_target manifests (Some (filename m)) (-1) = Some (filename m).
Proof.
  intros Hin. rewrite resolve_target_out_of_bounds.
  - by apply find_by_name_present.
  - unfold is_int, INT_MAX. lia.
  - lia.
Qed.

(** X9.  Listing and extraction agree: for every entry of a returned listing
    (at a position within [INT_MAX]), a request by the entry's index,
    whatever name accompanies it, resolves to the record with the entry's
    path as file name, and so does a request by that path with index -1. *)
Theorem listed_entries_resolve (path : string) (count_in : Z) (w : World)
    (item_list : list ArchiveEntry) (count : Z) (w' : World) (i : nat)
    (e : ArchiveEntry) :
  ssmc_list_contents lib path count_in w = ((Some item_list, count), w') →
  item_list !! i = Some e → Z.of_nat i ≤ INT_MAX →
  ∃ data n,
    fs w !! file_of w path = Some data ∧ entry_path e = Some n ∧
    (∀ name, resolved_name lib data name (entry_index e) = Some n) ∧
    resolved_name lib data (Some n) (-1) = Some n.
Proof.
  unfold ssmc_list_contents. intros Hrun Hi Hmax.
  destruct (ssmc_list_body lib path w) as [[[items len]|] w1] eqn:Hbody; [|discriminate].
  destruct (_ =? 0); [discriminate|]. injection Hrun as <- _ _.
  apply ssmc_list_body_Some in Hbody as (data & names & L & _ & Hn & _ & _ & ->).
  unfold entries_of in Hi. rewrite list_lookup_imap in Hi.
  destruct (names !! i) as [n|] eqn:Ln; [|discriminate]. injection Hi as <-.
  exists data, n. split; [done|]. split; [done|]. cbn [entry_index].
  unfold manifest_names in Hn. unfold resolved_name. cbv zeta in Hn |- *.
  destruct (hash_type (archive_header lib data) =? 1).
  { destruct (parse_file_metadata (store_u64 lib) _ _) as [m|]; [|discriminate].
    injection Hn as <-. rewrite list_lookup_fmap in Ln.
    destruct (m !! i) as [rec|] eqn:Lm; [|discriminate]. injection Ln as <-.
    split.
    - intros name. by rewrite (resolve_target_at _ _ _ _ Lm Hmax).
    - apply resolve_by_name_present. by eapply list_elem_of_lookup_2. }
  destruct (hash_type (archive_header lib data) =? 2); [|discriminate].
  destruct (parse_file_metadata (store_u128 lib) _ _) as [m|]; [|discriminate].
  injection Hn as <-. rewrite list_lookup_fmap in Ln.
  destruct (m !! i) as [rec|] eqn:Lm; [|discriminate]. injection Ln as <-.
  split.
  - intros name. by rewrite (resolve_target_at _ _ _ _ Lm Hmax).
  - apply resolve_by_name_present. by eapply list_elem_of_lookup_2.
Qed.

(** X6.  After [register_all_archive_handlers] on the empty registry, the SSMC
    handler is the only one registered.  A path it does not accept, and a
    NULL path, get NULL from both facade calls with the world untouched
    (the file is not even opened, [*count] is not written); a path it
    accepts is handed to [ssmc_extract_file] unchanged. *)
Theorem facade_dispatch (vt : ptr → ArchiveVTable) (ssmc_handler : ptr)
    (path : string) (name : option string) (idx : Z) (dir : string)
    (count_in : Z) (w : World) :
  ssmc_handler ≠ NULL → vt ssmc_handler = arc_ssmc_vtable lib →
  registered (register_all_archive_handlers ssmc_handler registry_init) = [ssmc_handler] ∧
  (ssmc_is_supported path = false →
   archive_list_contents vt (register_all_archive_handlers ssmc_handler registry_init)
     (Some path) count_in w = (Returns (None, count_in), w) ∧
   archive_extract_file vt (register_all_archive_handlers ssmc_handler registry_init)
     (Some path) name idx dir w = (None, w)) ∧
  (ssmc_is_supported path = true →
   get_handler_for_file vt (register_all_archive_handlers ssmc_handler registry_init)
     (Some path) = ssmc_handler ∧
   archive_extract_file vt (register_all_archive_handlers ssmc_handler registry_init)
     (Some path) name idx dir w = ssmc_extract_file lib path name idx dir w) ∧
  archive_list_contents vt (register_all_archive_handlers ssmc_handler registry_init)
    None count_in w = (Returns (None, count_in), w) ∧
  archive_extract_file vt (register_all_archive_handlers ssmc_handler registry_init)
    None name idx dir w = (None, w).
Proof.
  intros Hh Hvt. unfold register_all_archive_handlers.
  assert (registered (register_archive_handler ssmc_handler registry_init) = [ssmc_handler])
    as Hreg.
  { rewrite (registered_register _ _ registry_init_wf).
    assert (registered registry_init = []) as -> by (unfold registered; by rewrite take_0).
    rewrite decide_False; [done|].
    intros [?|[Hc|Hin]]; [done | discriminate Hc | by apply elem_of_nil in Hin]. }
  assert (get_handler_for_file vt (register_archive_handler ssmc_handler registry_init)
            (Some path) = if ssmc_is_supported path then ssmc_handler else NULL) as Hget.
  { rewrite get_handler_find, Hreg. cbn [find_supported]. by rewrite Hvt. }
  split; [done|]. split; [|split; [|done]].
  - intros Hno. unfold archive_list_contents, archive_extract_file.
    rewrite Hget, Hno. done.
  - intros Hyes. rewrite Hget, Hyes. split; [done|].
    unfold archive_extract_file. rewrite Hget, Hyes, Hvt. cbn [extract_file arc_ssmc_vtable].
    by destruct (N.eqb_spec ssmc_handler NULL).
Qed.

Lemma root_files_entries (names : list string) :
  ∀ i, omap root_file (imap (λ k, entry_at (i + k)) names) = flat_names names.
Proof.
  induction names as [|n names IH]; intros i; [done|].
  rewrite imap_cons. cbn [omap list_omap]. unfold flat_names. rewrite filter_cons.
  unfold root_file at 1. cbn [entry_at entry_type entry_path].
  assert (omap root_file (imap ((λ k, entry_at (i + k)) ∘ S) names) = flat_names names) as ->.
  { rewrite <- (IH (S i)). f_equal. apply imap_ext. intros k x _. cbn. f_equal. lia. }
  destruct (occurs "/" n) eqn:E.
  - rewrite decide_False; [done | congruence].
  - by rewrite decide_True.
Qed.

Lemma root_files_entries_of (names : list string) :
  root_files (entries_of names) = flat_names names.
Proof.
  rewrite <- (root_files_entries names 0). reflexivity.
Qed.

Lemma entries_have_paths (names : list string) :
  Forall (λ e, entry_path e ≠ None) (entries_of names).
Proof.
  apply Forall_forall. intros e Hin. unfold entries_of in Hin.
  apply list_elem_of_lookup in Hin as [i Hi]. rewrite list_lookup_imap in Hi.
  destruct (names !! i); [|discriminate]. by injection Hi as <-.
Qed.

(** X7.  The facade on an SSMC archive, without faults: for a path the registry
    resolves to the SSMC handler and an archive that lists (between one and
    [INT_MAX] records), [archive_list_contents] returns the manifest's file
    names that contain no ['/'], in manifest order, cut after 255, and
    stores their number; NULL with count 0 when every name is nested. *)
Theorem facade_lists_archive (vt : ptr → ArchiveVTable) (r : Registry)
    (path : string) (data : list byte) (names : list string)
    (count_in : Z) (w : World) :
  get_handler_for_file vt r (Some path) ≠ NULL →
  vt (get_handler_for_file vt r (Some path)) = arc_ssmc_vtable lib →
  faults w = [] → fs w !! file_of w path = Some data →
  (sizeof_FileHeader lib ≤ length data)%nat →
  magic_ok lib (archive_header lib data) = true →
  section_present data (man_offset (archive_header lib data))
                       (man_length (archive_header lib data)) →
  manifest_names lib data = Some names → names ≠ [] →
  Z.of_nat (length names) ≤ INT_MAX →
  archive_list_contents vt r (Some path) count_in w =
    (Returns (if decide (flat_names names = []) then None
              else Some (take MAX_ARCHIVE_DISPLAY_ITEMS (flat_names names)),
              Z.of_nat (length (flat_names names) `min` MAX_ARCHIVE_DISPLAY_ITEMS)),
     w).
Proof.
  intros Hh Hvt Q L Hsz M Hman Hn Hne Hmax. unfold archive_list_contents.
  destruct (N.eqb_spec (get_handler_for_file vt r (Some path)) NULL) as [?|_]; [done|].
  rewrite Hvt. cbn [list_contents arc_ssmc_vtable].
  rewrite (ssmc_list_quiet path data names 0 w Q L Hsz M Hman Hn Hne Hmax).
  rewrite (alloc_quiet _ Q), Nat2Z.id.
  destruct (collect_entries _ _ _ _ w) as [s w3] eqn:Hc.
  rewrite <- (length_entries_of names) in Hc.
  apply (collect_entries_spec _ _ (entries_have_paths names) 0%nat [] w s w3) in Hc;
    [|done | simpl; lia].
  destruct Hc as (_ & Hq). destruct (Hq Q) as [-> ->].
  rewrite drop_0. cbn [app]. rewrite root_files_entries_of.
  set (flat := flat_names names).
  rewrite length_take, Nat.min_comm.
  case_decide as He.
  - by rewrite He.
  - assert (0 < Z.of_nat (length flat `min` MAX_ARCHIVE_DISPLAY_ITEMS)) as Hpos.
    { unfold MAX_ARCHIVE_DISPLAY_ITEMS. destruct flat; [done|]. simpl. lia. }
    destruct (Z.ltb_spec 0 (Z.of_nat (length flat `min` MAX_ARCHIVE_DISPLAY_ITEMS))); [|lia].
    by rewrite (alloc_quiet _ Q).
Qed.

End FacadeMore.

Section ListShape.

(** The projection loop keeps [working_list] within 255 names without
    ['/']. *)
Lemma collect_entries_shape (entries : list ArchiveEntry) n :
  ∀ i working_list w kept w',
    collect_entries entries i n working_list w = (ScanDone kept, w') →
    (length working_list ≤ MAX_ARCHIVE_DISPLAY_ITEMS)%nat →
    Forall (λ p, occurs "/" p = false) working_list →
    (length kept ≤ MAX_ARCHIVE_DISPLAY_ITEMS)%nat ∧
    Forall (λ p, occurs "/" p = false) kept.
Proof.
  induction n as [|n IH]; intros i wl w kept w'; cbn [collect_entries].
  - by intros [= <- <-].
  - destruct (Nat.leb_spec MAX_ARCHIVE_DISPLAY_ITEMS (length wl)) as [Hfull|Hroom].
    { by intros [= <- <-]. }
    destruct (entries !! i) as [e|]; [|discriminate].
    destruct (entry_path e) as [p|]; [|discriminate].
    destruct (entry_type e); cbn [andb].
    + destruct (strchr p "/") eqn:E.
      * apply IH.
      * apply strchr_none in E. destruct (alloc w) as [[u|] w1]; [|discriminate].
        intros Hrun Hlen Hall. apply IH in Hrun; [done | rewrite length_app; simpl; lia |].
        apply Forall_app. split; [done|]. by constructor.
    + apply IH.
Qed.

(** X5.  Whatever the handler and whatever faults occur: a list that
    [archive_list_contents] returns has between 1 and 255 names, none with
    a ['/'], and [*count] is its length.  When NULL is returned, [*count]
    was either left as it was or set to a number between 0 and 255 (it is
    set, to the number of names collected, also when the final [realloc]
    fails), so only the result tells failure from success. *)
Theorem list_contents_shape (vt : ptr → ArchiveVTable) (r : Registry)
    (path : option string) (count_in : Z) (w : World)
    (result : option (list string)) (count : Z) (w' : World) :
  archive_list_contents vt r path count_in w = (Returns (result, count), w') →
  match result with
  | Some names =>
      (1 ≤ length names ≤ MAX_ARCHIVE_DISPLAY_ITEMS)%nat ∧
      count = Z.of_nat (length names) ∧
      Forall (λ p, occurs "/" p = false) names
  | None => count = count_in ∨ 0 ≤ count ≤ 255
  end.
Proof.
  unfold archive_list_contents.
  destruct path as [p|]; [|intros [= <- <- _]; by left].
  destruct (N.eqb _ NULL); [intros [= <- <- _]; by left|].
  destruct (list_contents _) as [lister|]; [|intros [= <- <- _]; by left].
  destruct (lister p 0 w) as [[[entries|] raw] w1]; [|intros [= <- <- _]; by left].
  destruct (alloc w1) as [[u|] w2]; [|intros [= <- <- _]; by left].
  destruct (collect_entries _ _ _ _ w2) as [[kept| |] w3] eqn:Hc;
    [|intros [= <- <- _]; by left | discriminate].
  apply collect_entries_shape in Hc as (Hlen & Hall); [|simpl; lia | constructor].
  unfold MAX_ARCHIVE_DISPLAY_ITEMS in *.
  destruct (Z.ltb_spec 0 (Z.of_nat (length kept))) as [Hpos|Hz].
  - destruct (alloc w3) as [[u'|] w4]; intros [= <- <- _].
    + split; [lia|]. done.
    + right. lia.
  - intros [= <- <- _]. right. lia.
Qed.

End ListShape.

(** ** Concrete scenarios for the remaining entry points *)

Section MoreScenarios.

Lemma two_handlers_wf : registry_wf Toy.two_handlers.
Proof. unfold Toy.two_handlers. do 2 apply register_wf. apply registry_init_wf. Defined.

(** Registering a third handler leaves ["game.ssmc"] with the handler that
    served it. *)
Lemma registration_keeps_priority_witness :
  get_handler_for_file Toy.vt (register_archive_handler 3 Toy.two_handlers) (Some "game.ssmc") =
    get_handler_for_file Toy.vt Toy.two_handlers (Some "game.ssmc").
Proof.
  apply (proj1 (registration_keeps_priority Toy.vt Toy.two_handlers 3 "game.ssmc"
                  two_handlers_wf)).
  vm_compute. discriminate.
Defined.

(** A sequence with a repetition and a NULL. *)
Example register_sequence_example :
  registered (register_each [2; 0; 1; 2; 1; 3]%N registry_init) = [2; 1; 3]%N.
Proof. reflexivity. Qed.

(** Shutting down the two-handler registry, then registering again. *)
Lemma shutdown_empties_witness :
  registered (archive_system_shutdown Toy.two_handlers) = [] ∧
  get_handler_for_file Toy.vt (archive_system_shutdown Toy.two_handlers) (Some "game.ssmc")
    = NULL ∧
  registered (register_archive_handler 2 (archive_system_shutdown Toy.two_handlers)) = [2%N].
Proof.
  destruct (shutdown_empties Toy.vt Toy.two_handlers two_handlers_wf)
    as (_ & Hnil & _ & Hnone & _ & _ & Hagain).
  split; [exact Hnil|]. split; [apply Hnone|]. apply Hagain. discriminate.
Defined.

(** The table for the two handlers: the second has neither name nor
    extension list and contributes nothing. *)
Lemma supported_info_table_witness :
  archive_get_all_supported_info Toy.vt Toy.two_handlers (Some 7) Toy.disk =
    (Returns (Some [mkInfo ".ssmc" "SSMC Archive Handler"], Some 1), Toy.disk).
Proof.
  refine (proj2 (proj2 (supported_info_table Toy.vt Toy.two_handlers 7 Toy.disk
                          two_handlers_wf _)) _).
  - vm_compute. discriminate.
  - reflexivity.
Defined.

(** The file extracted from ["game.ssmc"] is the reconstruction of ["a.txt"]. *)
Lemma extraction_content_witness :
  ∃ data fname content kept,
    fs Toy.disk !! "game.ssmc" = Some data ∧
    archive_content Toy.good_lib data None 0 = Some (fname, content) ∧
    "out/a.txt" = "out" +:+ "/" +:+ fname ∧
    fs (ssmc_extract_file Toy.good_lib "game.ssmc" None 0 "out" Toy.disk).2 !! "out/a.txt"
      = Some kept ∧
    kept `prefix_of` content ∧
    (faults Toy.disk = [] → kept = content) ∧
    ∀ q, q ≠ "out/a.txt" →
         fs (ssmc_extract_file Toy.good_lib "game.ssmc" None 0 "out" Toy.disk).2 !! q
           = fs Toy.disk !! q.
Proof.
  apply (extraction_content Toy.good_lib "game.ssmc" None 0 "out" Toy.disk "out/a.txt").
  - vm_compute. reflexivity.
  - discriminate.
Defined.

(** Extraction of ["a.txt"] from ["game.ssmc"] succeeds without faults. *)
Lemma extraction_succeeds_witness :
  ssmc_extract_file Toy.good_lib "game.ssmc" (Some "a.txt") (-1) "out" Toy.disk =
    (Some ("out" +:+ "/" +:+ "a.txt"),
     set_fs (<["out/a.txt" := Toy.payload]> (fs Toy.disk)) Toy.disk).
Proof.
  apply (extraction_succeeds Toy.good_lib "game.ssmc" Toy.game).
  - reflexivity.
  - exact game_on_disk.
  - exact (game_loadable Toy.records).
  - vm_compute. reflexivity.
  - discriminate.
Defined.

(** The same file extracted into ["out"] and then into ["tmp"]. *)
Lemma extraction_deterministic_witness :
  ∃ content kept1 kept2,
    fs (ssmc_extract_file Toy.good_lib "game.ssmc" None 0 "out" Toy.disk).2 !! "out/a.txt"
      = Some kept1 ∧
    fs (ssmc_extract_file Toy.good_lib "game.ssmc" None 0 "tmp"
          (ssmc_extract_file Toy.good_lib "game.ssmc" None 0 "out" Toy.disk).2).2
      !! "tmp/a.txt" = Some kept2 ∧
    kept1 `prefix_of` content ∧ kept2 `prefix_of` content ∧
    (faults Toy.disk = [] → kept1 = content ∧ kept2 = content) ∧
    ("out/a.txt" ≠ "tmp/a.txt" →
     fs (ssmc_extract_file Toy.good_lib "game.ssmc" None 0 "tmp"
           (ssmc_extract_file Toy.good_lib "game.ssmc" None 0 "out" Toy.disk).2).2
       !! "out/a.txt" = Some kept1).
Proof.
  refine (extraction_deterministic Toy.good_lib "game.ssmc" None 0 "out" "tmp"
            Toy.disk _ _ "out/a.txt" "tmp/a.txt" _ _ _ _).
  - vm_compute. reflexivity.
  - vm_compute. reflexivity.
  - discriminate.
  - discriminate.
Defined.

(** The lister on ["game.ssmc"], without faults. *)
Lemma listing_succeeds_witness :
  ssmc_list_contents Toy.good_lib "game.ssmc" 7 Toy.disk =
    ((Some (entries_of ["a.txt"]), Z.of_nat (length ["a.txt"])), Toy.disk).
Proof.
  pose proof (game_loadable Toy.records) as (Hsz & M & Hman & _).
  apply (listing_succeeds Toy.good_lib "game.ssmc" Toy.game ["a.txt"] 7 Toy.disk
           eq_refl game_on_disk Hsz M Hman).
  - vm_compute. reflexivity.
  - discriminate.
  - vm_compute. discriminate.
Defined.

(** The entry listed first for ["game.ssmc"] resolves to its own record. *)
Lemma listed_entries_resolve_witness :
  ∃ data n,
    fs Toy.disk !! "game.ssmc" = Some data ∧
    entry_path (mkEntry (Some "a.txt") ARCHIVE_ENTRY_FILE 0) = Some n ∧
    (∀ name, resolved_name Toy.good_lib data name
               (entry_index (mkEntry (Some "a.txt") ARCHIVE_ENTRY_FILE 0)) = Some n) ∧
    resolved_name Toy.good_lib data (Some n) (-1) = Some n.
Proof.
  apply (listed_entries_resolve Toy.good_lib "game.ssmc" 7 Toy.disk
           [mkEntry (Some "a.txt") ARCHIVE_ENTRY_FILE 0] 1 Toy.disk 0%nat).
  - vm_compute. reflexivity.
  - reflexivity.
  - vm_compute. discriminate.
Defined.

(** With the SSMC handler at address 1: ["notes.zip"] is refused without
    any effect. *)
Lemma facade_dispatch_witness :
  archive_list_contents (λ _, arc_ssmc_vtable Toy.good_lib)
    (register_all_archive_handlers 1 registry_init) (Some "notes.zip") 7 Toy.disk
    = (Returns (None, 7), Toy.disk) ∧
  archive_extract_file (λ _, arc_ssmc_vtable Toy.good_lib)
    (register_all_archive_handlers 1 registry_init) (Some "notes.zip") None 0 "out" Toy.disk
    = (None, Toy.disk).
Proof.
  destruct (facade_dispatch Toy.good_lib (λ _, arc_ssmc_vtable Toy.good_lib) 1 "notes.zip"
              None 0 "out" 7 Toy.disk ltac:(discriminate) eq_refl) as (_ & Hno & _).
  apply Hno. reflexivity.
Defined.

(** The facade lists ["game.ssmc"] through the SSMC handler. *)
Lemma facade_lists_archive_witness :
  archive_list_contents Toy.vt Toy.two_handlers (Some "game.ssmc") 7 Toy.disk =
    (Returns (Some ["a.txt"], 1), Toy.disk).
Proof.
  pose proof (game_loadable Toy.records) as (Hsz & M & Hman & _).
  refine (facade_lists_archive Toy.good_lib Toy.vt Toy.two_handlers "game.ssmc" Toy.game
            ["a.txt"] 7 Toy.disk _ _ eq_refl game_on_disk Hsz M Hman _ _ _).
  - vm_compute. discriminate.
  - reflexivity.
  - vm_compute. reflexivity.
  - discriminate.
  - vm_compute. discriminate.
Defined.

(** ["notes.zip"] goes to the second handler, which lists four entries; the
    facade returns the two root files. *)
Lemma list_contents_shape_witness :
  (1 ≤ length ["a.txt"; "c.txt"] ≤ MAX_ARCHIVE_DISPLAY_ITEMS)%nat ∧
  2 = Z.of_nat (length ["a.txt"; "c.txt"]) ∧
  Forall (λ p, occurs "/" p = false) ["a.txt"; "c.txt"].
Proof.
  apply (list_contents_shape Toy.vt Toy.two_handlers (Some "notes.zip") 0 Toy.disk
           (Some ["a.txt"; "c.txt"]) 2 Toy.disk).
  vm_compute. reflexivity.
Defined.

(** The extracted ["a.txt"] has the 4 + 6 bytes its descriptors declare. *)
Lemma extracted_size_witness :
  ∃ p_manifest target written,
    parse_file_metadata (store_u64 Toy.good_lib) (manifest_bytes Toy.good_lib Toy.game)
      (man_length (archive_header Toy.good_lib Toy.game)) = Some p_manifest ∧
    resolve_target p_manifest None 0 = Some target ∧
    "out/a.txt" = output_path_of "out" target ∧
    fs (extract_u64 Toy.good_lib (mkFILE "game.ssmc" 0) (archive_header Toy.good_lib Toy.game)
          (manifest_bytes Toy.good_lib Toy.game) ["i"%byte] ["d"%byte] None 0 "out"
          Toy.disk).2 !! "out/a.txt" = Some written ∧
    Forall (λ meta, 0 ≤ chunk_length meta) (chunk_metadata target) ∧
    Z.of_nat (length written) ≤ declared_size target ∧
    (faults Toy.disk = [] → Z.of_nat (length written) = declared_size target).
Proof.
  apply (extracted_size (store_u64 Toy.good_lib) (decompress_chunk_c Toy.good_lib)
           (mkFILE "game.ssmc" 0) (archive_header Toy.good_lib Toy.game)
           (manifest_bytes Toy.good_lib Toy.game) ["i"%byte] ["d"%byte] None 0 "out"
           Toy.disk "out/a.txt" _ Toy.game).
  - vm_compute. reflexivity.
  - exact game_on_disk.
  - discriminate.
Defined.

Lemma wide_game_on_disk :
  fs (Toy.world [("game.ssmc", Toy.wide_game)] []) !! "game.ssmc" = Some Toy.wide_game.
Proof. vm_compute. reflexivity. Defined.

Lemma wide_game_loadable : loadable Toy.both_lib Toy.wide_game.
Proof.
  unfold loadable. cbv zeta.
  assert (archive_header Toy.both_lib Toy.wide_game =
          mkHeader Toy.MAGIC 2 12 1 13 1 14 1 15) as -> by (vm_compute; reflexivity).
  repeat split; first [ by vm_compute | vm_compute; lia | vm_compute; discriminate ].
Defined.

Lemma both_game_loadable : loadable Toy.both_lib Toy.game.
Proof.
  unfold loadable. cbv zeta.
  assert (archive_header Toy.both_lib Toy.game =
          mkHeader Toy.MAGIC 1 12 1 13 1 14 1 15) as -> by (vm_compute; reflexivity).
  repeat split; first [ by vm_compute | vm_compute; lia | vm_compute; discriminate ].
Defined.

(** An instance of C6, with a library whose two decoders read different
    manifests from the same bytes.  The archive with selector 1 lists and
    yields ["a.txt"], the file of the 64-bit decoder; the same bytes with
    selector 2 list and yield ["b.bin"], the file of the 128-bit decoder;
    and with selector 3 both entry points return NULL. *)
Lemma digest_width_witness :
  (ssmc_list_contents Toy.both_lib "game.ssmc" 0 Toy.disk =
     ((Some [mkEntry (Some "a.txt") ARCHIVE_ENTRY_FILE 0], 1), Toy.disk) ∧
   ssmc_extract_file Toy.both_lib "game.ssmc" None 0 "out" Toy.disk =
     (Some "out/a.txt", set_fs (<["out/a.txt" := Toy.payload]> (fs Toy.disk)) Toy.disk)) ∧
  (ssmc_list_contents Toy.both_lib "game.ssmc" 0
     (Toy.world [("game.ssmc", Toy.wide_game)] []) =
     ((Some [mkEntry (Some "b.bin") ARCHIVE_ENTRY_FILE 0], 1),
      Toy.world [("game.ssmc", Toy.wide_game)] []) ∧
   ssmc_extract_file Toy.both_lib "game.ssmc" None 0 "out"
     (Toy.world [("game.ssmc", Toy.wide_game)] []) =
     (Some "out/b.bin",
      set_fs (<["out/b.bin" := Toy.payload]>
                (fs (Toy.world [("game.ssmc", Toy.wide_game)] [])))
        (Toy.world [("game.ssmc", Toy.wide_game)] []))) ∧
  ((∃ w', ssmc_list_contents Toy.both_lib "game.ssmc" 0
            (Toy.world [("game.ssmc", Toy.archive Toy.MAGIC "003"%byte)] []) = ((None, 0), w') ∧
          fs w' = fs (Toy.world [("game.ssmc", Toy.archive Toy.MAGIC "003"%byte)] [])) ∧
   (∃ w', ssmc_extract_file Toy.both_lib "game.ssmc" (Some "a.txt") 0 "out"
            (Toy.world [("game.ssmc", Toy.archive Toy.MAGIC "003"%byte)] []) = (None, w') ∧
          fs w' = fs (Toy.world [("game.ssmc", Toy.archive Toy.MAGIC "003"%byte)] []))).
Proof.
  split; [|split].
  - destruct (digest_width_dispatch Toy.both_lib "game.ssmc" Toy.game None 0 "out" 0
                Toy.disk game_on_disk) as (_ & Hlist & Hextract).
    pose proof both_game_loadable as Hload.
    pose proof Hload as (Hsz & M & Hman & _).
    split.
    + exact (proj1 (Hlist eq_refl Hsz M Hman) eq_refl).
    + destruct (proj1 (Hextract eq_refl Hload) eq_refl) as (_ & Hwrite & _).
      apply (Hwrite "a.txt" Toy.payload); [vm_compute; reflexivity | discriminate].
  - destruct (digest_width_dispatch Toy.both_lib "game.ssmc" Toy.wide_game None 0 "out" 0
                (Toy.world [("game.ssmc", Toy.wide_game)] []) wide_game_on_disk)
      as (_ & Hlist & Hextract).
    pose proof wide_game_loadable as Hload.
    pose proof Hload as (Hsz & M & Hman & _).
    split.
    + exact (proj2 (Hlist eq_refl Hsz M Hman) eq_refl).
    + destruct (proj2 (Hextract eq_refl Hload) eq_refl) as (_ & Hwrite & _).
      apply (Hwrite "b.bin" Toy.payload); [vm_compute; reflexivity | discriminate].
  - apply (proj1 (digest_width_dispatch Toy.both_lib "game.ssmc"
                    (Toy.archive Toy.MAGIC "003"%byte) (Some "a.txt") 0 "out" 0
                    (Toy.world [("game.ssmc", Toy.archive Toy.MAGIC "003"%byte)] [])
                    ltac:(vm_compute; reflexivity))).
    + vm_compute. discriminate.
    + vm_compute. discriminate.
Defined.

End MoreScenarios.
